(** * PhotoSort: the asynchronous image-acquisition engine

    A shallow embedding of the scheduling, decoding and caching classes of
    [PhotoSort.py]:

    - [PriorityThreadPoolExecutor]: three FIFO queues and one dispatch loop;
    - [decode_raw_in_process] and [RawDecoderPool]: the RAW worker and the
      pool that owns the task-id -> callback map;
    - [ResourceManager]: owner of both pools;
    - [ImageLoader]: the recency-ordered pixmap cache.

    Python objects are records, methods are functions from the old object
    state to the new one (with a return value where the method has one),
    [dict]s are [gmap]s, [set]s are [gset]s, [queue.Queue]s are lists with
    the oldest element first, and [collections.OrderedDict] is an association
    list with the least recently used key first.  Python integers are [Z];
    readings of [psutil] and of the clock are rationals. *)

From Stdlib Require Import ZArith QArith Lia Lqa Sorted.
From Stdlib Require Import PrimFloat SpecFloat FloatOps Uint63.
From stdpp Require Import gmap strings list pretty.

Local Open Scope Z_scope.

(** Decimal float literals denote the nearest binary64 value, as they do in
    Python. *)
Set Warnings "-inexact-float".

(** ** Python helpers *)

(** [a > b] on clock and memory readings. *)
Definition Qgtb (a b : Q) : bool := negb (Qle_bool a b).

(** [int(n * x)] as CPython computes it for a small non-negative integer
    [n] and a [float] [x]: [n] is converted to binary64, the product is
    rounded to nearest, and [int] truncates towards zero. *)
Definition float_of_int (n : Z) : float := PrimFloat.of_uint63 (Uint63.of_Z n).

Definition int_of_float (x : float) : Z :=
  match Prim2SF x with
  | S754_finite negative m e =>
      let magnitude :=
        match e with
        | Z0 => Zpos m
        | Zpos p => Zpos m * 2 ^ Zpos p
        | Zneg p => Zpos m / 2 ^ Zpos p
        end in
      if negative then - magnitude else magnitude
  | _ => 0
  end.

Definition int_of_product (n : Z) (x : float) : Z :=
  int_of_float (PrimFloat.mul (float_of_int n) x).

(** ** collections.OrderedDict *)

Module OrderedDict.
Section WithValues.
Context {V : Type}.

(** Items, least recently inserted (or moved) first; keys are unique. *)
Definition t : Type := list (string * V).

Definition keys (d : t) : list string := d.*1.

Definition len (d : t) : Z := Z.of_nat (length d).

(** [k in d] *)
Definition contains (k : string) (d : t) : bool := bool_decide (k ∈ keys d).

(** [d[k]], [None] standing for [KeyError]. *)
Fixpoint getitem (k : string) (d : t) : option V :=
  match d with
  | [] => None
  | (k', v) :: d' => if decide (k = k') then Some v else getitem k d'
  end.

(** [d.popitem(last=False)]: [None] stands for the [KeyError] raised on an
    empty dictionary. *)
Definition popitem_first (d : t) : option ((string * V) * t) :=
  match d with
  | [] => None
  | kv :: d' => Some (kv, d')
  end.

(** [d[k] = v]: an existing key keeps its position, a new key goes last. *)
Fixpoint setitem (k : string) (v : V) (d : t) : t :=
  match d with
  | [] => [(k, v)]
  | (k', v') :: d' =>
      if decide (k = k') then (k, v) :: d' else (k', v') :: setitem k v d'
  end.

(** [del d[k]] (a missing key leaves the list as it is). *)
Fixpoint delitem (k : string) (d : t) : t :=
  match d with
  | [] => []
  | (k', v') :: d' =>
      if decide (k = k') then d' else (k', v') :: delitem k d'
  end.

(** [d.move_to_end(k)]; a missing key ([KeyError]) leaves [d] unchanged. *)
Definition move_to_end (k : string) (d : t) : t :=
  match getitem k d with
  | Some v => delitem k d ++ [(k, v)]
  | None => d
  end.
End WithValues.
Arguments t : clear implicits.
End OrderedDict.

(** ** QPixmap, as far as the cache looks at it *)

Record QPixmap : Type := mkQPixmap {
  isNull : bool;
  pixmap_width : Z;
  pixmap_height : Z
}.

(** [pixmap and not pixmap.isNull()], where [pixmap] may be [None]. *)
Definition pixmap_ok (pixmap : option QPixmap) : bool :=
  match pixmap with
  | Some pm => negb (isNull pm)
  | None => false
  end.

(** ** ImageLoader: the bounded LRU cache *)

Module ImageLoader.

(** The instance attributes the cache code reads.  [current_image_index]
    and [image_files] are optional: [__init__] does not create them, and
    [_remove_oldest_items_from_cache] tests for them with [hasattr]. *)
Record t : Type := mk {
  system_memory_gb : Q;
  cache_limit : Z;
  cache : OrderedDict.t QPixmap;
  last_cache_adjustment : Q;
  current_image_index : option Z;
  image_files : option (list string)
}.

Definition set_cache (c : OrderedDict.t QPixmap) (self : t) : t :=
  mk (system_memory_gb self) (cache_limit self) c
     (last_cache_adjustment self) (current_image_index self) (image_files self).

Definition set_last_cache_adjustment (now : Q) (self : t) : t :=
  mk (system_memory_gb self) (cache_limit self) (cache self)
     now (current_image_index self) (image_files self).

(** [calculate_adaptive_cache_size] *)
Definition calculate_adaptive_cache_size (system_memory_gb : Q) : Z :=
  if Qle_bool 45 system_memory_gb then 120
  else if Qle_bool 30 system_memory_gb then 80
  else if Qle_bool 22 system_memory_gb then 60
  else if Qle_bool 14 system_memory_gb then 40
  else if Qle_bool 7 system_memory_gb then 20
  else 10.

(** [__init__]: the cache starts empty ([create_lru_cache] returns a fresh
    [OrderedDict] and ignores its argument). *)
Definition __init__ (memory_gb : Q) (now : Q) : t :=
  {| system_memory_gb := memory_gb;
     cache_limit := calculate_adaptive_cache_size memory_gb;
     cache := [];
     last_cache_adjustment := now;
     current_image_index := None;
     image_files := None |}.

(** The [while] loop of [_add_to_cache]:
    [while len(cache) >= cache_limit: cache.popitem(last=False)], left with
    [break] when [popitem] raises on the empty dictionary.  The [match] is
    [OrderedDict.popitem_first], written out so that the recursion is on the
    list. *)
Fixpoint evict_while_full (limit : Z) (c : OrderedDict.t QPixmap)
  : OrderedDict.t QPixmap :=
  if OrderedDict.len c >=? limit then
    match c with
    | [] => c
    | _ :: c' => evict_while_full limit c'
    end
  else c.

(** [_add_to_cache] *)
Definition _add_to_cache (file_path : string) (pixmap : option QPixmap)
    (self : t) : t :=
  match pixmap with
  | Some pm =>
      if negb (isNull pm) then
        let c := evict_while_full (cache_limit self) (cache self) in
        let c := OrderedDict.setitem file_path pm c in
        set_cache (OrderedDict.move_to_end file_path c) self
      else self
  | None => self
  end.

(** The preserved set of [_remove_oldest_items_from_cache]: the current
    image and up to three neighbours on each side. *)
Definition neighbour_offsets : list Z := [-3; -2; -1; 1; 2; 3].

Definition path_at (files : list string) (idx : Z) : option string :=
  if (0 <=? idx) && (idx <? Z.of_nat (length files))
  then files !! Z.to_nat idx else None.

Definition preserved_paths (self : t) : gset string :=
  match current_image_index self with
  | Some cur =>
      if 0 <=? cur then
        match image_files self with
        | Some files =>
            if (0 <=? cur) && (cur <? Z.of_nat (length files)) then
              list_to_set
                (omap (path_at files)
                      (cur :: map (fun offset => cur + offset) neighbour_offsets))
            else ∅
        | None => ∅
        end
      else ∅
  | None => ∅
  end.

(** The cached paths outside the preserved set, oldest first. *)
Definition unpinned_keys (self : t) : list string :=
  filter (fun k => k ∉ preserved_paths self) (OrderedDict.keys (cache self)).

(** The selection loop over [list(self.cache.keys())]: returns
    [items_to_remove] and the final [items_removed]. *)
Fixpoint select_items_to_remove (preserved : gset string) (count : Z)
    (items_removed : Z) (ks : list string) : list string * Z :=
  match ks with
  | [] => ([], items_removed)
  | key :: ks' =>
      if items_removed >=? count then ([], items_removed)
      else if decide (key ∈ preserved)
           then select_items_to_remove preserved count items_removed ks'
           else
             let '(rest, n) :=
               select_items_to_remove preserved count (items_removed + 1) ks' in
             (key :: rest, n)
  end.

(** [_remove_oldest_items_from_cache]: the new loader and the number of
    items removed. *)
Definition _remove_oldest_items_from_cache (count : Z) (self : t) : t * Z :=
  match cache self with
  | [] => (self, 0)
  | _ :: _ =>
      if count <=? 0 then (self, 0)
      else
        let '(items_to_remove, items_removed) :=
          select_items_to_remove (preserved_paths self) count 0
                                 (OrderedDict.keys (cache self)) in
        (set_cache (foldl (fun c key => OrderedDict.delitem key c)
                          (cache self) items_to_remove) self,
         items_removed)
  end.

(** [check_cache_health]; [memory_percent = None] stands for a failing
    [psutil] call, which the enclosing [try] swallows. *)
Definition check_cache_health (memory_percent : option Q) (current_time : Q)
    (self : t) : t :=
  match memory_percent with
  | None => self
  | Some memory_percent =>
      let elapsed := (current_time - last_cache_adjustment self)%Q in
      let shrink (fraction : float) :=
        let reduction :=
          Z.max 1 (int_of_product (OrderedDict.len (cache self)) fraction) in
        set_last_cache_adjustment current_time
          (_remove_oldest_items_from_cache reduction self).1 in
      if Qgtb memory_percent 95 && Qgtb elapsed 5 then shrink 0.5%float
      else if Qgtb memory_percent 90 && Qgtb elapsed 10 then shrink 0.3%float
      else if Qgtb memory_percent 85 && Qgtb elapsed 30 then shrink 0.15%float
      else self
  end.

End ImageLoader.

(** ** concurrent.futures: the part of [ThreadPoolExecutor] the program uses *)

(** A submitted callable with its arguments: [(fn, args, kwargs)]. *)
Record Task : Type := mkTask {
  fn : string;
  args : list string;
  kwargs : list (string * string)
}.

Inductive FutureState : Type := PENDING | RUNNING | CANCELLED | FINISHED.

Module ThreadPoolExecutor.

(** Futures are named by the order of their creation.  [futures] is the
    store shared by everyone who holds a [Future]; [work_queue] holds the
    work items no worker thread has picked up yet. *)
Record t : Type := mk {
  futures : gmap nat FutureState;
  work_queue : list (nat * Task);
  next_future : nat;
  _shutdown : bool
}.

Definition __init__ : t :=
  {| futures := ∅; work_queue := []; next_future := 0%nat; _shutdown := false |}.

(** [submit(fn, *args, **kwargs)]: the new future, or [None] for the
    [RuntimeError] raised after [shutdown]. *)
Definition submit (task : Task) (self : t) : option (nat * t) :=
  if _shutdown self then None
  else
    let f := next_future self in
    Some (f, {| futures := <[f := PENDING]> (futures self);
                work_queue := work_queue self ++ [(f, task)];
                next_future := S f;
                _shutdown := false |}).

(** [Future.cancel()]: succeeds unless the future is running or done. *)
Definition cancel (f : nat) (self : t) : bool * t :=
  match futures self !! f with
  | Some PENDING | Some CANCELLED =>
      (true, mk (<[f := CANCELLED]> (futures self)) (work_queue self)
                (next_future self) (_shutdown self))
  | Some RUNNING | Some FINISHED | None => (false, self)
  end.

Definition cancel_each (fs : list nat) (self : t) : t :=
  foldl (fun p f => (cancel f p).2) self fs.

(** A worker thread takes the next work item; a cancelled one is dropped
    ([set_running_or_notify_cancel]). *)
Definition worker_take (self : t) : t :=
  match work_queue self with
  | [] => self
  | (f, _) :: q =>
      match futures self !! f with
      | Some PENDING =>
          mk (<[f := RUNNING]> (futures self)) q (next_future self) (_shutdown self)
      | _ => mk (futures self) q (next_future self) (_shutdown self)
      end
  end.

(** A running work item returns (or raises): its future is done. *)
Definition worker_finish (f : nat) (self : t) : t :=
  match futures self !! f with
  | Some RUNNING =>
      mk (<[f := FINISHED]> (futures self)) (work_queue self)
         (next_future self) (_shutdown self)
  | _ => self
  end.

(** [shutdown(wait, cancel_futures)]: no new work is accepted; with
    [cancel_futures] the queued work items are cancelled and dropped; with
    [wait] the call returns when the worker threads have ended, that is when
    the items still queued or running are done. *)
Definition shutdown (wait cancel_futures : bool) (self : t) : t :=
  let s1 :=
    if cancel_futures
    then let p := cancel_each (work_queue self).*1 self in
         mk (futures p) [] (next_future p) true
    else mk (futures self) (work_queue self) (next_future self) true in
  if wait
  then mk ((fun st => match st with
                      | PENDING | RUNNING => FINISHED
                      | _ => st
                      end) <$> futures s1)
          [] (next_future s1) true
  else s1.

End ThreadPoolExecutor.

(** ** PriorityThreadPoolExecutor *)

Module PriorityThreadPoolExecutor.

(** [task_queues] is a dictionary with the three keys ['high'], ['medium']
    and ['low'], fixed by [__init__]; [base] is the state of the
    [ThreadPoolExecutor] superclass.  [processor_alive] records that the
    queue-processor thread has not been ended by an uncaught exception. *)
Record t : Type := mk {
  base : ThreadPoolExecutor.t;
  high : list Task;
  medium : list Task;
  low : list Task;
  shutdown_flag : bool;
  processor_alive : bool
}.

Definition __init__ : t :=
  {| base := ThreadPoolExecutor.__init__;
     high := []; medium := []; low := [];
     shutdown_flag := false; processor_alive := true |}.

(** [priority in self.task_queues] *)
Definition known_priority (priority : string) : bool :=
  bool_decide (priority ∈ ["high"; "medium"; "low"]%string).

(** [submit_with_priority]: returns nothing. *)
Definition submit_with_priority (priority : string) (task : Task) (self : t) : t :=
  let priority := if known_priority priority then priority else "low"%string in
  if decide (priority = "high"%string) then
    mk (base self) (high self ++ [task]) (medium self) (low self)
       (shutdown_flag self) (processor_alive self)
  else if decide (priority = "medium"%string) then
    mk (base self) (high self) (medium self ++ [task]) (low self)
       (shutdown_flag self) (processor_alive self)
  else
    mk (base self) (high self) (medium self) (low self ++ [task])
       (shutdown_flag self) (processor_alive self).

(** [super().submit(task[0], *task[1], **task[2])] inside the loop: the
    returned future is dropped; a [RuntimeError] is not caught there and
    ends the thread. *)
Definition hand_over (task : Task) (h m l : list Task) (self : t) : t :=
  match ThreadPoolExecutor.submit task (base self) with
  | Some (_, b) => mk b h m l (shutdown_flag self) (processor_alive self)
  | None => mk (base self) h m l (shutdown_flag self) false
  end.

(** One pass through the body of the [while] loop of
    [_process_priority_queues]: [get_nowait] on the high queue, else on
    the medium queue, else on the low queue, else [time.sleep(0.05)]. *)
Definition process_iteration (self : t) : t :=
  match high self with
  | task :: h => hand_over task h (medium self) (low self) self
  | [] =>
      match medium self with
      | task :: m => hand_over task [] m (low self) self
      | [] =>
          match low self with
          | task :: l => hand_over task [] [] l self
          | [] => self
          end
      end
  end.

(** [_process_priority_queues], cut off after [n] passes:
    [while not self.shutdown_flag: ...]. *)
Fixpoint _process_priority_queues (n : nat) (self : t) : t :=
  match n with
  | O => self
  | S n' =>
      if shutdown_flag self || negb (processor_alive self) then self
      else _process_priority_queues n' (process_iteration self)
  end.

(** [shutdown(wait, cancel_futures)] *)
Definition shutdown (wait cancel_futures : bool) (self : t) : t :=
  mk (ThreadPoolExecutor.shutdown wait cancel_futures (base self))
     (high self) (medium self) (low self) true (processor_alive self).

(** The tasks handed to the underlying pool and not yet taken by one of
    its threads, oldest first. *)
Definition handed_over (self : t) : list Task :=
  (ThreadPoolExecutor.work_queue (base self)).*2.

(** Everything still queued, in the order the loop will take it when
    nothing else is submitted. *)
Definition queued (self : t) : list Task := high self ++ medium self ++ low self.

(** The executor has not been shut down and its loop is running. *)
Definition live (self : t) : Prop :=
  shutdown_flag self = false ∧ processor_alive self = true
  ∧ ThreadPoolExecutor._shutdown (base self) = false.

End PriorityThreadPoolExecutor.

(** ** The RAW decoder process *)

(** An exception, as far as the worker looks at it: [str(e)]. *)
Record PyException : Type := mkException {
  exc_class : string;
  exc_str : string
}.

(** The array returned by [raw.postprocess]. *)
Record NdArray : Type := mkNdArray {
  nd_dtype : string;
  nd_shape : list Z;
  nd_bytes : string
}.

(** What [rawpy] does with a file: [imread] raises, or [postprocess] raises,
    or [postprocess] returns an array. *)
Inductive RawpyOutcome : Type :=
  | ImreadRaises (e : PyException)
  | PostprocessRaises (e : PyException)
  | Postprocessed (rgb : NdArray).

(** The result dictionary put on the output queue; an absent key is [None]. *)
Record DecodeResult : Type := mkResult {
  task_id : Z;
  file_path : string;
  success : bool;
  width : option Z;
  height : option Z;
  data : option string;
  shape : option (list Z);
  dtype : option string;
  error : option string
}.

(** [str] of a tuple of integers. *)
Definition str_of_shape (shape : list Z) : string :=
  match shape with
  | [] => "()"
  | [n] => "(" +:+ pretty n +:+ ",)"
  | n :: rest =>
      "(" +:+ foldl (fun acc m => acc +:+ ", " +:+ pretty m) (pretty n) rest +:+ ")"
  end.

Module RawDecoder.

(** The two queues a worker shares with the pool, and the locals of
    [decode_raw_in_process].  A request is [Some (file_path, task_id)],
    the end signal is [None]. *)
Record t : Type := mk {
  input_queue : list (option (string * Z));
  output_queue : list DecodeResult;
  memory_warning_shown : bool;
  last_memory_log_time : Q;
  exited : bool
}.

Definition memory_log_cooldown : Q := 60.

(** The failure dictionary of the [except Exception as e] branch. *)
Definition failure (task_id : Z) (file_path : string) (e : PyException)
  : DecodeResult :=
  {| task_id := task_id; file_path := file_path; success := false;
     width := None; height := None; data := None; shape := None;
     dtype := None; error := Some (exc_str e) |}.

Definition index_error : PyException :=
  mkException "IndexError" "tuple index out of range".

(** The body of [with rawpy.imread(file_path) as raw: ...] together with
    its [except Exception as e] handler: the dictionary that is put on
    the output queue. *)
Definition decode (rawpy : string -> RawpyOutcome) (file_path : string)
    (task_id : Z) : DecodeResult :=
  match rawpy file_path with
  | ImreadRaises e => failure task_id file_path e
  | PostprocessRaises e => failure task_id file_path e
  | Postprocessed rgb =>
      match nd_shape rgb !! 1%nat, nd_shape rgb !! 0%nat with
      | Some w, Some h =>
          if bool_decide (nd_dtype rgb = "uint8"%string)
             && bool_decide (length (nd_shape rgb) = 3%nat)
          then
            {| task_id := task_id; file_path := file_path; success := true;
               width := Some w; height := Some h;
               data := Some (nd_bytes rgb); shape := Some (nd_shape rgb);
               dtype := Some (nd_dtype rgb); error := None |}
          else
            {| task_id := task_id; file_path := file_path; success := false;
               width := Some w; height := Some h;
               data := None; shape := None; dtype := None;
               error := Some ("Unexpected data format: " +:+ nd_dtype rgb
                              +:+ ", shape=" +:+ str_of_shape (nd_shape rgb)) |}
      | _, _ => failure task_id file_path index_error
      end
  end.

(** One pass through the [while True] loop of [decode_raw_in_process].
    [memory_percent = None] stands for a failing [psutil] call.  With an
    empty input queue [input_queue.get()] blocks: nothing happens. *)
Definition iteration (rawpy : string -> RawpyOutcome)
    (memory_percent : option Q) (current_time : Q) (self : t) : t :=
  if exited self then self
  else
    match input_queue self with
    | [] => self
    | None :: q =>
        mk q (output_queue self) (memory_warning_shown self)
           (last_memory_log_time self) true
    | Some (file_path, task_id) :: q =>
        let '(shown, last, postpone) :=
          match memory_percent with
          | None => (memory_warning_shown self, last_memory_log_time self, false)
          | Some memory_percent =>
              let '(shown, last) :=
                if Qgtb memory_percent 85
                   && negb (memory_warning_shown self)
                   && Qgtb (current_time - last_memory_log_time self)%Q
                           memory_log_cooldown
                then (true, current_time)
                else if Qle_bool memory_percent 75
                     then (false, last_memory_log_time self)
                     else (memory_warning_shown self, last_memory_log_time self) in
              (shown, last, Qgtb memory_percent 95)
          end in
        if postpone
        then mk (q ++ [Some (file_path, task_id)]) (output_queue self)
                shown last false
        else mk q (output_queue self ++ [decode rawpy file_path task_id])
                shown last false
    end.

End RawDecoder.

(** ** RawDecoderPool *)

(** A callback registered with [decode_raw]: a name, and whether calling
    it with a given result raises. *)
Record Callback : Type := mkCallback {
  cb_name : string;
  cb_raises : DecodeResult -> bool
}.

(** A worker process, as [shutdown] sees it: whether it has exited by the
    time [join(0.5)] returns. *)
Record Process : Type := mkProcess {
  pid : Z;
  exits_in_time : bool
}.

Inductive ProcessEvent : Type :=
  | Joined (pid : Z)
  | Terminated (pid : Z).

Module RawDecoderPool.

(** The attributes of the pool, and two records of what it has done:
    [called] lists the callback invocations of [process_results], oldest
    first; [process_log] lists the [join] and [terminate] calls. *)
Record t : Type := mk {
  input_queue : list (option (string * Z));
  output_queue : list DecodeResult;
  processes : list Process;
  next_task_id : Z;
  tasks : gmap Z Callback;
  _running : bool;
  called : list (Z * string);
  process_log : list ProcessEvent
}.

Definition __init__ (workers : list Process) : t :=
  {| input_queue := []; output_queue := []; processes := workers;
     next_task_id := 0; tasks := ∅; _running := true;
     called := []; process_log := [] |}.

(** [decode_raw]: the task id, or [None] on a pool that is shut down. *)
Definition decode_raw (file_path : string) (callback : Callback) (self : t)
  : option Z * t :=
  if negb (_running self) then (None, self)
  else
    let task_id := next_task_id self in
    (Some task_id,
     mk (input_queue self ++ [Some (file_path, task_id)]) (output_queue self)
        (processes self) (task_id + 1) (<[task_id := callback]> (tasks self))
        true (called self) (process_log self)).

(** The [while processed < max_results] loop of [process_results].  Every
    pass that does not leave the loop takes one result off the output
    queue, so the recursion is on that queue. *)
Fixpoint process_loop (max_results processed : Z) (out : list DecodeResult)
    (tasks : gmap Z Callback) (called : list (Z * string))
  : Z * list DecodeResult * gmap Z Callback * list (Z * string) :=
  if processed <? max_results then
    match out with
    | [] => (processed, out, tasks, called)
    | result :: out' =>
        match tasks !! task_id result with
        | Some callback =>
            let tasks' := delete (task_id result) tasks in
            let called' := called ++ [(task_id result, cb_name callback)] in
            if cb_raises callback result
            then (processed, out', tasks', called')
            else process_loop max_results (processed + 1) out' tasks' called'
        | None =>
            process_loop max_results (processed + 1) out' tasks called
        end
    end
  else (processed, out, tasks, called).

(** [process_results]: the number of results processed. *)
Definition process_results (max_results : Z) (self : t) : Z * t :=
  if negb (_running self) then (0, self)
  else
    let '(processed, out, tasks', called') :=
      process_loop max_results 0 (output_queue self) (tasks self) (called self) in
    (processed,
     mk (input_queue self) out (processes self) (next_task_id self)
        tasks' true called' (process_log self)).

(** [p.join(0.5)], then [p.terminate()] if the process is still alive. *)
Definition join_or_terminate (p : Process) : list ProcessEvent :=
  if exits_in_time p then [Joined (pid p)]
  else [Joined (pid p); Terminated (pid p)].

(** [shutdown] *)
Definition shutdown (self : t) : t :=
  if negb (_running self) then self
  else
    mk (input_queue self ++ map (fun _ => None) (processes self))
       (output_queue self) [] (next_task_id self) ∅ false (called self)
       (process_log self ++ concat (map join_or_terminate (processes self))).

End RawDecoderPool.

(** ** ResourceManager *)

(** What a submit entry point does: return [None], return a future, or let
    the [RuntimeError] of a pool that is shut down escape. *)
Inductive Submitted : Type :=
  | ReturnsNone
  | ReturnsFuture (f : nat)
  | RaisesRuntimeError.

Module ResourceManager.

(** [active_tasks] is a set of futures; [pending_tasks] maps a priority to
    a list of futures and starts as the empty dictionary. *)
Record t : Type := mk {
  imaging_thread_pool : PriorityThreadPoolExecutor.t;
  raw_decoder_pool : RawDecoderPool.t;
  active_tasks : gset nat;
  pending_tasks : gmap string (list nat);
  _running : bool
}.

Definition __init__ (workers : list Process) : t :=
  {| imaging_thread_pool := PriorityThreadPoolExecutor.__init__;
     raw_decoder_pool := RawDecoderPool.__init__ workers;
     active_tasks := ∅;
     pending_tasks := ∅;
     _running := true |}.

Definition set_pool (p : PriorityThreadPoolExecutor.t) (self : t) : t :=
  mk p (raw_decoder_pool self) (active_tasks self) (pending_tasks self)
     (_running self).

Definition set_base (b : ThreadPoolExecutor.t) (self : t) : t :=
  let p := imaging_thread_pool self in
  set_pool (PriorityThreadPoolExecutor.mk b
              (PriorityThreadPoolExecutor.high p)
              (PriorityThreadPoolExecutor.medium p)
              (PriorityThreadPoolExecutor.low p)
              (PriorityThreadPoolExecutor.shutdown_flag p)
              (PriorityThreadPoolExecutor.processor_alive p)) self.

Definition futures (self : t) : gmap nat FutureState :=
  ThreadPoolExecutor.futures
    (PriorityThreadPoolExecutor.base (imaging_thread_pool self)).

(** [future.cancel()] on a future of the imaging pool.  A future that
    becomes cancelled runs its done-callback; the only done-callback the
    manager registers is [active_tasks.discard]. *)
Definition cancel_future (f : nat) (self : t) : t :=
  let b := PriorityThreadPoolExecutor.base (imaging_thread_pool self) in
  let '(_, b') := ThreadPoolExecutor.cancel f b in
  let s := set_base b' self in
  match ThreadPoolExecutor.futures b !! f with
  | Some PENDING =>
      mk (imaging_thread_pool s) (raw_decoder_pool s)
         (active_tasks s ∖ {[f]}) (pending_tasks s) (_running s)
  | _ => s
  end.

Definition cancel_futures (fs : list nat) (self : t) : t :=
  foldl (fun s f => cancel_future f s) self fs.

(** [cancel_low_priority_tasks] *)
Definition cancel_low_priority_tasks (self : t) : t :=
  let s1 :=
    match pending_tasks self !! "low"%string with
    | Some tasks =>
        let s := cancel_futures tasks self in
        mk (imaging_thread_pool s) (raw_decoder_pool s) (active_tasks s)
           (<["low"%string := []]> (pending_tasks s)) (_running s)
    | None => self
    end in
  match pending_tasks s1 !! "medium"%string with
  | Some tasks =>
      if Z.of_nat (length tasks) >? 4 then
        let keep := Z.to_nat (Z.of_nat (length tasks) / 2) in
        let to_cancel := drop keep tasks in
        let s := mk (imaging_thread_pool s1) (raw_decoder_pool s1)
                    (active_tasks s1)
                    (<["medium"%string := take keep tasks]> (pending_tasks s1))
                    (_running s1) in
        cancel_futures to_cancel s
      else s1
  | None => s1
  end.

(** [monitor_resources]; [memory_percent = None] stands for a failing
    [psutil] call. *)
Definition monitor_resources (memory_percent : option Q) (self : t) : t :=
  if negb (_running self) then self
  else
    match memory_percent with
    | None => self
    | Some memory_percent =>
        if Qgtb memory_percent 95 then cancel_low_priority_tasks self
        else self
    end.

(** [submit_imaging_task_with_priority]: no [return] statement hands
    anything back. *)
Definition submit_imaging_task_with_priority (priority : string) (task : Task)
    (self : t) : Submitted * t :=
  if negb (_running self) then (ReturnsNone, self)
  else
    (ReturnsNone,
     set_pool (PriorityThreadPoolExecutor.submit_with_priority priority task
                 (imaging_thread_pool self)) self).

(** [submit_imaging_task] *)
Definition submit_imaging_task (task : Task) (self : t) : Submitted * t :=
  if negb (_running self) then (ReturnsNone, self)
  else
    match ThreadPoolExecutor.submit task
            (PriorityThreadPoolExecutor.base (imaging_thread_pool self)) with
    | Some (f, b) =>
        let s := set_base b self in
        (ReturnsFuture f,
         mk (imaging_thread_pool s) (raw_decoder_pool s)
            (active_tasks s ∪ {[f]}) (pending_tasks s) (_running s))
    | None => (RaisesRuntimeError, self)
    end.

(** [submit_raw_decoding] *)
Definition submit_raw_decoding (file_path : string) (callback : Callback)
    (self : t) : option Z * t :=
  if negb (_running self) then (None, self)
  else
    let '(task_id, pool) :=
      RawDecoderPool.decode_raw file_path callback (raw_decoder_pool self) in
    (task_id,
     mk (imaging_thread_pool self) pool (active_tasks self)
        (pending_tasks self) (_running self)).

(** [process_raw_results] *)
Definition process_raw_results (max_results : Z) (self : t) : Z * t :=
  if negb (_running self) then (0, self)
  else
    let '(processed, pool) :=
      RawDecoderPool.process_results max_results (raw_decoder_pool self) in
    (processed,
     mk (imaging_thread_pool self) pool (active_tasks self)
        (pending_tasks self) (_running self)).

(** [cancel_all_tasks]: cancel the futures of [active_tasks] and clear the
    set; empty both queues of the decoder pool and clear its callback
    map. *)
Definition cancel_all_tasks (self : t) : t :=
  let s := cancel_futures (elements (active_tasks self)) self in
  let pool := raw_decoder_pool s in
  mk (imaging_thread_pool s)
     (RawDecoderPool.mk [] [] (RawDecoderPool.processes pool)
        (RawDecoderPool.next_task_id pool) ∅ (RawDecoderPool._running pool)
        (RawDecoderPool.called pool) (RawDecoderPool.process_log pool))
     ∅ (pending_tasks s) (_running s).

(** [shutdown] *)
Definition shutdown (self : t) : t :=
  if negb (_running self) then self
  else
    let s := cancel_all_tasks
               (mk (imaging_thread_pool self) (raw_decoder_pool self)
                   (active_tasks self) (pending_tasks self) false) in
    mk (PriorityThreadPoolExecutor.shutdown true true (imaging_thread_pool s))
       (RawDecoderPool.shutdown (raw_decoder_pool s))
       (active_tasks s) (pending_tasks s) false.

(** What happens around the manager, on its own threads: the queue
    processor makes a pass, a pool thread takes a work item, a running
    work item ends (its done-callback discards it from [active_tasks]). *)
Definition dispatcher_pass (self : t) : t :=
  set_pool (PriorityThreadPoolExecutor._process_priority_queues 1
              (imaging_thread_pool self)) self.

Definition worker_take (self : t) : t :=
  set_base (ThreadPoolExecutor.worker_take
              (PriorityThreadPoolExecutor.base (imaging_thread_pool self))) self.

Definition worker_finish (f : nat) (self : t) : t :=
  let b := PriorityThreadPoolExecutor.base (imaging_thread_pool self) in
  let s := set_base (ThreadPoolExecutor.worker_finish f b) self in
  match ThreadPoolExecutor.futures b !! f with
  | Some RUNNING =>
      mk (imaging_thread_pool s) (raw_decoder_pool s)
         (active_tasks s ∖ {[f]}) (pending_tasks s) (_running s)
  | _ => s
  end.

End ResourceManager.

(** ** PhotoSortApp: what the decode callback does to the cache *)

Module PhotoSortApp.

(** [_on_raw_decoded_for_display], restricted to the loader's cache.
    [relevant] is the outcome of the test that the result still belongs to
    the displayed image; [fromImage] stands for
    [QPixmap.fromImage(QImage(data, width, height, ...))].  Every [raise]
    inside the success branch is caught by its own [except], which does not
    touch the cache. *)
Definition _on_raw_decoded_for_display (fromImage : DecodeResult -> QPixmap)
    (relevant : bool) (result : DecodeResult) (loader : ImageLoader.t)
  : ImageLoader.t :=
  if negb relevant then loader
  else if success result then
    match data result, shape result with
    | Some data_bytes, Some [_; _; _] =>
        if bool_decide (data_bytes = ""%string) then loader
        else
          let pixmap := fromImage result in
          if isNull pixmap then loader
          else ImageLoader._add_to_cache (file_path result) (Some pixmap) loader
    | _, _ => loader
    end
  else loader.

End PhotoSortApp.

(** ** Runs: sequences of calls *)

(** The loader after each of a sequence of [_add_to_cache] calls. *)
Fixpoint insertions (calls : list (string * option QPixmap)) (s : ImageLoader.t)
  : list ImageLoader.t :=
  match calls with
  | [] => []
  | (file_path, pixmap) :: calls' =>
      let s' := ImageLoader._add_to_cache file_path pixmap s in
      s' :: insertions calls' s'
  end.

(** The loader after a sequence of [_add_to_cache] calls with valid pixmaps. *)
Definition insert_all (pixmap_of : string → QPixmap) (paths : list string)
    (s : ImageLoader.t) : ImageLoader.t :=
  foldl (fun s p => ImageLoader._add_to_cache p (Some (pixmap_of p)) s) s paths.

(** Submissions to the priority executor, in arrival order. *)
Definition submit_all (jobs : list (string * Task))
    (p : PriorityThreadPoolExecutor.t) : PriorityThreadPoolExecutor.t :=
  foldl (fun p job => PriorityThreadPoolExecutor.submit_with_priority job.1 job.2 p)
        p jobs.

(** The tier a priority lands in, and the tasks of a batch of submissions
    that land in a given tier, in arrival order. *)
Definition tier_of (priority : string) : string :=
  if PriorityThreadPoolExecutor.known_priority priority then priority else "low"%string.

Definition tier (name : string) (jobs : list (string * Task)) : list Task :=
  (filter (fun job => tier_of job.1 = name) jobs).*2.

(** What can happen to a decoder pool, one step at a time: the owner calls
    [decode_raw], [process_results] or [shutdown]; [cancel_all_tasks] of the
    manager empties its queues and its callback map; a worker process makes
    one pass of its loop on the shared queues; or the queues change in any
    other way whatsoever. *)
Inductive PoolStep : Type :=
  | DecodeRaw (file_path : string) (callback : Callback)
  | ProcessResults (max_results : Z)
  | Shutdown
  | CancelAll
  | WorkerPass (rawpy : string → RawpyOutcome) (memory_percent : option Q)
               (current_time : Q)
  | QueuesBecome (input_queue : list (option (string * Z)))
                 (output_queue : list DecodeResult).

Definition with_queues (inq : list (option (string * Z)))
    (outq : list DecodeResult) (self : RawDecoderPool.t) : RawDecoderPool.t :=
  RawDecoderPool.mk inq outq (RawDecoderPool.processes self)
    (RawDecoderPool.next_task_id self) (RawDecoderPool.tasks self)
    (RawDecoderPool._running self) (RawDecoderPool.called self)
    (RawDecoderPool.process_log self).

(** One step: the new pool and the task id the step returned, if any. *)
Definition pool_step (step : PoolStep) (self : RawDecoderPool.t)
  : option Z * RawDecoderPool.t :=
  match step with
  | DecodeRaw file_path callback =>
      RawDecoderPool.decode_raw file_path callback self
  | ProcessResults max_results =>
      (None, (RawDecoderPool.process_results max_results self).2)
  | Shutdown => (None, RawDecoderPool.shutdown self)
  | CancelAll =>
      (None,
       RawDecoderPool.mk [] [] (RawDecoderPool.processes self)
         (RawDecoderPool.next_task_id self) ∅ (RawDecoderPool._running self)
         (RawDecoderPool.called self) (RawDecoderPool.process_log self))
  | WorkerPass rawpy memory_percent current_time =>
      let w := RawDecoder.iteration rawpy memory_percent current_time
                 (RawDecoder.mk (RawDecoderPool.input_queue self)
                    (RawDecoderPool.output_queue self) false 0 false) in
      (None, with_queues (RawDecoder.input_queue w) (RawDecoder.output_queue w) self)
  | QueuesBecome inq outq => (None, with_queues inq outq self)
  end.

(** A run: the final pool and the task ids returned, oldest first. *)
Fixpoint pool_run (steps : list PoolStep) (self : RawDecoderPool.t)
  : list Z * RawDecoderPool.t :=
  match steps with
  | [] => ([], self)
  | step :: steps' =>
      let '(returned, s1) := pool_step step self in
      let '(ids, s2) := pool_run steps' s1 in
      (match returned with Some id => id :: ids | None => ids end, s2)
  end.

(** What can happen to a running manager, short of [shutdown]. *)
Inductive ManagerStep : Type :=
  | SubmitImagingTask (task : Task)
  | SubmitImagingTaskWithPriority (priority : string) (task : Task)
  | SubmitRawDecoding (file_path : string) (callback : Callback)
  | ProcessRawResults (max_results : Z)
  | MonitorResources (memory_percent : option Q)
  | CancelAllTasks
  | DispatcherPass
  | WorkerTake
  | WorkerFinish (f : nat).

Definition manager_step (step : ManagerStep) (self : ResourceManager.t)
  : ResourceManager.t :=
  match step with
  | SubmitImagingTask task => (ResourceManager.submit_imaging_task task self).2
  | SubmitImagingTaskWithPriority priority task =>
      (ResourceManager.submit_imaging_task_with_priority priority task self).2
  | SubmitRawDecoding file_path callback =>
      (ResourceManager.submit_raw_decoding file_path callback self).2
  | ProcessRawResults max_results =>
      (ResourceManager.process_raw_results max_results self).2
  | MonitorResources memory_percent =>
      ResourceManager.monitor_resources memory_percent self
  | CancelAllTasks => ResourceManager.cancel_all_tasks self
  | DispatcherPass => ResourceManager.dispatcher_pass self
  | WorkerTake => ResourceManager.worker_take self
  | WorkerFinish f => ResourceManager.worker_finish f self
  end.

(** The future a dispatcher pass creates for a task taken off a priority
    queue, if the pass creates one. *)
Definition dispatched_future (self : ResourceManager.t) : option nat :=
  let b := PriorityThreadPoolExecutor.base (ResourceManager.imaging_thread_pool self) in
  let b' := PriorityThreadPoolExecutor.base
              (ResourceManager.imaging_thread_pool
                 (ResourceManager.dispatcher_pass self)) in
  if decide (ThreadPoolExecutor.next_future b' = ThreadPoolExecutor.next_future b)
  then None else Some (ThreadPoolExecutor.next_future b).

(** A run of the manager: the final state and the futures that belong to
    priority-submitted tasks. *)
Fixpoint manager_run (steps : list ManagerStep) (self : ResourceManager.t)
    (by_priority : gset nat) : ResourceManager.t * gset nat :=
  match steps with
  | [] => (self, by_priority)
  | step :: steps' =>
      let by_priority' :=
        match step with
        | DispatcherPass =>
            match dispatched_future self with
            | Some f => by_priority ∪ {[f]}
            | None => by_priority
            end
        | _ => by_priority
        end in
      manager_run steps' (manager_step step self) by_priority'
  end.

(** What the pending-callback map and the record of invocations satisfy at
    all times, [N] being [next_task_id]: registered ids and invoked ids are
    below [N], no id has been invoked twice, and an invoked id is no longer
    registered. *)
Definition pending_inv (N : Z) (tasks : gmap Z Callback)
    (called : list (Z * string)) : Prop :=
  (∀ id cb, tasks !! id = Some cb → id < N)
  ∧ (∀ id, id ∈ called.*1 → id < N ∧ tasks !! id = None)
  ∧ NoDup called.*1.

(** What holds of a manager that has not been shut down, [by_priority]
    being the futures made by the queue processor: nothing is recorded in
    [pending_tasks]; the futures of [active_tasks] exist; the futures of
    priority-submitted tasks exist, are not in [active_tasks], and are not
    cancelled. *)
Definition manager_inv (s : ResourceManager.t) (by_priority : gset nat) : Prop :=
  let next :=
    ThreadPoolExecutor.next_future
      (PriorityThreadPoolExecutor.base (ResourceManager.imaging_thread_pool s)) in
  ResourceManager.pending_tasks s = ∅
  ∧ (∀ f, f ∈ ResourceManager.active_tasks s → (f < next)%nat)
  ∧ (∀ f, f ∈ by_priority →
          (f < next)%nat
          ∧ (f ∉ ResourceManager.active_tasks s)
          ∧ (ResourceManager.futures s !! f ≠ Some CANCELLED)).

(** ** Concrete loaders and paths *)

Definition sample_pixmap : QPixmap := mkQPixmap false 640 480.

Definition scenario_A_paths : list string :=
  ["p1"; "p2"; "p3"; "p4"; "p5"; "p6"; "p7"; "p8"; "p9"; "p10"; "p11"]%string.

Definition numbered_paths (n : nat) : list string :=
  map (fun i => "img" +:+ pretty (Z.of_nat i) +:+ ".jpg") (seq 0 n).

Definition cache_of (paths : list string) : OrderedDict.t QPixmap :=
  map (fun p => (p, sample_pixmap)) paths.

(** A loader as [__init__] leaves it (no [current_image_index], no
    [image_files]) whose cache holds the given paths. *)
Definition loader_holding (limit : Z) (paths : list string) : ImageLoader.t :=
  ImageLoader.mk 8 limit (cache_of paths) 0 None None.

(** A loader that carries the two attributes and whose two cached paths
    are the displayed image and its neighbour. *)
Definition loader_showing_all : ImageLoader.t :=
  ImageLoader.mk 4 10 (cache_of ["p1"; "p2"]%string) 0
    (Some 0) (Some ["p1"; "p2"]%string).

(** A full cache of limit 10 on a loader that carries the two attributes,
    the displayed image being the oldest entry. *)
Definition full_loader_showing_p1 : ImageLoader.t :=
  ImageLoader.mk 4 10 (cache_of (take 10 scenario_A_paths)) 0
    (Some 0) (Some scenario_A_paths).

(** ** Concrete tasks *)

Definition load_task (path : string) : Task := mkTask "_preload_image" [path] [].

(** ** Concrete callbacks, results and decoders *)

Definition cbA : Callback := mkCallback "cbA" (fun _ => false).
Definition cbB : Callback := mkCallback "cbB" (fun _ => false).

Definition unsupported_file : PyException :=
  mkException "LibRawFileUnsupportedError" "Unsupported file format or not RAW file".

(** A [rawpy] for which ["a.cr2"] and ["b.nef"] decode to a 2x2 image and
    every other file is unsupported. *)
Definition sample_rawpy (file_path : string) : RawpyOutcome :=
  if bool_decide (file_path ∈ ["a.cr2"; "b.nef"]%string)
  then Postprocessed (mkNdArray "uint8" [2; 2; 3] "000000000000")
  else ImreadRaises unsupported_file.

(** The result a worker that lost its request to [cancel_all_tasks] still
    delivers. *)
Definition orphan_result : DecodeResult :=
  RawDecoder.decode sample_rawpy "a.cr2" 7.

Definition two_workers : list Process := [mkProcess 101 true; mkProcess 102 false].

(** ** Cancellation of one future, and concrete managers *)

(** [Future.cancel()], as a map on the state of one future. *)
Definition after_cancel (st : option FutureState) : option FutureState :=
  match st with
  | Some PENDING => Some CANCELLED
  | _ => st
  end.

(** * More of the program *)

(** ** Sizing the pools *)

(** [ResourceManager.calculate_optimal_threads] *)
Definition calculate_optimal_threads (system_memory_gb : Q) (available_cores : Z) : Z :=
  if Qle_bool 24 system_memory_gb && (available_cores >=? 8) then 4
  else if Qle_bool 12 system_memory_gb && (available_cores >=? 6) then 3
  else 2.

(** [ResourceManager.calculate_optimal_raw_processes] *)
Definition calculate_optimal_raw_processes (system_memory_gb : Q)
    (available_cores : Z) : Z :=
  if Qle_bool 12 system_memory_gb
  then Z.min 2 (Z.max 1 (available_cores / 4))
  else 1.

(** The number of processes [RawDecoderPool.__init__] starts when it is
    given none. *)
Definition default_num_processes (available_cores : Z) : Z :=
  Z.min 2 (Z.max 1 (available_cores / 4)).

(** ** Navigation *)

(** The index part of [PhotoSortApp.show_next_image] and
    [show_previous_image]: [total] is [len(self.image_files)]; with no
    image both methods return at once. *)
Definition show_next_image (total : Z) (current_image_index : Z) : Z :=
  if total =? 0 then current_image_index
  else if current_image_index >=? total - 1 then 0
  else current_image_index + 1.

Definition show_previous_image (total : Z) (current_image_index : Z) : Z :=
  if total =? 0 then current_image_index
  else if current_image_index <=? 0 then total - 1
  else current_image_index - 1.

(** ** The prefetch planner *)

Module Preload.

(** One entry of [to_preload]: [(idx, direction, priority, offset)]. *)
Record Item : Type := mkItem {
  idx : Z;
  side : string;
  priority : string;
  offset : Z
}.

(** [(forward_preload_count, backward_preload_count,
    priority_close_threshold)] for a memory size. *)
Definition preload_counts (system_memory_gb : Q) : Z * Z * Z :=
  if Qle_bool 45 system_memory_gb then (12, 4, 5)
  else if Qle_bool 30 system_memory_gb then (9, 3, 4)
  else if Qle_bool 22 system_memory_gb then (7, 2, 3)
  else if Qle_bool 14 system_memory_gb then (5, 2, 2)
  else if Qle_bool 7 system_memory_gb then (4, 2, 2)
  else (3, 1, 1).

(** The direction of travel; [previous_image_index = None] when the
    attribute does not exist yet. *)
Definition direction (previous_image_index : option Z)
    (current_index total_images : Z) : Z :=
  match previous_image_index with
  | Some previous =>
      if negb (previous =? current_index) then
        if (previous <? current_index)
           || ((previous =? total_images - 1) && (current_index =? 0))
        then 1
        else if (previous >? current_index)
                || ((previous =? 0) && (current_index =? total_images - 1))
             then -1
             else 1
      else 1
  | None => 1
  end.

(** [cached_images]: the indices around the current one whose path is in
    the cache. *)
Definition index_cached (image_files : list string)
    (cache : OrderedDict.t QPixmap) (i : Z) : bool :=
  match image_files !! Z.to_nat i with
  | Some path => OrderedDict.contains path cache
  | None => false
  end.

Definition cached_images (image_files : list string)
    (cache : OrderedDict.t QPixmap) (current_index check_range : Z) : list Z :=
  let total_images := Z.of_nat (length image_files) in
  let first := Z.max 0 (current_index - check_range) in
  let last := Z.min total_images (current_index + check_range + 1) in
  filter (fun i => index_cached image_files cache i = true)
         (seqZ first (last - first)).

(** The priority of the image at a distance in the direction of travel,
    and against it. *)
Definition dominant_priority (offset threshold : Z) : string :=
  if offset <=? threshold then "high"
  else if offset <=? threshold * 2 then "medium" else "low".

Definition opposite_priority (offset threshold : Z) : string :=
  if offset <=? threshold then "medium" else "low".

(** [to_preload] *)
Definition to_preload (memory_gb : Q) (image_files : list string)
    (cache : OrderedDict.t QPixmap) (previous_image_index : option Z)
    (current_index : Z) : list Item :=
  let total_images := Z.of_nat (length image_files) in
  let '(forward_preload_count, backward_preload_count, threshold) :=
    preload_counts memory_gb in
  let check_range :=
    Z.max (Z.max forward_preload_count backward_preload_count) 3 + 5 in
  let cached := cached_images image_files cache current_index check_range in
  let ahead (offset : Z) := (current_index + offset) mod total_images in
  let behind (offset : Z) := (current_index - offset + total_images) mod total_images in
  let items (count : Z) (target : Z → Z) (label : string)
            (priority_of : Z → Z → string) :=
    omap (fun offset =>
            if decide (target offset ∈ cached) then None
            else Some (mkItem (target offset) label (priority_of offset threshold) offset))
         (seqZ 1 count) in
  if direction previous_image_index current_index total_images >=? 0 then
    items forward_preload_count ahead "forward" dominant_priority
    ++ items backward_preload_count behind "backward" opposite_priority
  else
    items forward_preload_count behind "backward" dominant_priority
    ++ items backward_preload_count ahead "forward" opposite_priority.

(** The submission loop: a path is requested at most once
    ([requested_images]).  The result lists the entries that lead to a
    submission, each with its path, oldest first. *)
Fixpoint requests (image_files : list string) (items : list Item)
    (requested_images : list string) : list (Item * string) :=
  match items with
  | [] => []
  | item :: items' =>
      match image_files !! Z.to_nat (idx item) with
      | Some img_path =>
          if decide (img_path ∈ requested_images)
          then requests image_files items' requested_images
          else (item, img_path)
               :: requests image_files items' (img_path :: requested_images)
      | None => []
      end
  end.

(** The part of [PhotoSortApp] the planner reads and writes. *)
Record t : Type := mk {
  image_files : list string;
  system_memory_gb : Q;
  previous_image_index : option Z;
  image_loader : ImageLoader.t;
  _raw_load_strategy : string;
  resource_manager : ResourceManager.t
}.

(** The callback a preload hands to [submit_raw_decoding]: the decode
    callback with the index of the preloaded image bound. *)
Definition preload_callback (req_idx : Z) : Callback :=
  mkCallback ("_on_raw_decoded_for_display:" +:+ pretty req_idx) (fun _ => false).

(** The body of the submission loop for one entry. *)
Definition submit_request (is_raw : string → bool) (strategy : string)
    (request : Item * string) (manager : ResourceManager.t) : ResourceManager.t :=
  let '(item, img_path) := request in
  if is_raw img_path && bool_decide (strategy = "decode"%string)
  then (ResourceManager.submit_raw_decoding img_path
          (preload_callback (idx item)) manager).2
  else (ResourceManager.submit_imaging_task_with_priority (priority item)
          (mkTask "_preload_image" [img_path] []) manager).2.

(** [preload_adjacent_images]; [is_raw] tells whether the suffix of a path
    is one of the RAW extensions. *)
Definition preload_adjacent_images (is_raw : string → bool)
    (current_index : Z) (self : t) : t :=
  match image_files self with
  | [] => self
  | _ :: _ =>
      let items :=
        to_preload (system_memory_gb self) (image_files self)
          (ImageLoader.cache (image_loader self)) (previous_image_index self)
          current_index in
      mk (image_files self) (system_memory_gb self) (Some current_index)
         (image_loader self) (_raw_load_strategy self)
         (foldl (fun manager request =>
                   submit_request is_raw (_raw_load_strategy self) request manager)
                (resource_manager self)
                (requests (image_files self) items []))
  end.

(** [load_image_async]: the load of the requested image at high priority,
    then the preloads.  (The method first cancels
    [self._current_loading_future], which is always [None]:
    [submit_imaging_task_with_priority] returns nothing.) *)
Definition load_image_async (is_raw : string → bool) (image_path : string)
    (requested_index : Z) (self : t) : t :=
  let manager :=
    (ResourceManager.submit_imaging_task_with_priority "high"
       (mkTask "_load_image_task" [image_path; pretty requested_index] [])
       (resource_manager self)).2 in
  preload_adjacent_images is_raw requested_index
    (mk (image_files self) (system_memory_gb self) (previous_image_index self)
        (image_loader self) (_raw_load_strategy self) manager).

End Preload.

(** ** The application's own cache trimming *)

Module MemoryWatch.

(** [PhotoSortApp.perform_emergency_cleanup], [reduce_cache_size] and
    [check_memory_usage], restricted to the loader's cache (the fit cache,
    the grid thumbnails and the thumbnail futures they also clear are not
    part of this development). *)

(** The displayed path, if [current_image_index] is a valid index. *)
Definition current_path (image_files : list string) (current_image_index : Z)
  : option string :=
  if (current_image_index >=? 0)
     && (current_image_index <? Z.of_nat (length image_files))
  then image_files !! Z.to_nat current_image_index
  else None.

(** The loop of [perform_emergency_cleanup] that fills [keys_to_remove];
    [limit] is [cache_size - items_to_keep]. *)
Fixpoint keys_to_remove (current : option string) (limit keep_count : Z)
    (keys : list string) : list string :=
  match keys with
  | [] => []
  | key :: keys' =>
      if decide (Some key = current)
      then keys_to_remove current limit keep_count keys'
      else key :: (if keep_count + 1 >=? limit then []
                   else keys_to_remove current limit (keep_count + 1) keys')
  end.

Definition perform_emergency_cleanup (image_files : list string)
    (current_image_index : Z) (loader : ImageLoader.t) : ImageLoader.t :=
  let cache := ImageLoader.cache loader in
  let cache_size := OrderedDict.len cache in
  let items_to_keep := Z.min 10 cache_size in
  let removed :=
    keys_to_remove (current_path image_files current_image_index)
      (cache_size - items_to_keep) 0 (OrderedDict.keys cache) in
  ImageLoader.set_cache
    (foldl (fun c key => OrderedDict.delitem key c) cache removed) loader.

Definition reduce_cache_size (loader : ImageLoader.t) : ImageLoader.t :=
  let cache := ImageLoader.cache loader in
  let cache_size := OrderedDict.len cache in
  if cache_size >? 20 then
    let items_to_remove := Z.max 5 (int_of_product cache_size 0.15) in
    ImageLoader.set_cache
      (foldl (fun c key => OrderedDict.delitem key c) cache
             (take (Z.to_nat items_to_remove) (OrderedDict.keys cache)))
      loader
  else loader.

(** [check_memory_usage]; [memory_percent = None] stands for a failing
    [psutil] call. *)
Definition check_memory_usage (memory_percent : option Q)
    (image_files : list string) (current_image_index : Z)
    (loader : ImageLoader.t) : ImageLoader.t :=
  match memory_percent with
  | None => loader
  | Some memory_percent =>
      if Qgtb memory_percent 85
      then perform_emergency_cleanup image_files current_image_index loader
      else if Qgtb memory_percent 75 then reduce_cache_size loader
      else loader
  end.

End MemoryWatch.

(** ** Loading one image *)

(** What the codecs do with a file, as far as the loader's control flow
    looks at it. *)
Inductive Decoded : Type :=
  | DecodeRaises
  | DecodeGives (pixmap : QPixmap).

Record Codecs : Type := mkCodecs {
  (** [Path(file_path).suffix.lower() in self.raw_extensions] *)
  is_raw : string → bool;
  (** [Path(file_path).name] *)
  file_name : string → string;
  (** The pixmap of [_load_raw_preview_with_orientation], [None] when it
      returns [(None, None, None)]. *)
  raw_preview : string → option QPixmap;
  (** [rawpy.imread], [postprocess] and [QPixmap.fromImage] of the direct
      decode. *)
  raw_decode : string → Decoded;
  (** [Image.open], the orientation and format steps and
      [QPixmap.fromImage] of the standard-format branch. *)
  image_decode : string → Decoded;
  (** [QPixmap(file_path)], the fallback of that branch. *)
  qpixmap_open : string → Decoded
}.

(** [QPixmap()] and the grey 100x100 placeholder. *)
Definition null_pixmap : QPixmap := mkQPixmap true 0 0.
Definition placeholder : QPixmap := mkQPixmap false 100 100.

Module Loading.

(** The loader together with the attributes [load_image_with_orientation]
    uses beside the cache.  [recently_decoded] is a dictionary from file
    name to time, in insertion order; [failed] lists the paths for which
    [decodingFailedForFile] was emitted, oldest first. *)
Record t : Type := mk {
  loader : ImageLoader.t;
  recently_decoded : list (string * Q);
  decoding_cooldown : Q;
  _raw_load_strategy : string;
  failed : list string
}.

Definition __init__ (memory_gb now : Q) : t :=
  {| loader := ImageLoader.__init__ memory_gb now;
     recently_decoded := [];
     decoding_cooldown := 30;
     _raw_load_strategy := "preview";
     failed := [] |}.

Definition set_loader (l : ImageLoader.t) (self : t) : t :=
  mk l (recently_decoded self) (decoding_cooldown self)
     (_raw_load_strategy self) (failed self).

(** [set_raw_load_strategy] *)
Definition set_raw_load_strategy (strategy : string) (self : t) : t :=
  if bool_decide (strategy ∈ ["preview"; "decode"]%string)
  then mk (loader self) (recently_decoded self) (decoding_cooldown self)
          strategy (failed self)
  else self.

(** [_clean_old_decoding_history]: nothing below [max_entries]; otherwise
    the entries older than twice the cooldown go, and if that is not enough
    the oldest of the rest. *)
Fixpoint insert_by_time (item : string * Q) (sorted : list (string * Q))
  : list (string * Q) :=
  match sorted with
  | [] => [item]
  | other :: rest =>
      if Qle_bool (snd other) (snd item)
      then other :: insert_by_time item rest
      else item :: other :: rest
  end.

(** [sorted(items, key=lambda x: x[1])]: a stable sort by time. *)
Definition sorted_by_time (items : list (string * Q)) : list (string * Q) :=
  foldl (fun sorted item => insert_by_time item sorted) [] items.

(** The second stage, on a history still longer than [max_entries]:
    [items[:len(items) - max_entries]] of the sorted items are deleted. *)
Definition drop_oldest (max_entries : Z) (kept : OrderedDict.t Q)
  : OrderedDict.t Q :=
  let to_remove :=
    take (Z.to_nat (OrderedDict.len kept - max_entries)) (sorted_by_time kept) in
  foldl (fun d item => OrderedDict.delitem (fst item) d) kept to_remove.

Definition _clean_old_decoding_history (current_time : Q) (max_entries : Z)
    (self : t) : t :=
  if OrderedDict.len (recently_decoded self) <=? max_entries then self
  else
    let old_threshold := (current_time - decoding_cooldown self * 2)%Q in
    let kept :=
      filter (fun item => Qle_bool old_threshold (snd item) = true)
             (recently_decoded self) in
    let kept :=
      if OrderedDict.len kept >? max_entries then drop_oldest max_entries kept
      else kept in
    mk (loader self) kept (decoding_cooldown self) (_raw_load_strategy self)
       (failed self).

(** The end of both branches: cache a valid pixmap and return it, or
    return [QPixmap()]. *)
Definition finish (file_path : string) (pixmap : QPixmap) (self : t)
  : QPixmap * t :=
  if negb (isNull pixmap)
  then (pixmap,
        set_loader (ImageLoader._add_to_cache file_path (Some pixmap) (loader self)) self)
  else (null_pixmap, self).

(** The preview branch (also taken for an unknown strategy). *)
Definition load_preview (codecs : Codecs) (file_path : string) : QPixmap :=
  match raw_preview codecs file_path with
  | Some pixmap => if negb (isNull pixmap) then pixmap else null_pixmap
  | None => null_pixmap
  end.

(** [load_image_with_orientation].  [running] and [running_later] are the
    two readings of [ResourceManager.instance()._running]: on entry, and
    inside the branch that decodes. *)
Definition load_image_with_orientation (codecs : Codecs)
    (running running_later : bool) (current_time : Q) (file_path : string)
    (self : t) : QPixmap * t :=
  if negb running then (null_pixmap, self)
  else
    match OrderedDict.getitem file_path (ImageLoader.cache (loader self)) with
    | Some cached =>
        (cached,
         set_loader
           (ImageLoader.set_cache
              (OrderedDict.move_to_end file_path (ImageLoader.cache (loader self)))
              (loader self))
           self)
    | None =>
        if is_raw codecs file_path then
          if bool_decide (_raw_load_strategy self = "preview"%string) then
            finish file_path (load_preview codecs file_path) self
          else if bool_decide (_raw_load_strategy self = "decode"%string) then
            let name := file_name codecs file_path in
            let recent :=
              match OrderedDict.getitem name (recently_decoded self) with
              | Some last_decode_time =>
                  negb (Qle_bool (decoding_cooldown self)
                                 (current_time - last_decode_time)%Q)
              | None => false
              end in
            if recent then (placeholder, self)
            else
              let s1 :=
                mk (loader self)
                   (OrderedDict.setitem name current_time (recently_decoded self))
                   (decoding_cooldown self) (_raw_load_strategy self) (failed self) in
              if negb running_later then (null_pixmap, s1)
              else
                let '(pixmap, s2) :=
                  match raw_decode codecs file_path with
                  | DecodeGives pixmap =>
                      if negb (isNull pixmap) then (pixmap, s1)
                      else (null_pixmap,
                            mk (loader s1) (recently_decoded s1) (decoding_cooldown s1)
                               (_raw_load_strategy s1) (failed s1 ++ [file_path]))
                  | DecodeRaises =>
                      (null_pixmap,
                       mk (loader s1) (recently_decoded s1) (decoding_cooldown s1)
                          (_raw_load_strategy s1) (failed s1 ++ [file_path]))
                  end in
                finish file_path pixmap
                  (_clean_old_decoding_history current_time 50 s2)
          else finish file_path (load_preview codecs file_path) self
        else
          if negb running_later then (null_pixmap, self)
          else
            match image_decode codecs file_path with
            | DecodeGives pixmap => finish file_path pixmap self
            | DecodeRaises =>
                match qpixmap_open codecs file_path with
                | DecodeGives pixmap => finish file_path pixmap self
                | DecodeRaises => (null_pixmap, self)
                end
            end
    end.

End Loading.

(** ** A worker process over several passes *)

(** [decode_raw_in_process] for as many passes of its loop as there are
    readings of the memory usage and of the clock. *)
Definition worker_run (rawpy : string → RawpyOutcome)
    (readings : list (option Q * Q)) (w : RawDecoder.t) : RawDecoder.t :=
  foldl (fun w reading => RawDecoder.iteration rawpy reading.1 reading.2 w) w readings.

(** The task ids of the requests waiting on an input queue, and of the
    results on an output queue. *)
Definition waiting_ids (input_queue : list (option (string * Z))) : list Z :=
  omap (fun request => snd <$> request) input_queue.

Definition answered_ids (output_queue : list DecodeResult) : list Z :=
  task_id <$> output_queue.

(** ** The cache as a list of keys *)

(** What [_add_to_cache] does to the keys of a cache with limit [limit]:
    the oldest keys beyond [limit - 1] go, the inserted key moves to the
    end. *)
Definition keys_after_insert (limit : Z) (key : string) (keys : list string)
  : list string :=
  filter (fun k => k ≠ key)
         (drop (Z.to_nat (Z.of_nat (length keys) - limit + 1)) keys)
  ++ [key].

(** ** A well-formed cache *)

(** The limit is at least one, the keys are distinct, the cache is within
    its limit and holds no null pixmap. *)
Definition cache_ok (s : ImageLoader.t) : Prop :=
  1 <= ImageLoader.cache_limit s
  ∧ NoDup (OrderedDict.keys (ImageLoader.cache s))
  ∧ OrderedDict.len (ImageLoader.cache s) <= ImageLoader.cache_limit s
  ∧ Forall (fun item => isNull item.2 = false) (ImageLoader.cache s).

(** What every way out of [load_image_with_orientation] is shown to
    establish: the cache stays well formed under the same limit; a null
    result is [QPixmap()] and leaves the image cache as it was; any other
    result is the entry now cached for the path, as the most recent one, or
    the placeholder, with nothing changed. *)
Definition load_post (file_path : string) (self : Loading.t)
    (out : QPixmap * Loading.t) : Prop :=
  cache_ok (Loading.loader out.2)
  ∧ ImageLoader.cache_limit (Loading.loader out.2)
    = ImageLoader.cache_limit (Loading.loader self)
  ∧ (if isNull out.1
     then out.1 = null_pixmap ∧ Loading.loader out.2 = Loading.loader self
     else (OrderedDict.getitem file_path (ImageLoader.cache (Loading.loader out.2))
           = Some out.1
           ∧ last (OrderedDict.keys (ImageLoader.cache (Loading.loader out.2)))
             = Some file_path)
          ∨ (out.1 = placeholder ∧ out.2 = self)).

(** ** Preloads as the workers run them *)

(** [ImageLoader._preload_image]: the load, its result dropped. *)
Definition _preload_image (codecs : Codecs) (running running_later : bool)
    (current_time : Q) (img_path : string) (self : Loading.t) : Loading.t :=
  (Loading.load_image_with_orientation codecs running running_later current_time
     img_path self).2.

(** One call of [_preload_image]: what the two readings of the running
    flag and the clock give during the call, and the path. *)
Record PreloadCall : Type := mkPreloadCall {
  call_running : bool;
  call_running_later : bool;
  call_time : Q;
  call_path : string
}.

(** The calls of [_preload_image], in the order the workers make them. *)
Definition run_preloads (codecs : Codecs) (calls : list PreloadCall)
    (self : Loading.t) : Loading.t :=
  foldl (fun s call =>
           _preload_image codecs (call_running call) (call_running_later call)
             (call_time call) (call_path call) s)
        self calls.

(** ** Everything that writes to the image cache *)




(** ** Memory readings of a decoder process *)

(** A reading at which a request is decoded rather than put back: memory
    usage at most 95 percent, or no reading at all. *)
Definition calm (reading : option Q * Q) : Prop :=
  match reading.1 with
  | Some percent => (percent <= 95)%Q
  | None => True
  end.

(** A reading at which every request is put back. *)
Definition critical (reading : option Q * Q) : Prop :=
  match reading.1 with
  | Some percent => (95 < percent)%Q
  | None => False
  end.

(** * Properties *)

(** Closes a decidable goal about concrete data by evaluating its decision
    procedure. *)
Ltac by_evaluation :=
  match goal with
  | |- ?P => apply (bool_decide_unpack P); vm_compute; exact I
  end.

(** ** OrderedDict *)

Section OrderedDictFacts.
Context {V : Type}.
Implicit Types (d : OrderedDict.t V) (k : string) (v : V).

Lemma setitem_fresh k v d :
  k ∉ OrderedDict.keys d → OrderedDict.setitem k v d = d ++ [(k, v)].
Proof.
  induction d as [|[k' v'] d IH]; simpl; [done|].
  intros Hk. apply not_elem_of_cons in Hk as [Hne Hk].
  destruct (decide (k = k')); [done|]. by rewrite IH.
Qed.

Lemma setitem_length_present k v d :
  k ∈ OrderedDict.keys d → length (OrderedDict.setitem k v d) = length d.
Proof.
  induction d as [|[k' v'] d IH]; simpl.
  - intros H. by apply elem_of_nil in H.
  - intros H. destruct (decide (k = k')); [done|].
    apply elem_of_cons in H as [?|H]; [done|]. simpl. by rewrite IH.
Qed.

Lemma setitem_length_le k v d :
  (length (OrderedDict.setitem k v d) ≤ S (length d))%nat.
Proof.
  destruct (decide (k ∈ OrderedDict.keys d)) as [Hin|Hout].
  - rewrite setitem_length_present by done. lia.
  - rewrite setitem_fresh by done. rewrite length_app. simpl. lia.
Qed.

Lemma getitem_setitem k v d :
  OrderedDict.getitem k (OrderedDict.setitem k v d) = Some v.
Proof.
  induction d as [|[k' v'] d IH]; simpl.
  - by rewrite decide_True.
  - destruct (decide (k = k')); simpl.
    + by rewrite decide_True.
    + by rewrite decide_False.
Qed.

Lemma getitem_Some_length_delitem k v d :
  OrderedDict.getitem k d = Some v →
  S (length (OrderedDict.delitem k d)) = length d.
Proof.
  induction d as [|[k' v'] d IH]; simpl; [done|].
  destruct (decide (k = k')); [done|]. intros H. simpl. by rewrite IH.
Qed.

Lemma delitem_fresh_snoc k v d :
  k ∉ OrderedDict.keys d → OrderedDict.delitem k (d ++ [(k, v)]) = d.
Proof.
  induction d as [|[k' v'] d IH]; simpl.
  - intros _. by rewrite decide_True.
  - intros Hk. apply not_elem_of_cons in Hk as [Hne Hk].
    rewrite decide_False by done. by rewrite IH.
Qed.

Lemma getitem_fresh_snoc k v d :
  k ∉ OrderedDict.keys d → OrderedDict.getitem k (d ++ [(k, v)]) = Some v.
Proof.
  induction d as [|[k' v'] d IH]; simpl.
  - intros _. by rewrite decide_True.
  - intros Hk. apply not_elem_of_cons in Hk as [Hne Hk].
    rewrite decide_False by done. by apply IH.
Qed.

(** [d[k] = v; d.move_to_end(k)] keeps the length of [d[k] = v]. *)
Lemma move_to_end_setitem_length k v d :
  length (OrderedDict.move_to_end k (OrderedDict.setitem k v d))
  = length (OrderedDict.setitem k v d).
Proof.
  unfold OrderedDict.move_to_end. rewrite getitem_setitem.
  rewrite length_app. simpl.
  pose proof (getitem_Some_length_delitem k v _ (getitem_setitem k v d)). lia.
Qed.

(** For a key that is not in the dictionary the two steps append it. *)
Lemma move_to_end_setitem_fresh k v d :
  k ∉ OrderedDict.keys d →
  OrderedDict.move_to_end k (OrderedDict.setitem k v d) = d ++ [(k, v)].
Proof.
  intros Hk. rewrite setitem_fresh by done. unfold OrderedDict.move_to_end.
  rewrite getitem_fresh_snoc by done. by rewrite delitem_fresh_snoc.
Qed.

Lemma keys_delitem_subseteq k d :
  OrderedDict.keys (OrderedDict.delitem k d) ⊆ OrderedDict.keys d.
Proof.
  induction d as [|[k' v'] d IH]; simpl; [done|].
  destruct (decide (k = k')); simpl.
  - intros x Hx. by right.
  - intros x Hx. apply elem_of_cons in Hx as [->|Hx]; [left|right]. by apply IH.
Qed.

Lemma keys_delitem_other k k' d :
  k' ≠ k → k' ∈ OrderedDict.keys d → k' ∈ OrderedDict.keys (OrderedDict.delitem k d).
Proof.
  intros Hne. induction d as [|[k0 v0] d IH]; simpl; [done|].
  intros Hin. destruct (decide (k = k0)) as [->|Hk].
  - apply elem_of_cons in Hin as [?|?]; [congruence|done].
  - simpl. apply elem_of_cons in Hin as [->|Hin]; [left|right; by apply IH].
Qed.
End OrderedDictFacts.

(** ** The cache bound *)

Section CacheBound.
Import ImageLoader.

(** With a limit of at least one, the eviction loop drops just enough of
    the oldest items to leave room for one more. *)
Lemma evict_while_full_drop (limit : Z) (c : OrderedDict.t QPixmap) :
  1 <= limit →
  evict_while_full limit c = drop (Z.to_nat (OrderedDict.len c - limit + 1)) c.
Proof.
  intros Hl. induction c as [|kv c IH].
  - cbn [evict_while_full]. destruct (_ >=? _); by rewrite drop_nil.
  - cbn [evict_while_full]. unfold OrderedDict.len in *. cbn [length].
    destruct (Z.geb_spec (Z.of_nat (S (length c))) limit) as [Hge|Hlt].
    + rewrite IH.
      replace (Z.to_nat (Z.of_nat (S (length c)) - limit + 1))
        with (S (Z.to_nat (Z.of_nat (length c) - limit + 1))) by lia.
      done.
    + replace (Z.to_nat (Z.of_nat (S (length c)) - limit + 1)) with 0%nat by lia.
      done.
Qed.

Lemma evict_while_full_room (limit : Z) (c : OrderedDict.t QPixmap) :
  1 <= limit → OrderedDict.len (evict_while_full limit c) < limit.
Proof.
  intros Hl. rewrite evict_while_full_drop by done.
  unfold OrderedDict.len. rewrite length_drop. lia.
Qed.

Lemma add_to_cache_len (file_path : string) (pixmap : option QPixmap) (s : t) :
  1 <= cache_limit s →
  OrderedDict.len (cache s) <= cache_limit s →
  OrderedDict.len (cache (_add_to_cache file_path pixmap s)) <= cache_limit s.
Proof.
  intros Hl Hlen. unfold _add_to_cache.
  destruct pixmap as [pm|]; [|done].
  destruct (isNull pm); simpl; [done|].
  unfold OrderedDict.len. rewrite move_to_end_setitem_length.
  pose proof (setitem_length_le file_path pm
                (evict_while_full (cache_limit s) (cache s))).
  pose proof (evict_while_full_room (cache_limit s) (cache s) Hl).
  unfold OrderedDict.len in *. lia.
Qed.

Lemma add_to_cache_limit (file_path : string) (pixmap : option QPixmap) (s : t) :
  cache_limit (_add_to_cache file_path pixmap s) = cache_limit s.
Proof.
  unfold _add_to_cache. destruct pixmap as [pm|]; [|done].
  by destruct (isNull pm).
Qed.

(** A fresh path with a valid pixmap goes to the end, after the eviction. *)
Lemma add_to_cache_fresh (file_path : string) (pm : QPixmap) (s : t) :
  isNull pm = false →
  file_path ∉ OrderedDict.keys (cache s) →
  1 <= cache_limit s →
  cache (_add_to_cache file_path (Some pm) s)
  = drop (Z.to_nat (OrderedDict.len (cache s) - cache_limit s + 1)) (cache s)
    ++ [(file_path, pm)].
Proof.
  intros Hpm Hk Hl. unfold _add_to_cache. rewrite Hpm. simpl.
  rewrite evict_while_full_drop by done.
  apply move_to_end_setitem_fresh.
  intros Hin. apply Hk. unfold OrderedDict.keys in *.
  rewrite fmap_drop in Hin. by apply subseteq_drop in Hin.
Qed.

Lemma calculate_adaptive_cache_size_values (memory_gb : Q) :
  calculate_adaptive_cache_size memory_gb ∈ [120; 80; 60; 40; 20; 10].
Proof.
  unfold calculate_adaptive_cache_size.
  repeat (destruct (Qle_bool _ _); [set_solver|]). set_solver.
Qed.

Lemma calculate_adaptive_cache_size_min (memory_gb : Q) :
  10 <= calculate_adaptive_cache_size memory_gb.
Proof.
  unfold calculate_adaptive_cache_size.
  repeat (destruct (Qle_bool _ _); [lia|]). lia.
Qed.

Lemma insertions_bounded (calls : list (string * option QPixmap)) (s : t) :
  1 <= cache_limit s →
  OrderedDict.len (cache s) <= cache_limit s →
  Forall (fun s' => OrderedDict.len (cache s') <= cache_limit s)
         (insertions calls s).
Proof.
  revert s. induction calls as [|[file_path pixmap] calls IH]; intros s Hl Hlen.
  - constructor.
  - cbn [insertions]. constructor.
    + by apply add_to_cache_len.
    + rewrite <- (add_to_cache_limit file_path pixmap s).
      apply IH; rewrite add_to_cache_limit; [done|].
      by apply add_to_cache_len.
Qed.

Lemma insert_all_limit (pixmap_of : string → QPixmap) (paths : list string) (s : t) :
  cache_limit (insert_all pixmap_of paths s) = cache_limit s.
Proof.
  unfold insert_all. revert s. induction paths as [|p paths IH]; intros s; [done|].
  cbn [foldl]. rewrite IH. apply add_to_cache_limit.
Qed.

(** Distinct paths inserted into an empty cache: the cache holds the last
    [cache_limit] of them, oldest first. *)
Lemma insert_all_keys (pixmap_of : string → QPixmap) (paths : list string) (s : t) :
  1 <= cache_limit s →
  cache s = [] →
  NoDup paths →
  (∀ p, isNull (pixmap_of p) = false) →
  OrderedDict.keys (cache (insert_all pixmap_of paths s))
  = drop (length paths - Z.to_nat (cache_limit s)) paths.
Proof.
  intros Hl Hempty Hnd Hok. induction paths as [|p paths IH] using rev_ind.
  - simpl. by rewrite Hempty.
  - apply NoDup_app in Hnd as (Hnd & Hp & _).
    specialize (IH Hnd).
    unfold insert_all in *. rewrite foldl_snoc.
    set (s1 := foldl _ s paths) in *.
    assert (cache_limit s1 = cache_limit s) as Hlim
      by apply (insert_all_limit pixmap_of paths s).
    assert (p ∉ OrderedDict.keys (cache s1)) as Hfresh.
    { rewrite IH. intros Hin. apply subseteq_drop in Hin.
      apply (Hp p Hin). by left. }
    rewrite add_to_cache_fresh; [|done|done|lia].
    unfold OrderedDict.keys in *. rewrite fmap_app, fmap_drop, IH, drop_drop.
    simpl. rewrite length_app. simpl.
    assert (OrderedDict.len (cache s1)
            = Z.of_nat (length paths - (length paths - Z.to_nat (cache_limit s)))) as ->.
    { unfold OrderedDict.len. rewrite <- (length_fmap fst (cache s1)), IH.
      by rewrite length_drop. }
    rewrite Hlim. rewrite drop_app_le by lia. f_equal. f_equal. lia.
Qed.

(** C1. For every sequence of [_add_to_cache] calls on a cache whose limit
    [L] is at least one (every limit [calculate_adaptive_cache_size] can
    return is), the cache holds at most [L] entries after each call; this
    holds in particular for every loader made by [__init__].  With limit
    10, inserting eleven distinct paths into the empty cache leaves exactly
    ten entries, and the first path is gone. *)
Theorem add_to_cache_keeps_bound :
  (∀ (L : Z) (s : t) (calls : list (string * option QPixmap)),
      1 <= L → cache_limit s = L → OrderedDict.len (cache s) <= L →
      Forall (fun s' => OrderedDict.len (cache s') <= L) (insertions calls s))
  ∧ (∀ (memory_gb now : Q) (calls : list (string * option QPixmap)),
      let s := __init__ memory_gb now in
      1 <= cache_limit s
      ∧ Forall (fun s' => OrderedDict.len (cache s') <= cache_limit s)
               (insertions calls s))
  ∧ (∀ (s : t) (pixmap_of : string → QPixmap) (paths : list string) (p1 : string),
      cache_limit s = 10 → cache s = [] →
      NoDup paths → length paths = 11%nat → head paths = Some p1 →
      (∀ p, isNull (pixmap_of p) = false) →
      let s' := insert_all pixmap_of paths s in
      OrderedDict.len (cache s') = 10
      ∧ OrderedDict.contains p1 (cache s') = false).
Proof.
  split; [|split].
  - intros L s calls HL <- Hlen. by apply insertions_bounded.
  - intros memory_gb now calls s.
    pose proof (calculate_adaptive_cache_size_min memory_gb) as Hmin.
    split; [simpl; lia|].
    apply insertions_bounded; simpl; unfold OrderedDict.len; simpl; lia.
  - intros s pixmap_of paths p1 Hlim Hempty Hnd Hlen Hhead Hok s'.
    pose proof (insert_all_keys pixmap_of paths s) as Hkeys.
    rewrite Hlim in Hkeys. specialize (Hkeys ltac:(lia) Hempty Hnd Hok).
    fold s' in Hkeys. rewrite Hlen in Hkeys.
    change (11 - Z.to_nat 10)%nat with 1%nat in Hkeys.
    destruct paths as [|q paths]; [done|]. simpl in Hhead, Hkeys, Hlen.
    injection Hhead as ->. rewrite drop_0 in Hkeys. split.
    + unfold OrderedDict.len. rewrite <- (length_fmap fst (cache s')).
      unfold OrderedDict.keys in Hkeys. rewrite Hkeys. lia.
    + unfold OrderedDict.contains. rewrite Hkeys.
      apply bool_decide_eq_false. by apply NoDup_cons in Hnd as [? _].
Qed.

Lemma add_to_cache_keeps_bound_witness :
  Forall (fun s' => OrderedDict.len (cache s') <= 10)
         (insertions (map (fun p => (p, Some (mkQPixmap false 640 480)))
                          scenario_A_paths)
                     (__init__ 4 0))
  ∧ OrderedDict.len
      (cache (insert_all (fun _ => mkQPixmap false 640 480) scenario_A_paths
                         (__init__ 4 0))) = 10
  ∧ OrderedDict.contains "p1"
      (cache (insert_all (fun _ => mkQPixmap false 640 480) scenario_A_paths
                         (__init__ 4 0))) = false.
Proof.
  split.
  - apply (proj1 add_to_cache_keeps_bound 10 (__init__ 4 0)).
    + lia.
    + reflexivity.
    + vm_compute. discriminate.
  - apply (proj2 (proj2 add_to_cache_keeps_bound) (__init__ 4 0)
             (fun _ => mkQPixmap false 640 480) scenario_A_paths "p1"%string).
    + reflexivity.
    + reflexivity.
    + by_evaluation.
    + reflexivity.
    + reflexivity.
    + intros p. reflexivity.
Defined.

End CacheBound.

(** ** Truncated float products *)

(** For every length a cache can have, the truncated binary64 product is
    the floor of the exact one. *)
Lemma int_of_product_floor (n : Z) :
  0 <= n <= 1024 →
  int_of_product n 0.15 = n * 15 / 100
  ∧ int_of_product n 0.3 = n * 30 / 100
  ∧ int_of_product n 0.5 = n * 50 / 100.
Proof.
  intros Hn.
  assert (forallb (fun k : nat =>
                     Z.eqb (int_of_product (Z.of_nat k) 0.15) (Z.of_nat k * 15 / 100)
                     && Z.eqb (int_of_product (Z.of_nat k) 0.3) (Z.of_nat k * 30 / 100)
                     && Z.eqb (int_of_product (Z.of_nat k) 0.5) (Z.of_nat k * 50 / 100))
                  (seq 0 1025) = true) as Hall by (vm_compute; reflexivity).
  rewrite forallb_forall in Hall.
  specialize (Hall (Z.to_nat n)). rewrite Z2Nat.id in Hall by lia.
  assert (In (Z.to_nat n) (seq 0 1025)) as Hin by (apply in_seq; lia).
  specialize (Hall Hin).
  apply andb_prop in Hall as [Hall H50]. apply andb_prop in Hall as [H15 H30].
  apply Z.eqb_eq in H15, H30, H50. done.
Qed.

(** ** Rational comparisons *)

Lemma Qgtb_true (a b : Q) : Qgtb a b = true ↔ (b < a)%Q.
Proof.
  unfold Qgtb. rewrite negb_true_iff, <- not_true_iff_false, Qle_bool_iff.
  split; [apply Qnot_le_lt | apply Qlt_not_le].
Qed.

Lemma Qgtb_false (a b : Q) : Qgtb a b = false ↔ (a <= b)%Q.
Proof.
  unfold Qgtb. rewrite negb_false_iff. apply Qle_bool_iff.
Qed.

(** ** Pressure eviction *)

Section PressureEviction.
Import ImageLoader.

Implicit Types (preserved : gset string) (ks : list string).

Lemma select_items_spec preserved count items_removed ks :
  select_items_to_remove preserved count items_removed ks
  = (take (Z.to_nat (count - items_removed))
          (filter (fun k => k ∉ preserved) ks),
     items_removed
     + Z.of_nat (length (take (Z.to_nat (count - items_removed))
                              (filter (fun k => k ∉ preserved) ks)))).
Proof.
  revert items_removed. induction ks as [|key ks IH]; intros items_removed.
  - cbn [select_items_to_remove]. rewrite filter_nil, take_nil.
    cbn [length]. f_equal. lia.
  - cbn [select_items_to_remove].
    destruct (Z.geb_spec items_removed count) as [Hge|Hlt].
    + replace (Z.to_nat (count - items_removed)) with 0%nat by lia.
      simpl. f_equal. lia.
    + destruct (decide (key ∈ preserved)) as [Hin|Hout].
      * rewrite IH. rewrite filter_cons_False by (intros H; by apply H). done.
      * rewrite IH. rewrite filter_cons_True by done.
        replace (Z.to_nat (count - items_removed))
          with (S (Z.to_nat (count - (items_removed + 1)))) by lia.
        cbn [take length]. f_equal. lia.
Qed.

Lemma delitem_present_length (k : string) (c : OrderedDict.t QPixmap) :
  k ∈ OrderedDict.keys c → S (length (OrderedDict.delitem k c)) = length c.
Proof.
  induction c as [|[k' v'] c IH]; simpl.
  - intros H. by apply elem_of_nil in H.
  - intros H. destruct (decide (k = k')); [done|].
    apply elem_of_cons in H as [?|H]; [done|]. simpl. by rewrite IH.
Qed.

(** Deleting distinct keys of the dictionary shortens it by their number,
    and leaves every other key in place. *)
Lemma delete_items_length (items : list string) (c : OrderedDict.t QPixmap) :
  NoDup items → items ⊆ OrderedDict.keys c →
  (length (foldl (fun c key => OrderedDict.delitem key c) c items)
   + length items = length c)%nat.
Proof.
  revert c. induction items as [|k items IH]; intros c Hnd Hsub; simpl; [lia|].
  apply NoDup_cons in Hnd as [Hk Hnd].
  assert (items ⊆ OrderedDict.keys (OrderedDict.delitem k c)) as Hsub'.
  { intros x Hx. apply keys_delitem_other.
    - intros ->. done.
    - apply Hsub. by right. }
  pose proof (IH (OrderedDict.delitem k c) Hnd Hsub') as Hrest.
  pose proof (delitem_present_length k c) as Hlen.
  specialize (Hlen ltac:(apply Hsub; by left)). lia.
Qed.

Lemma delete_items_keeps (items : list string) (c : OrderedDict.t QPixmap)
    (k : string) :
  k ∉ items → k ∈ OrderedDict.keys c →
  k ∈ OrderedDict.keys (foldl (fun c key => OrderedDict.delitem key c) c items).
Proof.
  revert c. induction items as [|k' items IH]; intros c Hk Hin; simpl; [done|].
  apply not_elem_of_cons in Hk as [Hne Hk].
  apply IH; [done|]. by apply keys_delitem_other.
Qed.

Lemma delete_items_subseteq (items : list string) (c : OrderedDict.t QPixmap) :
  OrderedDict.keys (foldl (fun c key => OrderedDict.delitem key c) c items)
  ⊆ OrderedDict.keys c.
Proof.
  revert c. induction items as [|k' items IH]; intros c; simpl; [done|].
  etrans; [apply IH|]. apply keys_delitem_subseteq.
Qed.

(** The cache after [_remove_oldest_items_from_cache]: the first [count]
    keys outside the preserved set are deleted. *)
Lemma remove_oldest_cache (count : Z) (s : t) :
  cache (_remove_oldest_items_from_cache count s).1
  = foldl (fun c key => OrderedDict.delitem key c) (cache s)
          (take (Z.to_nat count) (unpinned_keys s)).
Proof.
  unfold _remove_oldest_items_from_cache, unpinned_keys.
  destruct (cache s) as [|kv c] eqn:Hc.
  - simpl. rewrite filter_nil, take_nil. simpl. done.
  - destruct (Z.leb_spec count 0) as [Hle|Hgt].
    + replace (Z.to_nat count) with 0%nat by lia. simpl. done.
    + rewrite select_items_spec. rewrite Z.sub_0_r. simpl. done.
Qed.

Lemma remove_oldest_count (count : Z) (s : t) :
  NoDup (OrderedDict.keys (cache s)) →
  OrderedDict.len (cache s)
  - OrderedDict.len (cache (_remove_oldest_items_from_cache count s).1)
  = Z.min (Z.max 0 count) (Z.of_nat (length (unpinned_keys s))).
Proof.
  intros Hnd. rewrite remove_oldest_cache. unfold OrderedDict.len.
  pose proof (delete_items_length (take (Z.to_nat count) (unpinned_keys s))
                (cache s)) as Hlen.
  assert (NoDup (unpinned_keys s)) as Hnd'
    by (unfold unpinned_keys; by apply NoDup_filter).
  assert (unpinned_keys s ⊆ OrderedDict.keys (cache s)) as Hsub.
  { unfold unpinned_keys. intros x Hx. by apply list_elem_of_filter in Hx as [_ ?]. }
  rewrite <- Hlen.
  - rewrite length_take. lia.
  - apply (sublist_NoDup _ (unpinned_keys s)); [done|apply sublist_take].
  - etrans; [apply subseteq_take|done].
Qed.
End PressureEviction.

Section Pinning.
Import ImageLoader.

Lemma evict_while_full_suffix (limit : Z) (c : OrderedDict.t QPixmap) :
  ∃ n : nat, evict_while_full limit c = drop n c.
Proof.
  induction c as [|kv c [n IH]].
  - exists 0%nat. cbn [evict_while_full]. by destruct (_ >=? _).
  - cbn [evict_while_full]. destruct (_ >=? _).
    + exists (S n). by rewrite IH.
    + by exists 0%nat.
Qed.

(** C4, counterexample.  A full cache whose oldest entry is the displayed
    image: inserting one more path evicts that entry, although it is in
    the preserved set. *)
Lemma add_to_cache_evicts_preserved :
  let s := full_loader_showing_p1 in
  bool_decide ("p1"%string ∈ preserved_paths s) = true
  ∧ OrderedDict.contains "p1" (cache s) = true
  ∧ OrderedDict.contains "p1"
      (cache (_add_to_cache "p11" (Some sample_pixmap) s)) = false.
Proof. vm_compute. done. Qed.

(** C4, amended.  [_remove_oldest_items_from_cache] removes no path of the
    preserved set it computes (the current image and its three neighbours
    on each side, read from [current_image_index] and [image_files]);
    [_add_to_cache] evicts from the old end of the cache, and what it evicts
    does not depend on those two attributes. *)
Theorem pressure_eviction_spares_preserved :
  (∀ (s : t) (count : Z) (k : string),
      k ∈ preserved_paths s → k ∈ OrderedDict.keys (cache s) →
      k ∈ OrderedDict.keys (cache (_remove_oldest_items_from_cache count s).1))
  ∧ (∀ (s : t) (count : Z),
      OrderedDict.keys (cache (_remove_oldest_items_from_cache count s).1)
      ⊆ OrderedDict.keys (cache s))
  ∧ (∀ (s : t) (file_path : string) (pm : QPixmap),
      isNull pm = false →
      ∃ n : nat,
        cache (_add_to_cache file_path (Some pm) s)
        = OrderedDict.move_to_end file_path
            (OrderedDict.setitem file_path pm (drop n (cache s))))
  ∧ (∀ (s : t) (file_path : string) (pixmap : option QPixmap)
       (index : option Z) (files : option (list string)),
      cache (_add_to_cache file_path pixmap
               (mk (system_memory_gb s) (cache_limit s) (cache s)
                   (last_cache_adjustment s) index files))
      = cache (_add_to_cache file_path pixmap s)).
Proof.
  repeat split.
  - intros s count k Hpin Hin. rewrite remove_oldest_cache.
    apply delete_items_keeps; [|done].
    intros Hk. apply subseteq_take in Hk.
    unfold unpinned_keys in Hk. by apply list_elem_of_filter in Hk as [? _].
  - intros s count. rewrite remove_oldest_cache. apply delete_items_subseteq.
  - intros s file_path pm Hpm.
    destruct (evict_while_full_suffix (cache_limit s) (cache s)) as [n Hn].
    exists n. unfold _add_to_cache. rewrite Hpm. simpl. by rewrite Hn.
  - intros s file_path pixmap index files. unfold _add_to_cache.
    destruct pixmap as [pm|]; [|done]. by destruct (isNull pm).
Qed.

Lemma pressure_eviction_spares_preserved_witness :
  "p1"%string ∈ OrderedDict.keys
    (cache (_remove_oldest_items_from_cache 5 full_loader_showing_p1).1)
  ∧ ∃ n : nat,
      cache (_add_to_cache "p11" (Some sample_pixmap) full_loader_showing_p1)
      = OrderedDict.move_to_end "p11"
          (OrderedDict.setitem "p11" sample_pixmap
             (drop n (cache full_loader_showing_p1))).
Proof.
  split.
  - apply (proj1 pressure_eviction_spares_preserved full_loader_showing_p1 5 "p1"%string).
    + by_evaluation.
    + by_evaluation.
  - apply (proj1 (proj2 (proj2 pressure_eviction_spares_preserved))
             full_loader_showing_p1 "p11"%string sample_pixmap).
    reflexivity.
Defined.
End Pinning.

Section CacheHealth.
Import ImageLoader.

Lemma cache_set_last_cache_adjustment (now : Q) (s : t) :
  cache (set_last_cache_adjustment now s) = cache s.
Proof. done. Qed.

(** The three branches of [check_cache_health]. *)
Lemma check_cache_health_critical (s : t) (memory_percent now : Q) :
  (95 < memory_percent)%Q → (5 < now - last_cache_adjustment s)%Q →
  check_cache_health (Some memory_percent) now s
  = set_last_cache_adjustment now
      (_remove_oldest_items_from_cache
         (Z.max 1 (int_of_product (OrderedDict.len (cache s)) 0.5)) s).1.
Proof.
  intros Hm He. unfold check_cache_health.
  apply Qgtb_true in Hm as ->. apply Qgtb_true in He as ->. done.
Qed.

Lemma check_cache_health_warning (s : t) (memory_percent now : Q) :
  (90 < memory_percent)%Q → (memory_percent <= 95)%Q →
  (10 < now - last_cache_adjustment s)%Q →
  check_cache_health (Some memory_percent) now s
  = set_last_cache_adjustment now
      (_remove_oldest_items_from_cache
         (Z.max 1 (int_of_product (OrderedDict.len (cache s)) 0.3)) s).1.
Proof.
  intros Hm Hm' He. unfold check_cache_health.
  apply Qgtb_false in Hm' as ->.
  apply Qgtb_true in Hm as ->. apply Qgtb_true in He as ->. done.
Qed.

Lemma check_cache_health_caution (s : t) (memory_percent now : Q) :
  (85 < memory_percent)%Q → (memory_percent <= 90)%Q →
  (30 < now - last_cache_adjustment s)%Q →
  check_cache_health (Some memory_percent) now s
  = set_last_cache_adjustment now
      (_remove_oldest_items_from_cache
         (Z.max 1 (int_of_product (OrderedDict.len (cache s)) 0.15)) s).1.
Proof.
  intros Hm Hm' He. unfold check_cache_health.
  assert (Qgtb memory_percent 95 = false) as ->.
  { apply Qgtb_false. apply (Qle_trans _ 90); [exact Hm'|]. by vm_compute. }
  apply Qgtb_false in Hm' as ->.
  apply Qgtb_true in Hm as ->. apply Qgtb_true in He as ->. done.
Qed.

(** C7, counterexample.  At 96% with the cooldown over, the health check
    leaves an empty cache empty: it removes no entry, not
    [max(1, floor(0.5 * 0)) = 1].  And of two cached paths that are both in
    the preserved set it removes none, not [max(1, floor(0.5 * 2)) = 1]. *)
Lemma check_cache_health_empty_cache :
  let removed (s : t) :=
    OrderedDict.len (cache s)
    - OrderedDict.len (cache (check_cache_health (Some 96%Q) 100 s)) in
  (OrderedDict.len (cache (loader_holding 20 [])) = 0
   ∧ removed (loader_holding 20 [])
     ≠ Z.max 1 (OrderedDict.len (cache (loader_holding 20 [])) * 50 / 100))
  ∧ (OrderedDict.len (cache loader_showing_all) = 2
     ∧ removed loader_showing_all
       ≠ Z.max 1 (OrderedDict.len (cache loader_showing_all) * 50 / 100)).
Proof. vm_compute. repeat split; discriminate. Qed.

(** C7, amended.  For a cache of [n] entries of which [u] lie outside the
    preserved set, the health check at a memory usage above 95%, above 90%
    and above 85% (the cooldown of 5, 10 and 30 seconds being over) removes
    [min(max(1, floor(p * n)), u)] entries for [p] = 0.5, 0.3 and 0.15;
    these are [max(1, floor(p * n))] entries when the cache is not empty and
    holds no preserved path, and none when the cache is empty.  ([n] is at
    most 1024, the range in which the binary64 products were evaluated; a
    cache never holds more than 120 entries.) *)
Theorem check_cache_health_removes (s : t) (memory_percent now : Q) :
  NoDup (OrderedDict.keys (cache s)) →
  OrderedDict.len (cache s) <= 1024 →
  let n := OrderedDict.len (cache s) in
  let u := Z.of_nat (length (unpinned_keys s)) in
  let removed :=
    n - OrderedDict.len (cache (check_cache_health (Some memory_percent) now s)) in
  let elapsed := (now - last_cache_adjustment s)%Q in
  let shrinks_by (num : Z) :=
    removed = Z.min (Z.max 1 (n * num / 100)) u
    ∧ (1 <= n → u = n → removed = Z.max 1 (n * num / 100))
    ∧ (n = 0 → removed = 0) in
  ((95 < memory_percent)%Q → (5 < elapsed)%Q → shrinks_by 50)
  ∧ ((90 < memory_percent)%Q → (memory_percent <= 95)%Q → (10 < elapsed)%Q →
     shrinks_by 30)
  ∧ ((85 < memory_percent)%Q → (memory_percent <= 90)%Q → (30 < elapsed)%Q →
     shrinks_by 15).
Proof.
  intros Hnd Hsmall n u removed elapsed shrinks_by.
  assert (∀ num : Z, 0 <= num <= 100 →
            let r := n - OrderedDict.len
                           (cache (_remove_oldest_items_from_cache
                                     (Z.max 1 (n * num / 100)) s).1) in
            r = Z.min (Z.max 1 (n * num / 100)) u
            ∧ (1 <= n → u = n → r = Z.max 1 (n * num / 100))
            ∧ (n = 0 → r = 0)) as Hstep.
  { intros num Hnum r.
    assert (r = Z.min (Z.max 1 (n * num / 100)) u) as Hr.
    { unfold r, n. rewrite remove_oldest_count by done. unfold u. lia. }
    assert (0 <= u <= n) as Hu.
    { unfold u, n, unpinned_keys, OrderedDict.len, OrderedDict.keys.
      pose proof (length_filter (fun k => k ∉ preserved_paths s) (cache s).*1) as H.
      rewrite length_fmap in H. lia. }
    split; [exact Hr|]. split.
    - intros Hn Hun.
      assert (n * num / 100 <= n) by (apply Z.div_le_upper_bound; nia).
      lia.
    - intros Hn. lia. }
  destruct (int_of_product_floor n) as (H15 & H30 & H50);
    [unfold n, OrderedDict.len in *; lia|].
  unfold shrinks_by, removed, elapsed. split; [|split].
  - intros Hm He. rewrite check_cache_health_critical by assumption.
    rewrite cache_set_last_cache_adjustment. fold n. rewrite H50.
    exact (Hstep 50 ltac:(lia)).
  - intros Hm Hm' He. rewrite check_cache_health_warning by assumption.
    rewrite cache_set_last_cache_adjustment. fold n. rewrite H30.
    exact (Hstep 30 ltac:(lia)).
  - intros Hm Hm' He. rewrite check_cache_health_caution by assumption.
    rewrite cache_set_last_cache_adjustment. fold n. rewrite H15.
    exact (Hstep 15 ltac:(lia)).
Qed.

Lemma check_cache_health_removes_witness :
  let s := loader_holding 20 (numbered_paths 20) in
  OrderedDict.len (cache s)
  - OrderedDict.len (cache (check_cache_health (Some 96%Q) 100 s)) = 10
  ∧ OrderedDict.len (cache s)
    - OrderedDict.len (cache (check_cache_health (Some 91%Q) 100 s)) = 6
  ∧ OrderedDict.len (cache s)
    - OrderedDict.len (cache (check_cache_health (Some 86%Q) 100 s)) = 3.
Proof.
  intros s.
  assert (NoDup (OrderedDict.keys (cache s))) as Hnd by by_evaluation.
  assert (OrderedDict.len (cache s) <= 1024) as Hsmall
    by (vm_compute; discriminate).
  split; [|split].
  - apply (proj1 (proj2 (proj1 (check_cache_health_removes s 96 100 Hnd Hsmall)
                           ltac:(reflexivity) ltac:(reflexivity)))).
    + vm_compute. discriminate.
    + reflexivity.
  - apply (proj1 (proj2 (proj1 (proj2 (check_cache_health_removes s 91 100 Hnd Hsmall))
                           ltac:(reflexivity) ltac:(vm_compute; discriminate)
                           ltac:(reflexivity)))).
    + vm_compute. discriminate.
    + reflexivity.
  - apply (proj1 (proj2 (proj2 (proj2 (check_cache_health_removes s 86 100 Hnd Hsmall))
                           ltac:(reflexivity) ltac:(vm_compute; discriminate)
                           ltac:(reflexivity)))).
    + vm_compute. discriminate.
    + reflexivity.
Defined.
End CacheHealth.

(** ** Priority dispatch *)

Section PriorityDispatch.
Import PriorityThreadPoolExecutor.

Lemma submit_with_priority_queues (priority : string) (task : Task) (p : t) :
  let p' := submit_with_priority priority task p in
  high p' = high p ++ (if decide (tier_of priority = "high"%string) then [task] else [])
  ∧ medium p' = medium p
                ++ (if decide (tier_of priority = "medium"%string) then [task] else [])
  ∧ low p' = low p ++ (if decide (tier_of priority = "low"%string) then [task] else [])
  ∧ base p' = base p ∧ shutdown_flag p' = shutdown_flag p
  ∧ processor_alive p' = processor_alive p.
Proof.
  unfold submit_with_priority, tier_of.
  destruct (known_priority priority) eqn:Hk.
  - destruct (decide (priority = "high"%string)) as [->|Hh]; simpl.
    { by rewrite !app_nil_r. }
    destruct (decide (priority = "medium"%string)) as [->|Hm]; simpl.
    { by rewrite !app_nil_r. }
    assert (priority = "low"%string) as ->.
    { unfold known_priority in Hk. apply bool_decide_eq_true in Hk.
      repeat (apply elem_of_cons in Hk as [Hk|Hk]; [done|]).
      by apply elem_of_nil in Hk. }
    simpl. by rewrite !app_nil_r.
  - simpl. by rewrite !app_nil_r.
Qed.

Lemma submit_all_queues (jobs : list (string * Task)) (p : t) :
  let p' := submit_all jobs p in
  high p' = high p ++ tier "high" jobs
  ∧ medium p' = medium p ++ tier "medium" jobs
  ∧ low p' = low p ++ tier "low" jobs
  ∧ base p' = base p ∧ shutdown_flag p' = shutdown_flag p
  ∧ processor_alive p' = processor_alive p.
Proof.
  revert p. induction jobs as [|[priority task] jobs IH]; intros p.
  - unfold tier. simpl. by rewrite !app_nil_r.
  - change (submit_all ((priority, task) :: jobs) p)
      with (submit_all jobs (submit_with_priority priority task p)).
    cbv zeta.
    destruct (IH (submit_with_priority priority task p))
      as (Hh & Hm & Hl & Hb & Hs & Ha).
    destruct (submit_with_priority_queues priority task p)
      as (Hh' & Hm' & Hl' & Hb' & Hs' & Ha').
    cbn [fst snd] in *.
    rewrite Hh, Hm, Hl, Hb, Hs, Ha, Hh', Hm', Hl', Hb', Hs', Ha'.
    unfold tier. rewrite !filter_cons. cbn [fst snd].
    repeat split; rewrite <- ?app_assoc; try done.
    all: f_equal; by repeat case_decide.
Qed.

Lemma hand_over_live (task : Task) (h m l : list Task) (p : t) :
  live p →
  let p' := hand_over task h m l p in
  live p' ∧ handed_over p' = handed_over p ++ [task]
  ∧ high p' = h ∧ medium p' = m ∧ low p' = l.
Proof.
  intros (Hs & Ha & Hb). unfold hand_over, ThreadPoolExecutor.submit, live, handed_over.
  rewrite Hb. simpl. rewrite fmap_app. done.
Qed.

(** One pass takes the oldest task of the first non-empty tier. *)
Lemma process_iteration_takes (p : t) :
  live p →
  match queued p with
  | [] => process_iteration p = p
  | task :: rest =>
      live (process_iteration p)
      ∧ handed_over (process_iteration p) = handed_over p ++ [task]
      ∧ queued (process_iteration p) = rest
  end.
Proof.
  intros Hlive. unfold queued, process_iteration.
  destruct (high p) as [|th h].
  - destruct (medium p) as [|tm m].
    + destruct (low p) as [|tl l]; [done|].
      by destruct (hand_over_live tl [] [] l p Hlive) as (? & ? & -> & -> & ->).
    + by destruct (hand_over_live tm [] m (low p) p Hlive) as (? & ? & -> & -> & ->).
  - by destruct (hand_over_live th h (medium p) (low p) p Hlive)
      as (? & ? & -> & -> & ->).
Qed.

Lemma process_priority_queues_order (n : nat) (p : t) :
  live p →
  handed_over (_process_priority_queues n p) = handed_over p ++ take n (queued p)
  ∧ queued (_process_priority_queues n p) = drop n (queued p).
Proof.
  revert p. induction n as [|n IH]; intros p Hlive.
  - simpl. by rewrite app_nil_r.
  - cbn [_process_priority_queues].
    destruct Hlive as (Hs & Ha & Hb). rewrite Hs, Ha. simpl.
    pose proof (process_iteration_takes p (conj Hs (conj Ha Hb))) as Hstep.
    destruct (queued p) as [|task rest] eqn:Hq.
    + rewrite Hstep. destruct (IH p (conj Hs (conj Ha Hb))) as [IH1 IH2].
      rewrite IH1, IH2, Hq. by rewrite take_nil, drop_nil.
    + destruct Hstep as (Hlive' & Hh & Hq').
      destruct (IH _ Hlive') as [IH1 IH2].
      rewrite IH1, IH2, Hh, Hq'. simpl. by rewrite <- app_assoc.
Qed.

(** C2.  Tasks submitted high, low, high, medium before the loop takes
    anything are handed to the underlying pool in the order high, high,
    medium, low.  In general each pass of the loop takes the oldest task of
    the high queue if there is one, else of the medium queue, else of the low
    queue, so a batch of submissions is handed over tier by tier, in arrival
    order within each tier. *)
Theorem dispatch_order :
  (∀ (a b c d : Task) (n : nat),
      (4 ≤ n)%nat →
      handed_over
        (_process_priority_queues n
           (submit_all [("high", a); ("low", b); ("high", c); ("medium", d)]%string
                       __init__))
      = [a; c; d; b])
  ∧ (∀ (p : t),
      live p →
      let takes (task : Task) (h m l : list Task) :=
        handed_over (process_iteration p) = handed_over p ++ [task]
        ∧ high (process_iteration p) = h
        ∧ medium (process_iteration p) = m
        ∧ low (process_iteration p) = l in
      match high p with
      | task :: h => takes task h (medium p) (low p)
      | [] =>
          match medium p with
          | task :: m => takes task [] m (low p)
          | [] =>
              match low p with
              | task :: l => takes task [] [] l
              | [] => process_iteration p = p
              end
          end
      end)
  ∧ (∀ (jobs : list (string * Task)) (n : nat),
      (length jobs ≤ n)%nat →
      handed_over (_process_priority_queues n (submit_all jobs __init__))
      = tier "high" jobs ++ tier "medium" jobs ++ tier "low" jobs).
Proof.
  assert (∀ (jobs : list (string * Task)) (n : nat),
      (length jobs ≤ n)%nat →
      handed_over (_process_priority_queues n (submit_all jobs __init__))
      = tier "high" jobs ++ tier "medium" jobs ++ tier "low" jobs) as Hbatch.
  { intros jobs n Hn.
    destruct (submit_all_queues jobs __init__) as (Hh & Hm & Hl & Hb & Hs & Ha).
    assert (live (submit_all jobs __init__)) as Hlive.
    { unfold live. by rewrite Hs, Ha, Hb. }
    destruct (process_priority_queues_order n _ Hlive) as [-> _].
    unfold handed_over at 1, queued. rewrite Hb, Hh, Hm, Hl. simpl.
    apply take_ge. rewrite !length_app. unfold tier. rewrite !length_fmap.
    pose proof (length_filter (fun job => tier_of job.1 = "high"%string) jobs).
    pose proof (length_filter (fun job => tier_of job.1 = "medium"%string) jobs).
    pose proof (length_filter (fun job => tier_of job.1 = "low"%string) jobs).
    assert (length (filter (fun job => tier_of job.1 = "high"%string) jobs)
            + length (filter (fun job => tier_of job.1 = "medium"%string) jobs)
            + length (filter (fun job => tier_of job.1 = "low"%string) jobs)
            ≤ length jobs)%nat; [|lia].
    clear. induction jobs as [|[pr task] jobs IH]; [done|].
    rewrite !filter_cons. cbn [fst].
    repeat case_decide; simpl; try lia; congruence. }
  split; [|split].
  - intros a b c d n Hn. rewrite Hbatch by (simpl; lia). done.
  - intros p Hlive takes. unfold takes.
    destruct (high p) as [|th h] eqn:Hh.
    + destruct (medium p) as [|tm m] eqn:Hm.
      * destruct (low p) as [|tl l] eqn:Hl.
        -- unfold process_iteration. by rewrite Hh, Hm, Hl.
        -- unfold process_iteration. rewrite Hh, Hm, Hl.
           by destruct (hand_over_live tl [] [] l p Hlive) as (? & ? & ? & ? & ?).
      * unfold process_iteration. rewrite Hh, Hm.
        by destruct (hand_over_live tm [] m (low p) p Hlive) as (? & ? & ? & ? & ?).
    + unfold process_iteration. rewrite Hh.
      by destruct (hand_over_live th h (medium p) (low p) p Hlive)
        as (? & ? & ? & ? & ?).
  - exact Hbatch.
Qed.

Lemma dispatch_order_witness :
  handed_over
    (_process_priority_queues 4
       (submit_all [("high", load_task "a.jpg"); ("low", load_task "b.jpg");
                    ("high", load_task "c.jpg"); ("medium", load_task "d.jpg")]%string
                   __init__))
  = [load_task "a.jpg"; load_task "c.jpg"; load_task "d.jpg"; load_task "b.jpg"]
  ∧ handed_over
      (process_iteration (submit_with_priority "low" (load_task "b.jpg") __init__))
    = [load_task "b.jpg"].
Proof.
  split.
  - apply (proj1 dispatch_order). lia.
  - pose proof (proj1 (proj2 dispatch_order)
                  (submit_with_priority "low" (load_task "b.jpg") __init__)) as H.
    simpl in H. apply H. unfold live. simpl. done.
Defined.
End PriorityDispatch.

(** ** The decoder pool: task ids and callbacks *)

Section DecoderPool.
Import RawDecoderPool.

Lemma pending_inv_mono (N N' : Z) (tasks : gmap Z Callback)
    (called : list (Z * string)) :
  N <= N' → pending_inv N tasks called → pending_inv N' tasks called.
Proof.
  intros HN (H1 & H2 & H3). split; [|split; [|done]].
  - intros id cb H. specialize (H1 id cb H). lia.
  - intros id H. specialize (H2 id H) as [? ?]. split; [lia|done].
Qed.

Lemma pending_inv_clear (N : Z) (tasks : gmap Z Callback)
    (called : list (Z * string)) :
  pending_inv N tasks called → pending_inv N ∅ called.
Proof.
  intros (H1 & H2 & H3). split; [|split; [|done]].
  - intros id cb H. by rewrite lookup_empty in H.
  - intros id H. specialize (H2 id H) as [? _]. split; [done|apply lookup_empty].
Qed.

Lemma pending_inv_register (N : Z) (tasks : gmap Z Callback)
    (called : list (Z * string)) (callback : Callback) :
  pending_inv N tasks called → pending_inv (N + 1) (<[N := callback]> tasks) called.
Proof.
  intros (H1 & H2 & H3). split; [|split; [|done]].
  - intros id cb H. destruct (decide (N = id)) as [<-|Hne]; [lia|].
    rewrite lookup_insert_ne in H by done. specialize (H1 id cb H). lia.
  - intros id H. specialize (H2 id H) as [? ?]. split; [lia|].
    rewrite lookup_insert_ne by lia. done.
Qed.

(** Invoking the callback of a registered id: the id leaves the map and
    joins the record. *)
Lemma pending_inv_invoke (N : Z) (tasks : gmap Z Callback)
    (called : list (Z * string)) (id : Z) (callback : Callback) :
  tasks !! id = Some callback →
  pending_inv N tasks called →
  pending_inv N (delete id tasks) (called ++ [(id, cb_name callback)]).
Proof.
  intros Hid (H1 & H2 & H3). split; [|split].
  - intros id' cb H. apply lookup_delete_Some in H as [_ H]. by apply (H1 id' cb).
  - intros id' H. rewrite fmap_app in H. apply elem_of_app in H as [H|H].
    + specialize (H2 id' H) as [? ?]. split; [done|].
      apply lookup_delete_None. by right.
    + simpl in H. apply list_elem_of_singleton in H as ->. split.
      * by apply (H1 id callback).
      * apply lookup_delete_eq.
  - rewrite fmap_app. apply NoDup_app. split; [done|]. split.
    + intros x Hx Hx'. simpl in Hx'. apply list_elem_of_singleton in Hx' as ->.
      specialize (H2 id Hx) as [_ H2]. congruence.
    + simpl. apply NoDup_singleton.
Qed.

Lemma process_loop_inv (N max_results : Z) (out : list DecodeResult) :
  ∀ (processed : Z) (tasks : gmap Z Callback) (called : list (Z * string)),
    pending_inv N tasks called →
    let '(_, _, tasks', called') :=
      process_loop max_results processed out tasks called in
    pending_inv N tasks' called'.
Proof.
  induction out as [|result out IH]; intros processed tasks called Hinv.
  - cbn [process_loop]. by destruct (_ <? _).
  - cbn [process_loop]. destruct (_ <? _); [|done].
    destruct (tasks !! task_id result) as [callback|] eqn:Hid.
    + pose proof (pending_inv_invoke N tasks called _ callback Hid Hinv) as Hinv'.
      destruct (cb_raises callback result); [done|]. by apply IH.
    + by apply IH.
Qed.

Lemma pool_step_inv (step : PoolStep) (s : t) :
  let s' := (pool_step step s).2 in
  pending_inv (next_task_id s) (tasks s) (called s) →
  pending_inv (next_task_id s') (tasks s') (called s')
  ∧ match (pool_step step s).1 with
    | Some id => id = next_task_id s ∧ next_task_id s' = next_task_id s + 1
    | None => next_task_id s' = next_task_id s
    end.
Proof.
  intros s' Hinv. subst s'. destruct step; simpl.
  - unfold decode_raw. destruct (_running s); simpl; [|done].
    split; [|done]. by apply pending_inv_register.
  - unfold process_results. destruct (_running s); simpl; [|done].
    pose proof (process_loop_inv (next_task_id s) max_results (output_queue s)
                  0 (tasks s) (called s) Hinv) as H.
    destruct (process_loop _ _ _ _ _) as [[[n out] tasks'] called']. done.
  - unfold shutdown. destruct (_running s); simpl; [|done].
    split; [|done]. by eapply pending_inv_clear.
  - split; [|done]. by eapply pending_inv_clear.
  - done.
  - done.
Qed.

Lemma pool_run_inv (steps : list PoolStep) :
  ∀ s : t,
    pending_inv (next_task_id s) (tasks s) (called s) →
    let ids := (pool_run steps s).1 in
    let s' := (pool_run steps s).2 in
    pending_inv (next_task_id s') (tasks s') (called s')
    ∧ next_task_id s <= next_task_id s'
    ∧ Forall (fun id => next_task_id s <= id < next_task_id s') ids
    ∧ StronglySorted Z.lt ids.
Proof.
  induction steps as [|step steps IH]; intros s Hinv.
  - simpl. split; [done|]. split; [lia|]. split; constructor.
  - cbn [pool_run].
    destruct (pool_step_inv step s Hinv) as [Hinv1 Hret].
    destruct (pool_step step s) as [returned s1]. cbn [fst snd] in *.
    specialize (IH s1 Hinv1) as (Hinv2 & Hle & Hids & Hsorted).
    destruct (pool_run steps s1) as [ids s2]. cbn [fst snd] in *.
    destruct returned as [id|].
    + destruct Hret as [-> Hnext]. split; [done|]. split; [lia|]. split.
      * constructor; [lia|]. eapply Forall_impl; [exact Hids|]. simpl. lia.
      * constructor; [done|]. eapply Forall_impl; [exact Hids|]. simpl. lia.
    + rewrite Hret in *. done.
Qed.

Lemma StronglySorted_lt_NoDup (ids : list Z) : StronglySorted Z.lt ids → NoDup ids.
Proof.
  induction 1 as [|id ids Hs IH Hall]; constructor; [|done].
  intros Hin. rewrite Forall_forall in Hall. specialize (Hall id Hin). lia.
Qed.

(** Submissions on a running pool, one after the other: every one returns
    an id, the ids are consecutive from [next_task_id], every callback is
    registered under its id and every request is queued with it. *)
Lemma decode_all_running (subs : list (string * Callback)) :
  ∀ s : t,
    _running s = true →
    let after := pool_run ((fun sub => DecodeRaw sub.1 sub.2) <$> subs) s in
    after.1 = seqZ (next_task_id s) (Z.of_nat (length subs))
    ∧ _running after.2 = true
    ∧ next_task_id after.2 = next_task_id s + Z.of_nat (length subs)
    ∧ input_queue after.2
      = input_queue s
        ++ zip_with (fun sub id => Some (sub.1, id)) subs
                    (seqZ (next_task_id s) (Z.of_nat (length subs)))
    ∧ (∀ (i : nat) sub, subs !! i = Some sub →
         tasks after.2 !! (next_task_id s + Z.of_nat i) = Some sub.2)
    ∧ (∀ id, id < next_task_id s → tasks after.2 !! id = tasks s !! id)
    ∧ called after.2 = called s
    ∧ output_queue after.2 = output_queue s.
Proof.
  induction subs as [|[path callback] subs IH]; intros s Hrun.
  - cbn. rewrite app_nil_r. repeat split; try done. lia.
  - set (s1 := mk (input_queue s ++ [Some (path, next_task_id s)]) (output_queue s)
                  (processes s) (next_task_id s + 1)
                  (<[next_task_id s := callback]> (tasks s)) true (called s)
                  (process_log s)).
    assert (decode_raw path callback s = (Some (next_task_id s), s1)) as Hdec
      by (unfold decode_raw; by rewrite Hrun).
    rewrite fmap_cons. cbn [pool_run pool_step fst snd]. rewrite Hdec.
    destruct (IH s1 eq_refl) as (Hids & Hrun1 & Hnext & Hin & Htasks & Hold & Hc & Ho).
    cbv zeta in Hids, Hrun1, Hnext, Hin, Htasks, Hold, Hc, Ho.
    destruct (pool_run ((fun sub => DecodeRaw sub.1 sub.2) <$> subs) s1)
      as [ids s2].
    clear Hdec. subst s1.
    cbn [fst snd next_task_id input_queue tasks called output_queue] in *.
    cbn [length]. rewrite (seqZ_cons (next_task_id s)) by lia.
    replace (Z.pred (Z.of_nat (S (length subs)))) with (Z.of_nat (length subs)) by lia.
    replace (Z.succ (next_task_id s)) with (next_task_id s + 1) by lia.
    split; [by rewrite Hids|]. split; [done|]. split; [lia|].
    split; [rewrite Hin, <- app_assoc; done|].
    split; [|split; [|done]].
    + intros [|i] sub Hsub.
      * injection Hsub as <-. cbn [snd]. rewrite Hold by lia.
        replace (next_task_id s + Z.of_nat 0) with (next_task_id s) by lia.
        apply lookup_insert_eq.
      * replace (next_task_id s + Z.of_nat (S i))
          with (next_task_id s + 1 + Z.of_nat i) by lia.
        by apply Htasks.
    + intros id Hid. rewrite Hold by lia. apply lookup_insert_ne. lia.
Qed.

Lemma process_loop_called_prefix (max_results : Z) (out : list DecodeResult) :
  ∀ (processed : Z) (tasks : gmap Z Callback) (called : list (Z * string)),
    let '(_, _, _, called') :=
      process_loop max_results processed out tasks called in
    called `prefix_of` called'.
Proof.
  induction out as [|result out IH]; intros processed tasks called.
  - cbn [process_loop]. by destruct (_ <? _).
  - cbn [process_loop]. destruct (_ <? _); [|done].
    destruct (tasks !! task_id result) as [callback|]; [|apply IH].
    destruct (cb_raises callback result); [by apply prefix_app_r|].
    specialize (IH (processed + 1) (delete (task_id result) tasks)
                  (called ++ [(task_id result, cb_name callback)])).
    destruct (process_loop _ _ _ _ _) as [[[n out'] tasks'] called'].
    etrans; [|exact IH]. by apply prefix_app_r.
Qed.

(** C3.  Whatever has happened to a pool since [__init__] (submissions,
    result processing, cancellation, worker passes, arbitrary changes of
    the two queues, shutdown), the task ids it has returned are strictly
    increasing, hence pairwise distinct, and no task id has had its callback
    invoked twice: an invoked id is out of the pending map and below
    [next_task_id], so it is never registered again.  If the pool is then
    running, every submission of a further sequence returns an id, the ids
    being [next_task_id], [next_task_id + 1], ... in order, each callback
    registered under its id and each request queued with it; and a result
    at the head of the output queue whose id is registered has its callback
    invoked by the next poll, for the first time, the id being out of the
    map afterwards whether or not the callback raised. *)
Theorem task_ids_increase_callbacks_fire_once
    (workers : list Process) (steps : list PoolStep)
    (subs : list (string * Callback)) :
  let ids := (pool_run steps (__init__ workers)).1 in
  let s := (pool_run steps (__init__ workers)).2 in
  (StronglySorted Z.lt ids
   ∧ NoDup ids
   ∧ NoDup (called s).*1
   ∧ ∀ id, id ∈ (called s).*1 → tasks s !! id = None ∧ id < next_task_id s)
  ∧ (_running s = true →
     let after := pool_run ((fun sub => DecodeRaw sub.1 sub.2) <$> subs) s in
     after.1 = seqZ (next_task_id s) (Z.of_nat (length subs))
     ∧ length after.1 = length subs
     ∧ Forall (fun id => ∀ earlier, earlier ∈ ids → earlier < id) after.1
     ∧ _running after.2 = true
     ∧ input_queue after.2
       = input_queue s
         ++ zip_with (fun sub id => Some (sub.1, id)) subs after.1
     ∧ (∀ (i : nat) sub, subs !! i = Some sub →
          tasks after.2 !! (next_task_id s + Z.of_nat i) = Some sub.2)
     ∧ called after.2 = called s)
  ∧ (∀ (result : DecodeResult) (rest : list DecodeResult) (callback : Callback)
       (max_results : Z),
       _running s = true → output_queue s = result :: rest →
       tasks s !! task_id result = Some callback → 1 <= max_results →
       let s' := (process_results max_results s).2 in
       (task_id result ∉ (called s).*1)
       ∧ (task_id result, cb_name callback) ∈ called s'
       ∧ tasks s' !! task_id result = None
       ∧ NoDup (called s').*1).
Proof.
  intros ids s.
  assert (pending_inv (next_task_id (__init__ workers)) (tasks (__init__ workers))
            (called (__init__ workers))) as Hinit.
  { split; [|split]; simpl.
    - intros id cb H. by rewrite lookup_empty in H.
    - intros id H. by apply elem_of_nil in H.
    - constructor. }
  destruct (pool_run_inv steps _ Hinit) as (Hinv & _ & Hids & Hsorted).
  fold ids s in Hinv, Hids, Hsorted.
  pose proof Hinv as (H1 & H2 & H3).
  split; [|split].
  - split; [done|]. split; [by apply StronglySorted_lt_NoDup|]. split; [done|].
    intros id Hid. specialize (H2 id Hid) as [? ?]. done.
  - intros Hrun after.
    destruct (decode_all_running subs s Hrun)
      as (Hret & Hrun' & _ & Hin & Htasks & _ & Hcalled & _).
    fold after in Hret, Hrun', Hin, Htasks, Hcalled.
    split; [done|]. split; [rewrite Hret, length_seqZ; lia|].
    split; [|split; [done|]; split; [by rewrite Hret|]; split; done].
    rewrite Hret. apply Forall_forall. intros id Hid earlier Hearlier.
    apply elem_of_seqZ in Hid. rewrite Forall_forall in Hids.
    specialize (Hids earlier Hearlier). lia.
  - intros result rest callback max_results Hrun Hout Hid Hmax s'.
    assert (task_id result ∉ (called s).*1) as Hfresh.
    { intros Hin. destruct (H2 _ Hin) as [_ Hnone]. congruence. }
    split; [done|].
    pose proof (pending_inv_invoke (next_task_id s) (tasks s) (called s)
                  (task_id result) callback Hid Hinv) as Hinv1.
    assert ((task_id result, cb_name callback) ∈ called s'
            ∧ pending_inv (next_task_id s) (tasks s') (called s')) as [Hin Hinv'].
    { subst s'. unfold process_results. rewrite Hrun, Hout. cbn [negb].
      cbn [process_loop]. destruct (Z.ltb_spec 0 max_results); [|lia].
      rewrite Hid. destruct (cb_raises callback result).
      - cbn [snd called tasks]. split; [|done].
        apply elem_of_app. right. by left.
      - pose proof (process_loop_called_prefix max_results rest (0 + 1)
                      (delete (task_id result) (tasks s))
                      (called s ++ [(task_id result, cb_name callback)])) as Hpre.
        pose proof (process_loop_inv (next_task_id s) max_results rest (0 + 1)
                      (delete (task_id result) (tasks s))
                      (called s ++ [(task_id result, cb_name callback)]) Hinv1)
          as Hinv2.
        destruct (process_loop _ _ _ _ _) as [[[n out'] tasks'] called'].
        cbn [snd called tasks]. split; [|done].
        destruct Hpre as [more ->]. apply elem_of_app. left.
        apply elem_of_app. right. by left. }
    split; [done|]. destruct Hinv' as (_ & Hgone & Hnd). split; [|done].
    apply (Hgone (task_id result)).
    by apply (list_elem_of_fmap_2 fst (called s') (task_id result, cb_name callback)).
Qed.

(** Three steps, then two more submissions: they return the ids 1 and 2. *)
Lemma task_ids_increase_callbacks_fire_once_witness :
  let steps :=
    [DecodeRaw "a.cr2" cbA; WorkerPass sample_rawpy (Some 40%Q) 1; ProcessResults 5] in
  let s := (pool_run steps (__init__ two_workers)).2 in
  (pool_run [DecodeRaw "b.nef" cbB; DecodeRaw "x.raw" cbA] s).1 = [1; 2]
  ∧ called s = [(0, "cbA"%string)].
Proof.
  intros steps s.
  destruct (task_ids_increase_callbacks_fire_once two_workers steps
              [("b.nef"%string, cbB); ("x.raw"%string, cbA)]) as (_ & Hsubs & _).
  destruct (Hsubs eq_refl) as (Hret & _).
  split; [exact Hret|reflexivity].
Defined.

(** Scenario B of the specification: two submissions; polling before any
    worker has finished processes nothing; after both have finished one
    poll processes both, each callback once, in completion order. *)
Example scenario_B :
  let '(idA, s1) := decode_raw "a.cr2" cbA (__init__ two_workers) in
  let '(idB, s2) := decode_raw "b.nef" cbB s1 in
  let '(early, s3) := process_results 5 s2 in
  let s4 := (pool_step (WorkerPass sample_rawpy (Some 40%Q) 0) s3).2 in
  let s5 := (pool_step (WorkerPass sample_rawpy (Some 40%Q) 1) s4).2 in
  let '(late, s6) := process_results 5 s5 in
  idA = Some 0 ∧ idB = Some 1 ∧ early = 0 ∧ called s3 = []
  ∧ late = 2 ∧ called s6 = [(0, "cbA"); (1, "cbB")]%string
  ∧ tasks s6 = ∅ ∧ output_queue s6 = [].
Proof. vm_compute. done. Qed.

(** The count and the budget move together. *)
Lemma process_loop_shift (k : Z) (out : list DecodeResult) :
  ∀ (max_results processed : Z) (tasks : gmap Z Callback)
    (called : list (Z * string)),
    process_loop (max_results + k) (processed + k) out tasks called
    = let '(n, out', tasks', called') :=
        process_loop max_results processed out tasks called in
      (n + k, out', tasks', called').
Proof.
  induction out as [|result out IH]; intros max_results processed tasks called.
  - cbn [process_loop].
    replace (processed + k <? max_results + k) with (processed <? max_results)
      by (destruct (Z.ltb_spec processed max_results),
                   (Z.ltb_spec (processed + k) (max_results + k)); lia).
    by destruct (_ <? _).
  - cbn [process_loop].
    replace (processed + k <? max_results + k) with (processed <? max_results)
      by (destruct (Z.ltb_spec processed max_results),
                   (Z.ltb_spec (processed + k) (max_results + k)); lia).
    destruct (_ <? _); [|done].
    replace (processed + k + 1) with (processed + 1 + k) by lia.
    destruct (tasks !! task_id result) as [callback|]; [|apply IH].
    destruct (cb_raises callback result); [done|apply IH].
Qed.

(** C10.  A result whose task id has no callback in the pending map is
    taken off the output queue without any invocation and without a change
    to the map, and it counts: polling with budget [max_results] over a
    queue headed by such a result does what polling with budget
    [max_results - 1] does over the rest of the queue, and returns one
    more.  With a budget of one the poll returns 1 and touches nothing but
    the queue, whatever waits behind the orphan. *)
Theorem orphan_result_is_counted (s : t) (result : DecodeResult)
    (rest : list DecodeResult) (max_results : Z) :
  _running s = true →
  output_queue s = result :: rest →
  tasks s !! task_id result = None →
  1 <= max_results →
  process_results max_results s
  = ((process_results (max_results - 1) (with_queues (input_queue s) rest s)).1 + 1,
     (process_results (max_results - 1) (with_queues (input_queue s) rest s)).2)
  ∧ process_results 1 s = (1, with_queues (input_queue s) rest s).
Proof.
  intros Hrun Hout Horphan Hmax.
  assert (∀ m, 1 <= m →
            process_results m s
            = ((process_results (m - 1) (with_queues (input_queue s) rest s)).1 + 1,
               (process_results (m - 1) (with_queues (input_queue s) rest s)).2))
    as Hgen.
  { intros m Hm. unfold process_results, with_queues. simpl. rewrite Hrun, Hout. simpl.
    cbn [process_loop]. rewrite Horphan.
    destruct (Z.ltb_spec 0 m) as [_|?]; [|lia].
    pose proof (process_loop_shift 1 rest (m - 1) 0 (tasks s) (called s)) as Hshift.
    replace (m - 1 + 1) with m in Hshift by lia. simpl in Hshift. rewrite Hshift.
    by destruct (process_loop (m - 1) 0 rest (tasks s) (called s))
      as [[[n out'] tasks'] called']. }
  split; [by apply Hgen|].
  rewrite Hgen by lia. unfold process_results, with_queues. simpl. rewrite Hrun. simpl.
  destruct rest; simpl; destruct s; simpl in *; by subst.
Qed.

Lemma orphan_result_is_counted_witness :
  let s := with_queues [] [orphan_result; RawDecoder.decode sample_rawpy "b.nef" 0]
             (decode_raw "b.nef" cbB (__init__ two_workers)).2 in
  process_results 1 s
  = (1, with_queues [] [RawDecoder.decode sample_rawpy "b.nef" 0] s)
  ∧ (process_results 2 s).1 = 2.
Proof.
  intros s. split.
  - apply (orphan_result_is_counted s orphan_result
             [RawDecoder.decode sample_rawpy "b.nef" 0] 1);
      [reflexivity|reflexivity|reflexivity|lia].
  - rewrite (proj1 (orphan_result_is_counted s orphan_result
                      [RawDecoder.decode sample_rawpy "b.nef" 0] 2
                      eq_refl eq_refl eq_refl ltac:(lia))).
    reflexivity.
Defined.
End DecoderPool.

(** ** Failed RAW decodes *)

Section FailClosed.

Lemma add_to_cache_rejects (file_path : string) (pixmap : option QPixmap)
    (loader : ImageLoader.t) :
  pixmap_ok pixmap = false →
  ImageLoader._add_to_cache file_path pixmap loader = loader.
Proof.
  unfold pixmap_ok, ImageLoader._add_to_cache.
  destruct pixmap as [pm|]; [|done]. by intros ->.
Qed.

Lemma on_raw_decoded_failure (fromImage : DecodeResult → QPixmap)
    (relevant : bool) (result : DecodeResult) (loader : ImageLoader.t) :
  success result = false →
  PhotoSortApp._on_raw_decoded_for_display fromImage relevant result loader = loader.
Proof.
  intros Hfail. unfold PhotoSortApp._on_raw_decoded_for_display.
  rewrite Hfail. by destruct relevant.
Qed.

(** Whatever the callback does to the cache goes through a non-null
    pixmap. *)
Lemma on_raw_decoded_inserts_valid (fromImage : DecodeResult → QPixmap)
    (relevant : bool) (result : DecodeResult) (loader : ImageLoader.t) :
  PhotoSortApp._on_raw_decoded_for_display fromImage relevant result loader = loader
  ∨ (success result = true
     ∧ isNull (fromImage result) = false
     ∧ PhotoSortApp._on_raw_decoded_for_display fromImage relevant result loader
       = ImageLoader._add_to_cache (file_path result) (Some (fromImage result)) loader).
Proof.
  unfold PhotoSortApp._on_raw_decoded_for_display.
  destruct relevant; simpl; [|by left].
  destruct (success result); [|by left].
  destruct (data result) as [d|]; [|by left].
  destruct (shape result) as [[|? [|? [|? [|? ?]]]]|]; try by left.
  destruct (bool_decide _); [by left|].
  destruct (isNull (fromImage result)) eqn:Hnull; [by left|].
  right. done.
Qed.

Lemma decode_raises (rawpy : string → RawpyOutcome) (file_path : string)
    (task_id : Z) (e : PyException) :
  rawpy file_path = ImreadRaises e ∨ rawpy file_path = PostprocessRaises e →
  RawDecoder.decode rawpy file_path task_id = RawDecoder.failure task_id file_path e.
Proof. unfold RawDecoder.decode. by intros [-> | ->]. Qed.

(** Every dictionary the worker puts on the output queue carries the
    request's task id and path, and a failure carries an error text: that
    of the exception if one was raised, a fixed text otherwise. *)
Lemma decode_failure_has_error (rawpy : string → RawpyOutcome) (path : string)
    (id : Z) :
  let r := RawDecoder.decode rawpy path id in
  task_id r = id
  ∧ file_path r = path
  ∧ (success r = false →
     ∃ msg, error r = Some msg
            ∧ ((∀ e, rawpy path = ImreadRaises e
                     ∨ rawpy path = PostprocessRaises e → exc_str e ≠ ""%string)
               → msg ≠ ""%string)).
Proof.
  unfold RawDecoder.decode.
  destruct (rawpy path) as [e|e|rgb] eqn:Hr; simpl.
  - split; [done|]. split; [done|]. intros _. exists (exc_str e). split; [done|].
    intros H. apply (H e). by left.
  - split; [done|]. split; [done|]. intros _. exists (exc_str e). split; [done|].
    intros H. apply (H e). by right.
  - destruct (nd_shape rgb !! 1%nat) as [w|]; [destruct (nd_shape rgb !! 0%nat) as [h|]|];
      simpl.
    + destruct (bool_decide (nd_dtype rgb = "uint8"%string)
                && bool_decide (length (nd_shape rgb) = 3%nat)); simpl.
      * split; [done|]. split; [done|]. discriminate.
      * split; [done|]. split; [done|]. intros _. eexists. split; [done|].
        intros _. discriminate.
    + split; [done|]. split; [done|]. intros _. eexists. split; [done|].
      intros _. discriminate.
    + split; [done|]. split; [done|]. intros _. eexists. split; [done|].
      intros _. discriminate.
Qed.

(** C5, counterexample.  At 97% memory usage the pass that takes a request
    for an unsupported file puts no result on the output queue: the request
    goes back on the input queue, and as long as the readings stay there,
    however many passes are made, no result is produced.  And a request for
    a file on which [postprocess] raises an exception with no text is
    answered with [success = False] and the empty string as its error. *)
Lemma raw_decode_error_can_be_empty :
  let silent := fun _ : string => PostprocessRaises (mkException "LibRawError" "") in
  let w := RawDecoder.mk [Some ("broken.cr2"%string, 3)] [] false 0 false in
  (RawDecoder.output_queue (RawDecoder.iteration sample_rawpy (Some 97%Q) 10 w) = []
   ∧ RawDecoder.input_queue (RawDecoder.iteration sample_rawpy (Some 97%Q) 10 w)
     = [Some ("broken.cr2"%string, 3)])
  ∧ (∀ passes : nat,
       RawDecoder.output_queue
         (worker_run sample_rawpy (replicate passes (Some 97%Q, 10%Q)) w) = [])
  ∧ RawDecoder.output_queue (RawDecoder.iteration silent (Some 40%Q) 10 w)
    = [mkResult 3 "broken.cr2" false None None None None None (Some ""%string)].
Proof.
  intros silent w. split; [by vm_compute|]. split; [|by vm_compute].
  intros passes.
  assert (worker_run sample_rawpy (replicate passes (Some 97%Q, 10%Q)) w = w) as ->;
    [|done].
  induction passes as [|passes IH]; [done|].
  cbn [replicate]. unfold worker_run in *. cbn [foldl fst snd].
  assert (RawDecoder.iteration sample_rawpy (Some 97%Q) 10 w = w) as ->
    by (by vm_compute).
  exact IH.
Qed.

(** C5, amended.  A request for a file on which [rawpy] raises: the
    dictionary the worker builds has [success = False], the task id and the
    path of the request, and [str(e)] as its error, empty exactly when the
    exception has no text; it is what the pass that takes the request puts
    on the output queue, unless memory usage is above 95%, in which case
    the request goes back on the input queue and nothing is put.  Neither
    the decode callback, given that dictionary or any other failure, nor
    [_add_to_cache], given no pixmap or a null one, changes the cache. *)
Theorem raw_decode_fails_closed
    (rawpy : string → RawpyOutcome) (memory_percent : option Q) (now : Q)
    (w : RawDecoder.t) (path : string) (id : Z)
    (q : list (option (string * Z))) (e : PyException) :
  RawDecoder.exited w = false →
  RawDecoder.input_queue w = Some (path, id) :: q →
  rawpy path = ImreadRaises e ∨ rawpy path = PostprocessRaises e →
  let w' := RawDecoder.iteration rawpy memory_percent now w in
  let r := RawDecoder.decode rawpy path id in
  (success r = false ∧ task_id r = id ∧ file_path r = path
   ∧ error r = Some (exc_str e)
   ∧ (error r = Some ""%string ↔ exc_str e = ""%string)
   ∧ data r = None)
  ∧ (match memory_percent with Some m => (m <= 95)%Q | None => True end →
     RawDecoder.output_queue w' = RawDecoder.output_queue w ++ [r]
     ∧ RawDecoder.input_queue w' = q ∧ RawDecoder.exited w' = false)
  ∧ (∀ m, memory_percent = Some m → (95 < m)%Q →
     RawDecoder.output_queue w' = RawDecoder.output_queue w
     ∧ RawDecoder.input_queue w' = q ++ [Some (path, id)]
     ∧ RawDecoder.exited w' = false)
  ∧ (∀ fromImage relevant loader,
       PhotoSortApp._on_raw_decoded_for_display fromImage relevant r loader = loader)
  ∧ (∀ fromImage relevant result loader,
       success result = false →
       PhotoSortApp._on_raw_decoded_for_display fromImage relevant result loader
       = loader)
  ∧ (∀ file_path pixmap loader,
       pixmap_ok pixmap = false →
       ImageLoader._add_to_cache file_path pixmap loader = loader).
Proof.
  intros Hexit Hin Hraise w' r.
  assert (r = RawDecoder.failure id path e) as Hr by by apply decode_raises.
  split; [|split; [|split; [|split; [|split]]]].
  - rewrite Hr. simpl. repeat split; try done; congruence.
  - intros Hmem. unfold w', RawDecoder.iteration. rewrite Hexit, Hin.
    destruct memory_percent as [m|]; [|done].
    apply Qgtb_false in Hmem. rewrite Hmem.
    by destruct (_ && _), (Qle_bool m 75).
  - intros m -> Hm. unfold w', RawDecoder.iteration. rewrite Hexit, Hin.
    apply Qgtb_true in Hm. rewrite Hm.
    by destruct (_ && _), (Qle_bool m 75).
  - intros fromImage relevant loader. apply on_raw_decoded_failure. by rewrite Hr.
  - intros fromImage relevant result loader. apply on_raw_decoded_failure.
  - intros file_path pixmap loader. apply add_to_cache_rejects.
Qed.

Lemma raw_decode_fails_closed_witness :
  let w := RawDecoder.mk [Some ("broken.cr2"%string, 3)] [] false 0 false in
  let w' := RawDecoder.iteration sample_rawpy (Some 40%Q) 10 w in
  RawDecoder.output_queue w'
  = [mkResult 3 "broken.cr2" false None None None None None
       (Some "Unsupported file format or not RAW file"%string)]
  ∧ PhotoSortApp._on_raw_decoded_for_display (fun _ => sample_pixmap) true
      (RawDecoder.decode sample_rawpy "broken.cr2" 3) (loader_holding 10 [])
    = loader_holding 10 [].
Proof.
  intros w w'.
  pose proof (raw_decode_fails_closed sample_rawpy (Some 40%Q) 10 w
                "broken.cr2"%string 3 [] unsupported_file
                eq_refl eq_refl (or_introl eq_refl)) as H.
  split.
  - apply (proj1 (proj2 H)). vm_compute. discriminate.
  - apply (proj1 (proj2 (proj2 (proj2 H)))).
Defined.
End FailClosed.

(** ** The manager: cancellation *)

Section Cancellation.
Import ResourceManager.

Lemma cancel_future_futures (f : nat) (s : t) (g : nat) :
  futures (cancel_future f s) !! g
  = if decide (g = f) then after_cancel (futures s !! g) else futures s !! g.
Proof.
  unfold futures at 2 3. unfold cancel_future.
  set (b := PriorityThreadPoolExecutor.base (imaging_thread_pool s)).
  unfold ThreadPoolExecutor.cancel.
  destruct (ThreadPoolExecutor.futures b !! f) as [[]|] eqn:Hf;
    unfold futures, set_base, set_pool; simpl;
    (destruct (decide (g = f)) as [->|Hne];
     [rewrite ?lookup_insert_eq, ?Hf; done
     |rewrite ?lookup_insert_ne by done; done]).
Qed.

Lemma cancel_future_frame (f : nat) (s : t) :
  let s' := cancel_future f s in
  pending_tasks s' = pending_tasks s
  ∧ _running s' = _running s
  ∧ raw_decoder_pool s' = raw_decoder_pool s
  ∧ active_tasks s' ⊆ active_tasks s
  ∧ PriorityThreadPoolExecutor.high (imaging_thread_pool s')
    = PriorityThreadPoolExecutor.high (imaging_thread_pool s)
  ∧ PriorityThreadPoolExecutor.medium (imaging_thread_pool s')
    = PriorityThreadPoolExecutor.medium (imaging_thread_pool s)
  ∧ PriorityThreadPoolExecutor.low (imaging_thread_pool s')
    = PriorityThreadPoolExecutor.low (imaging_thread_pool s).
Proof.
  unfold cancel_future.
  set (b := PriorityThreadPoolExecutor.base (imaging_thread_pool s)).
  unfold ThreadPoolExecutor.cancel.
  destruct (ThreadPoolExecutor.futures b !! f) as [[]|];
    unfold set_base, set_pool; simpl; repeat split; try done;
    apply subseteq_difference_l; done.
Qed.

Lemma cancel_futures_frame (fs : list nat) (s : t) :
  let s' := cancel_futures fs s in
  pending_tasks s' = pending_tasks s
  ∧ _running s' = _running s
  ∧ raw_decoder_pool s' = raw_decoder_pool s
  ∧ active_tasks s' ⊆ active_tasks s
  ∧ PriorityThreadPoolExecutor.high (imaging_thread_pool s')
    = PriorityThreadPoolExecutor.high (imaging_thread_pool s)
  ∧ PriorityThreadPoolExecutor.medium (imaging_thread_pool s')
    = PriorityThreadPoolExecutor.medium (imaging_thread_pool s)
  ∧ PriorityThreadPoolExecutor.low (imaging_thread_pool s')
    = PriorityThreadPoolExecutor.low (imaging_thread_pool s).
Proof.
  revert s. induction fs as [|f fs IH]; intros s; [done|].
  change (cancel_futures (f :: fs) s) with (cancel_futures fs (cancel_future f s)).
  destruct (IH (cancel_future f s)) as (H1 & H2 & H3 & H4 & H5 & H6 & H7).
  destruct (cancel_future_frame f s) as (G1 & G2 & G3 & G4 & G5 & G6 & G7).
  cbv zeta in *. rewrite H1, H2, H3, H5, H6, H7. repeat split; try done.
  by etrans.
Qed.

Lemma after_cancel_idemp (st : option FutureState) :
  after_cancel (after_cancel st) = after_cancel st.
Proof. by destruct st as [[]|]. Qed.

(** Cancelling a list of futures touches those futures only. *)
Lemma cancel_futures_futures (fs : list nat) (s : t) (g : nat) :
  futures (cancel_futures fs s) !! g
  = if decide (g ∈ fs) then after_cancel (futures s !! g) else futures s !! g.
Proof.
  revert s. induction fs as [|f fs IH]; intros s.
  - destruct (decide (g ∈ [])) as [H|_]; [by apply elem_of_nil in H|done].
  - change (cancel_futures (f :: fs) s) with (cancel_futures fs (cancel_future f s)).
    rewrite IH, cancel_future_futures.
    destruct (decide (g = f)) as [->|Hne].
    + destruct (decide (f ∈ f :: fs)) as [_|Hout]; [|exfalso; apply Hout; by left].
      destruct (decide (f ∈ fs)); [apply after_cancel_idemp|done].
    + destruct (decide (g ∈ fs)) as [Hin|Hout],
               (decide (g ∈ f :: fs)) as [Hin'|Hout']; try done.
      * exfalso. apply Hout'. by right.
      * apply elem_of_cons in Hin' as [?|?]; done.
Qed.
End Cancellation.

(** ** The memory monitor *)

Section Monitor.
Import ResourceManager.

(** The state between the two halves of [cancel_low_priority_tasks]. *)
Lemma cancel_low_priority_tasks_unfold (s : t) :
  cancel_low_priority_tasks s
  = let s1 :=
      match pending_tasks s !! "low"%string with
      | Some tasks =>
          let s0 := cancel_futures tasks s in
          mk (imaging_thread_pool s0) (raw_decoder_pool s0) (active_tasks s0)
             (<["low"%string := []]> (pending_tasks s0)) (_running s0)
      | None => s
      end in
    match pending_tasks s !! "medium"%string with
    | Some tasks =>
        if Z.of_nat (length tasks) >? 4 then
          let keep := Z.to_nat (Z.of_nat (length tasks) / 2) in
          cancel_futures (drop keep tasks)
            (mk (imaging_thread_pool s1) (raw_decoder_pool s1) (active_tasks s1)
                (<["medium"%string := take keep tasks]> (pending_tasks s1))
                (_running s1))
        else s1
    | None => s1
    end.
Proof.
  unfold cancel_low_priority_tasks. cbv zeta.
  assert (∀ s1 : t,
            pending_tasks s1 !! "medium"%string = pending_tasks s !! "medium"%string →
            match pending_tasks s1 !! "medium"%string with
            | Some tasks =>
                if Z.of_nat (length tasks) >? 4 then
                  cancel_futures (drop (Z.to_nat (Z.of_nat (length tasks) / 2)) tasks)
                    (mk (imaging_thread_pool s1) (raw_decoder_pool s1) (active_tasks s1)
                       (<["medium"%string :=
                            take (Z.to_nat (Z.of_nat (length tasks) / 2)) tasks]>
                          (pending_tasks s1))
                       (_running s1))
                else s1
            | None => s1
            end
            = match pending_tasks s !! "medium"%string with
              | Some tasks =>
                  if Z.of_nat (length tasks) >? 4 then
                    cancel_futures (drop (Z.to_nat (Z.of_nat (length tasks) / 2)) tasks)
                      (mk (imaging_thread_pool s1) (raw_decoder_pool s1) (active_tasks s1)
                         (<["medium"%string :=
                              take (Z.to_nat (Z.of_nat (length tasks) / 2)) tasks]>
                            (pending_tasks s1))
                         (_running s1))
                  else s1
              | None => s1
              end) as H by (by intros s1 ->).
  apply H. destruct (pending_tasks s !! "low"%string) as [tasks|]; [|done].
  simpl. rewrite lookup_insert_ne by done.
  by destruct (cancel_futures_frame tasks s) as (-> & _).
Qed.

(** [monitor_resources] never touches the three queues of the priority
    executor. *)
Lemma monitor_resources_leaves_queues (memory_percent : option Q) (s : t) :
  let s' := monitor_resources memory_percent s in
  PriorityThreadPoolExecutor.high (imaging_thread_pool s')
  = PriorityThreadPoolExecutor.high (imaging_thread_pool s)
  ∧ PriorityThreadPoolExecutor.medium (imaging_thread_pool s')
    = PriorityThreadPoolExecutor.medium (imaging_thread_pool s)
  ∧ PriorityThreadPoolExecutor.low (imaging_thread_pool s')
    = PriorityThreadPoolExecutor.low (imaging_thread_pool s).
Proof.
  unfold monitor_resources. destruct (_running s); [|done]. simpl.
  destruct memory_percent as [m|]; [|done].
  destruct (Qgtb m 95); [|done].
  rewrite cancel_low_priority_tasks_unfold. cbv zeta.
  set (s1 := match pending_tasks s !! "low"%string with Some _ => _ | None => s end).
  assert (PriorityThreadPoolExecutor.high (imaging_thread_pool s1)
          = PriorityThreadPoolExecutor.high (imaging_thread_pool s)
          ∧ PriorityThreadPoolExecutor.medium (imaging_thread_pool s1)
            = PriorityThreadPoolExecutor.medium (imaging_thread_pool s)
          ∧ PriorityThreadPoolExecutor.low (imaging_thread_pool s1)
            = PriorityThreadPoolExecutor.low (imaging_thread_pool s)) as Hs1.
  { unfold s1. destruct (pending_tasks s !! "low"%string) as [tasks|]; [|done].
    simpl. by destruct (cancel_futures_frame tasks s) as (_ & _ & _ & _ & -> & -> & ->). }
  destruct (pending_tasks s !! "medium"%string) as [tasks|]; [|done].
  destruct (_ >? _); [|done].
  match goal with
  | |- context [cancel_futures ?fs ?s0] =>
      destruct (cancel_futures_frame fs s0) as (_ & _ & _ & _ & -> & -> & ->)
  end.
  done.
Qed.

(** What [monitor_resources] does above 95% to futures that are recorded
    in [pending_tasks]: every future under ['low'] is cancelled and that
    list is emptied; of the futures under ['medium'] the first
    [floor(n / 2)] are kept and the others cancelled when there are more
    than four of them, and all are kept otherwise.  (Cancelling takes a
    pending future to cancelled and leaves a running or finished one as it
    is.) *)
Lemma cancel_low_priority_tasks_on_recorded (s : t) (memory_percent : Q) :
  _running s = true →
  (95 < memory_percent)%Q →
  let s' := monitor_resources (Some memory_percent) s in
  (∀ tasks, pending_tasks s !! "low"%string = Some tasks →
     pending_tasks s' !! "low"%string = Some []
     ∧ ∀ f, f ∈ tasks → futures s' !! f = after_cancel (futures s !! f))
  ∧ (∀ tasks, pending_tasks s !! "medium"%string = Some tasks →
     let keep := Z.to_nat (Z.of_nat (length tasks) / 2) in
     if Z.of_nat (length tasks) >? 4
     then pending_tasks s' !! "medium"%string = Some (take keep tasks)
          ∧ ∀ f, f ∈ drop keep tasks →
                 futures s' !! f = after_cancel (futures s !! f)
     else pending_tasks s' !! "medium"%string = Some tasks).
Proof.
  intros Hrun Hmem s'. subst s'. unfold monitor_resources. rewrite Hrun. simpl.
  apply Qgtb_true in Hmem. rewrite Hmem.
  rewrite cancel_low_priority_tasks_unfold. cbv zeta.
  set (s1 := match pending_tasks s !! "low"%string with Some _ => _ | None => s end).
  assert (∀ tasks, pending_tasks s !! "low"%string = Some tasks →
            pending_tasks s1 !! "low"%string = Some []
            ∧ ∀ f, f ∈ tasks → futures s1 !! f = after_cancel (futures s !! f)) as Hlow.
  { intros tasks Hl. unfold s1. rewrite Hl. simpl. split; [apply lookup_insert_eq|].
    intros f Hf.
    change (futures (cancel_futures tasks s) !! f = after_cancel (futures s !! f)).
    rewrite cancel_futures_futures. by rewrite decide_True. }
  assert (pending_tasks s1 !! "medium"%string = pending_tasks s !! "medium"%string)
    as Hmed.
  { unfold s1. destruct (pending_tasks s !! "low"%string) as [tasks|]; [|done].
    simpl. rewrite lookup_insert_ne by done.
    by destruct (cancel_futures_frame tasks s) as (-> & _). }
  assert (∀ f, futures s1 !! f = futures s !! f
               ∨ futures s1 !! f = after_cancel (futures s !! f)) as Hs1.
  { intros f. unfold s1. destruct (pending_tasks s !! "low"%string) as [tasks|];
      [|by left].
    change (futures (cancel_futures tasks s) !! f = futures s !! f
            ∨ futures (cancel_futures tasks s) !! f = after_cancel (futures s !! f)).
    rewrite cancel_futures_futures. destruct (decide (f ∈ tasks)); [by right|by left]. }
  split.
  - intros tasks Hl. destruct (Hlow tasks Hl) as [Hl1 Hl2].
    destruct (pending_tasks s !! "medium"%string) as [mtasks|]; [|done].
    destruct (_ >? _); [|done].
    match goal with
    | |- context [cancel_futures ?fs ?s0] =>
        destruct (cancel_futures_frame fs s0) as (Hp & _);
        pose proof (cancel_futures_futures fs s0) as Hf
    end.
    cbv zeta in Hp. rewrite Hp. simpl. rewrite lookup_insert_ne by done.
    split; [done|]. intros f Hin. rewrite Hf.
    change (futures (mk _ _ _ _ _)) with (futures s1).
    rewrite (Hl2 f Hin). destruct (decide _); [apply after_cancel_idemp|done].
  - intros tasks Hm. rewrite Hm.
    destruct (Z.of_nat (length tasks) >? 4); [|by rewrite Hmed].
    match goal with
    | |- context [cancel_futures ?fs ?s0] =>
        destruct (cancel_futures_frame fs s0) as (Hp & _);
        pose proof (cancel_futures_futures fs s0) as Hf
    end.
    cbv zeta in Hp. rewrite Hp. simpl. split; [apply lookup_insert_eq|].
    intros f Hin. rewrite Hf. change (futures (mk _ _ _ _ _)) with (futures s1).
    rewrite decide_True by done.
    destruct (Hs1 f) as [-> | ->]; [done|apply after_cancel_idemp].
Qed.

End Monitor.

(** ** Shutdown *)

Section ShutdownFacts.

Lemma pool_shutdown_not_running (p : RawDecoderPool.t) :
  RawDecoderPool._running (RawDecoderPool.shutdown p) = false.
Proof.
  unfold RawDecoderPool.shutdown.
  by destruct (RawDecoderPool._running p) eqn:H.
Qed.

Lemma manager_shutdown_not_running (s : ResourceManager.t) :
  ResourceManager._running (ResourceManager.shutdown s) = false.
Proof.
  unfold ResourceManager.shutdown.
  by destruct (ResourceManager._running s) eqn:H.
Qed.

(** C8.  A second [shutdown] of the manager or of the decoder pool changes
    nothing: the state after it, including the record of [join] and
    [terminate] calls, is the state after the first.  After a shutdown every
    submit entry point returns [None] and leaves the manager as it is, and
    [process_raw_results] returns 0. *)
Theorem shutdown_idempotent :
  (∀ s : ResourceManager.t,
      ResourceManager.shutdown (ResourceManager.shutdown s)
      = ResourceManager.shutdown s)
  ∧ (∀ p : RawDecoderPool.t,
      RawDecoderPool.shutdown (RawDecoderPool.shutdown p) = RawDecoderPool.shutdown p
      ∧ RawDecoderPool.process_log (RawDecoderPool.shutdown (RawDecoderPool.shutdown p))
        = RawDecoderPool.process_log (RawDecoderPool.shutdown p))
  ∧ (∀ (s : ResourceManager.t) (task : Task),
      ResourceManager.submit_imaging_task task (ResourceManager.shutdown s)
      = (ReturnsNone, ResourceManager.shutdown s))
  ∧ (∀ (s : ResourceManager.t) (priority : string) (task : Task),
      ResourceManager.submit_imaging_task_with_priority priority task
        (ResourceManager.shutdown s)
      = (ReturnsNone, ResourceManager.shutdown s))
  ∧ (∀ (s : ResourceManager.t) (file_path : string) (callback : Callback),
      ResourceManager.submit_raw_decoding file_path callback
        (ResourceManager.shutdown s)
      = (None, ResourceManager.shutdown s))
  ∧ (∀ (s : ResourceManager.t) (max_results : Z),
      ResourceManager.process_raw_results max_results (ResourceManager.shutdown s)
      = (0, ResourceManager.shutdown s)).
Proof.
  split; [|split; [|split; [|split; [|split]]]].
  - intros s. unfold ResourceManager.shutdown at 1.
    by rewrite manager_shutdown_not_running.
  - intros p.
    assert (RawDecoderPool.shutdown (RawDecoderPool.shutdown p)
            = RawDecoderPool.shutdown p) as H.
    { unfold RawDecoderPool.shutdown at 1. by rewrite pool_shutdown_not_running. }
    by rewrite H.
  - intros s task. unfold ResourceManager.submit_imaging_task.
    by rewrite manager_shutdown_not_running.
  - intros s priority task. unfold ResourceManager.submit_imaging_task_with_priority.
    by rewrite manager_shutdown_not_running.
  - intros s file_path callback. unfold ResourceManager.submit_raw_decoding.
    by rewrite manager_shutdown_not_running.
  - intros s max_results. unfold ResourceManager.process_raw_results.
    by rewrite manager_shutdown_not_running.
Qed.

(** The first shutdown of a running manager joins every worker once,
    terminates those that did not exit in time, and leaves no worker, no
    pending callback and no tracked future behind. *)
Example shutdown_once_then_again :
  let s1 := ResourceManager.shutdown (ResourceManager.__init__ two_workers) in
  let s2 := ResourceManager.shutdown s1 in
  RawDecoderPool.process_log (ResourceManager.raw_decoder_pool s1)
  = [Joined 101; Joined 102; Terminated 102]
  ∧ RawDecoderPool.processes (ResourceManager.raw_decoder_pool s1) = []
  ∧ RawDecoderPool.process_log (ResourceManager.raw_decoder_pool s2)
    = [Joined 101; Joined 102; Terminated 102].
Proof. vm_compute. done. Qed.
End ShutdownFacts.

(** ** Tracked and untracked futures *)

Section Tracking.
Import ResourceManager.

Local Abbreviation next_of s :=
  (ThreadPoolExecutor.next_future
     (PriorityThreadPoolExecutor.base (imaging_thread_pool s))).

Lemma cancel_future_next (f : nat) (s : t) :
  next_of (cancel_future f s) = next_of s.
Proof.
  unfold cancel_future.
  set (b := PriorityThreadPoolExecutor.base (imaging_thread_pool s)).
  unfold ThreadPoolExecutor.cancel.
  by destruct (ThreadPoolExecutor.futures b !! f) as [[]|].
Qed.

Lemma cancel_futures_next (fs : list nat) (s : t) :
  next_of (cancel_futures fs s) = next_of s.
Proof.
  revert s. induction fs as [|f fs IH]; intros s; [done|].
  change (cancel_futures (f :: fs) s) with (cancel_futures fs (cancel_future f s)).
  by rewrite IH, cancel_future_next.
Qed.

(** A step that records nothing as pending, gives [active_tasks] only
    futures it has just made, and cancels no future outside [active_tasks],
    keeps [manager_inv]. *)
Lemma manager_inv_preserved (s s' : t) (by_priority : gset nat) :
  manager_inv s by_priority →
  pending_tasks s' = ∅ →
  (next_of s ≤ next_of s')%nat →
  (∀ f, f ∈ active_tasks s' →
        f ∈ active_tasks s ∨ (next_of s ≤ f < next_of s')%nat) →
  (∀ f, (f < next_of s)%nat → f ∉ active_tasks s →
        futures s' !! f = Some CANCELLED → futures s !! f = Some CANCELLED) →
  manager_inv s' by_priority.
Proof.
  intros (Hp & Ha & Hb) Hp' Hnext Hact Hfut. split; [done|]. split.
  - intros f Hf. destruct (Hact f Hf) as [Hold|Hnew]; [|lia].
    specialize (Ha f Hold). lia.
  - intros f Hf. destruct (Hb f Hf) as (Hlt & Hna & Hnc). split; [lia|]. split.
    + intros Hin. destruct (Hact f Hin) as [Hold|Hnew]; [done|lia].
    + intros Hc. apply Hnc. by apply Hfut.
Qed.

(** One pass of the queue processor either leaves the underlying pool as it
    is or submits one task to it. *)
Lemma dispatcher_pass_base (s : t) :
  let b := PriorityThreadPoolExecutor.base (imaging_thread_pool s) in
  let s' := dispatcher_pass s in
  let b' := PriorityThreadPoolExecutor.base (imaging_thread_pool s') in
  active_tasks s' = active_tasks s
  ∧ pending_tasks s' = pending_tasks s
  ∧ raw_decoder_pool s' = raw_decoder_pool s
  ∧ _running s' = _running s
  ∧ (b' = b ∨ ∃ task, ThreadPoolExecutor.submit task b
                      = Some (ThreadPoolExecutor.next_future b, b')).
Proof.
  unfold dispatcher_pass, set_pool. simpl.
  repeat (split; [done|]).
  destruct (_ || _); [by left|].
  unfold PriorityThreadPoolExecutor.process_iteration,
    PriorityThreadPoolExecutor.hand_over.
  set (p := imaging_thread_pool s).
  assert (∀ (task : Task) (h m l : list Task),
            let p' :=
              match ThreadPoolExecutor.submit task (PriorityThreadPoolExecutor.base p) with
              | Some (_, b0) =>
                  PriorityThreadPoolExecutor.mk b0 h m l
                    (PriorityThreadPoolExecutor.shutdown_flag p)
                    (PriorityThreadPoolExecutor.processor_alive p)
              | None =>
                  PriorityThreadPoolExecutor.mk (PriorityThreadPoolExecutor.base p) h m l
                    (PriorityThreadPoolExecutor.shutdown_flag p) false
              end in
            PriorityThreadPoolExecutor.base p' = PriorityThreadPoolExecutor.base p
            ∨ ∃ task0, ThreadPoolExecutor.submit task0 (PriorityThreadPoolExecutor.base p)
                       = Some (ThreadPoolExecutor.next_future
                                 (PriorityThreadPoolExecutor.base p),
                               PriorityThreadPoolExecutor.base p')) as Hhand.
  { intros task h m l. simpl.
    destruct (ThreadPoolExecutor.submit task _) as [[f b0]|] eqn:Hsub; [|by left].
    right. exists task. rewrite Hsub. simpl.
    unfold ThreadPoolExecutor.submit in Hsub.
    destruct (ThreadPoolExecutor._shutdown _); [done|]. by injection Hsub as <- <-. }
  destruct (PriorityThreadPoolExecutor.high p) as [|th h]; [|apply Hhand].
  destruct (PriorityThreadPoolExecutor.medium p) as [|tm m]; [|apply Hhand].
  destruct (PriorityThreadPoolExecutor.low p) as [|tl l]; [by left|apply Hhand].
Qed.

Lemma submit_base (task : Task) (b b' : ThreadPoolExecutor.t) (f : nat) :
  ThreadPoolExecutor.submit task b = Some (f, b') →
  f = ThreadPoolExecutor.next_future b
  ∧ ThreadPoolExecutor.next_future b' = S f
  ∧ ThreadPoolExecutor.futures b' = <[f := PENDING]> (ThreadPoolExecutor.futures b).
Proof.
  unfold ThreadPoolExecutor.submit. destruct (ThreadPoolExecutor._shutdown b); [done|].
  by intros [= <- <-].
Qed.

Lemma cancel_low_priority_tasks_nothing_pending (s : t) :
  pending_tasks s = ∅ → cancel_low_priority_tasks s = s.
Proof.
  intros H. unfold cancel_low_priority_tasks. rewrite H, !lookup_empty. simpl.
  by rewrite H, lookup_empty.
Qed.

Lemma manager_step_inv (step : ManagerStep) (s : t) (by_priority : gset nat) :
  manager_inv s by_priority →
  manager_inv (manager_step step s)
    (match step with
     | DispatcherPass =>
         match dispatched_future s with
         | Some f => by_priority ∪ {[f]}
         | None => by_priority
         end
     | _ => by_priority
     end).
Proof.
  intros Hinv. pose proof Hinv as (Hp & Ha & Hb).
  destruct step as [task|priority task|file_path callback|max_results|memory| | | |f];
    cbn [manager_step].
  - (* submit_imaging_task *)
    unfold submit_imaging_task. destruct (_running s); [|done]. simpl.
    destruct (ThreadPoolExecutor.submit task _) as [[f b]|] eqn:Hsub; [|done].
    apply submit_base in Hsub as (-> & Hnext & Hfut). simpl.
    apply (manager_inv_preserved s); [done|done|simpl; lia| |].
    + simpl. intros f Hf. apply elem_of_union in Hf as [Hf|Hf]; [by left|].
      apply elem_of_singleton in Hf as ->. right. lia.
    + unfold futures. simpl. intros f Hlt _. rewrite Hfut.
      rewrite lookup_insert_ne by lia. done.
  - (* submit_imaging_task_with_priority *)
    unfold submit_imaging_task_with_priority. destruct (_running s); [|done]. simpl.
    destruct (submit_with_priority_queues priority task
                (imaging_thread_pool s)) as (_ & _ & _ & Hbase & _).
    apply (manager_inv_preserved s); simpl; try done.
    + by rewrite Hbase.
    + intros f Hf. by left.
    + unfold futures. simpl. by rewrite Hbase.
  - (* submit_raw_decoding *)
    unfold submit_raw_decoding. destruct (_running s); [|done]. simpl.
    destruct (RawDecoderPool.decode_raw _ _ _) as [id pool]. simpl.
    apply (manager_inv_preserved s); simpl; try done. intros f Hf. by left.
  - (* process_raw_results *)
    unfold process_raw_results. destruct (_running s); [|done]. simpl.
    destruct (RawDecoderPool.process_results _ _) as [n pool]. simpl.
    apply (manager_inv_preserved s); simpl; try done. intros f Hf. by left.
  - (* monitor_resources *)
    unfold monitor_resources. destruct (_running s); [|done]. simpl.
    destruct memory as [m|]; [|done]. destruct (Qgtb m 95); [|done].
    by rewrite cancel_low_priority_tasks_nothing_pending.
  - (* cancel_all_tasks *)
    unfold cancel_all_tasks.
    destruct (cancel_futures_frame (elements (active_tasks s)) s) as (Hpend & _).
    apply (manager_inv_preserved s); simpl; try done.
    + by rewrite Hpend.
    + by rewrite cancel_futures_next.
    + intros f _ Hna. unfold futures at 1. simpl.
      change (futures (cancel_futures (elements (active_tasks s)) s) !! f
              = Some CANCELLED → futures s !! f = Some CANCELLED).
      rewrite cancel_futures_futures. rewrite decide_False; [done|].
      by rewrite elem_of_elements.
  - (* the queue processor *)
    destruct (dispatcher_pass_base s) as (Hact & Hpend & _ & _ & Hbase).
    unfold dispatched_future.
    destruct Hbase as [Hsame|[task Hsub]].
    + rewrite Hsame. rewrite decide_True by done.
      apply (manager_inv_preserved s);
        [done|by rewrite Hpend|by rewrite Hsame| |].
      * intros f Hf. left. by rewrite <- Hact.
      * unfold futures. by rewrite Hsame.
    + apply submit_base in Hsub as (_ & Hnext & Hfut).
      rewrite Hnext. rewrite decide_False by lia.
      split; [by rewrite Hpend|]. split.
      * intros f Hf. rewrite Hact in Hf. specialize (Ha f Hf). lia.
      * intros f Hf. apply elem_of_union in Hf as [Hf|Hf].
        -- destruct (Hb f Hf) as (Hlt & Hna & Hnc).
           split; [lia|]. split; [by rewrite Hact|].
           unfold futures. rewrite Hfut. rewrite lookup_insert_ne by lia. done.
        -- apply elem_of_singleton in Hf as ->. split; [lia|]. split.
           ++ rewrite Hact. intros Hin. specialize (Ha _ Hin). lia.
           ++ unfold futures. rewrite Hfut, lookup_insert_eq. done.
  - (* a pool thread takes a work item *)
    unfold worker_take, ThreadPoolExecutor.worker_take.
    set (b := PriorityThreadPoolExecutor.base (imaging_thread_pool s)).
    destruct (ThreadPoolExecutor.work_queue b) as [|[f task] q] eqn:Hq.
    { apply (manager_inv_preserved s); [done|done|done| |done].
      intros f Hf. by left. }
    destruct (ThreadPoolExecutor.futures b !! f) as [[]|] eqn:Hf;
      (apply (manager_inv_preserved s); [done|done|done|intros g Hg; by left|]);
      try done.
    unfold futures. simpl. intros g _ _. fold b.
    destruct (decide (g = f)) as [->|Hne].
    + rewrite lookup_insert_eq. done.
    + rewrite lookup_insert_ne by done. done.
  - (* a work item ends *)
    unfold worker_finish, ThreadPoolExecutor.worker_finish.
    set (b := PriorityThreadPoolExecutor.base (imaging_thread_pool s)).
    destruct (ThreadPoolExecutor.futures b !! f) as [[]|] eqn:Hf;
      try (apply (manager_inv_preserved s); [done|done|done| |done];
           intros g Hg; by left).
    apply (manager_inv_preserved s); [done|done|done| |].
    + simpl. intros g Hg. left. by apply elem_of_difference in Hg as [? _].
    + unfold futures. simpl. intros g _ _. fold b.
      destruct (decide (g = f)) as [->|Hne].
      * rewrite lookup_insert_eq. done.
      * rewrite lookup_insert_ne by done. done.
Qed.

Lemma manager_run_inv (steps : list ManagerStep) :
  ∀ (s : t) (by_priority : gset nat),
    manager_inv s by_priority →
    manager_inv (manager_run steps s by_priority).1 (manager_run steps s by_priority).2.
Proof.
  induction steps as [|step steps IH]; intros s by_priority Hinv; [done|].
  cbn [manager_run]. apply IH. by apply manager_step_inv.
Qed.

(** C6.  [monitor_resources] has nothing to cancel.  In every state a
    manager reaches from [__init__], by any calls short of [shutdown] and
    any interleaving with the queue processor and the pool threads,
    [pending_tasks] is still the empty dictionary of [__init__]: no method
    records a task in it.  So [monitor_resources] returns the manager as it
    is at every memory reading, and every task waiting in the low or the
    medium queue of the priority executor is still waiting afterwards.
    With three low and six medium tasks submitted and memory at 97%, all
    nine are still queued. *)
Theorem monitor_resources_cancels_nothing :
  (∀ (workers : list Process) (steps : list ManagerStep)
     (memory_percent : option Q),
     let s := (manager_run steps (__init__ workers) ∅).1 in
     pending_tasks s = ∅ ∧ monitor_resources memory_percent s = s)
  ∧ (let low_tasks := [load_task "l1.jpg"; load_task "l2.jpg"; load_task "l3.jpg"] in
     let medium_tasks :=
       [load_task "m1.jpg"; load_task "m2.jpg"; load_task "m3.jpg";
        load_task "m4.jpg"; load_task "m5.jpg"; load_task "m6.jpg"] in
     let s :=
       (manager_run
          ((SubmitImagingTaskWithPriority "low" <$> low_tasks)
           ++ (SubmitImagingTaskWithPriority "medium" <$> medium_tasks))
          (__init__ two_workers) ∅).1 in
     let s' := monitor_resources (Some 97%Q) s in
     PriorityThreadPoolExecutor.low (imaging_thread_pool s') = low_tasks
     ∧ PriorityThreadPoolExecutor.medium (imaging_thread_pool s') = medium_tasks
     ∧ futures s' = ∅).
Proof.
  split.
  - intros workers steps memory_percent s.
    assert (manager_inv (__init__ workers) ∅) as Hinit.
    { split; [done|]. split; intros g Hg; by apply elem_of_empty in Hg. }
    destruct (manager_run_inv steps _ _ Hinit) as (Hpending & _).
    fold s in Hpending. split; [done|].
    unfold monitor_resources. destruct (_running s); [|done]. cbn [negb].
    destruct memory_percent as [m|]; [|done]. destruct (Qgtb m 95); [|done].
    by apply cancel_low_priority_tasks_nothing_pending.
  - vm_compute. done.
Qed.

(** C9.  [submit_imaging_task_with_priority] returns [None] and changes
    neither [active_tasks] nor any future; on a running manager it only
    queues the task.  [cancel_all_tasks] changes no future outside
    [active_tasks] and leaves the three priority queues as they are.  So in
    every run of a manager from [__init__] (any calls short of [shutdown],
    any interleaving with the queue processor and the pool threads) the
    futures of priority-submitted tasks are never in [active_tasks] and never
    cancelled; a future returned by [submit_imaging_task] is in
    [active_tasks], and [cancel_all_tasks] right after cancels it. *)
Theorem priority_tasks_are_untracked :
  (∀ (s : t) (priority : string) (task : Task),
      let r := submit_imaging_task_with_priority priority task s in
      r.1 = ReturnsNone
      ∧ active_tasks r.2 = active_tasks s
      ∧ futures r.2 = futures s
      ∧ (_running s = true →
         imaging_thread_pool r.2
         = PriorityThreadPoolExecutor.submit_with_priority priority task
             (imaging_thread_pool s)))
  ∧ (∀ (s : t),
      (∀ f, f ∉ active_tasks s → futures (cancel_all_tasks s) !! f = futures s !! f)
      ∧ PriorityThreadPoolExecutor.queued (imaging_thread_pool (cancel_all_tasks s))
        = PriorityThreadPoolExecutor.queued (imaging_thread_pool s))
  ∧ (∀ (workers : list Process) (steps : list ManagerStep) (f : nat),
      let r := manager_run steps (__init__ workers) ∅ in
      f ∈ r.2 → (f ∉ active_tasks r.1) ∧ (futures r.1 !! f ≠ Some CANCELLED))
  ∧ (∀ (s s' : t) (task : Task) (f : nat),
      submit_imaging_task task s = (ReturnsFuture f, s') →
      f ∈ active_tasks s'
      ∧ futures s' !! f = Some PENDING
      ∧ futures (cancel_all_tasks s') !! f = Some CANCELLED).
Proof.
  split; [|split; [|split]].
  - intros s priority task r. subst r. unfold submit_imaging_task_with_priority.
    destruct (_running s); simpl; [|done].
    destruct (submit_with_priority_queues priority task (imaging_thread_pool s))
      as (_ & _ & _ & Hbase & _).
    unfold futures. simpl. by rewrite Hbase.
  - intros s.
    destruct (cancel_futures_frame (elements (active_tasks s)) s)
      as (_ & _ & _ & _ & Hh & Hm & Hl).
    split.
    + intros f Hf. unfold cancel_all_tasks, futures at 1. simpl.
      change (futures (cancel_futures (elements (active_tasks s)) s) !! f
              = futures s !! f).
      rewrite cancel_futures_futures. rewrite decide_False; [done|].
      by rewrite elem_of_elements.
    + unfold cancel_all_tasks, PriorityThreadPoolExecutor.queued. simpl.
      by rewrite Hh, Hm, Hl.
  - intros workers steps f r Hf.
    assert (manager_inv (__init__ workers) ∅) as Hinit.
    { split; [done|]. split; intros g Hg; by apply elem_of_empty in Hg. }
    destruct (manager_run_inv steps _ _ Hinit) as (_ & _ & Hb).
    by destruct (Hb f Hf) as (_ & ? & ?).
  - intros s s' task f. unfold submit_imaging_task.
    destruct (_running s); [|done]. simpl.
    destruct (ThreadPoolExecutor.submit task _) as [[f0 b]|] eqn:Hsub; [|done].
    intros [= -> <-]. apply submit_base in Hsub as (_ & _ & Hfut).
    set (s1 := mk _ _ _ _ _).
    assert (futures s1 !! f = Some PENDING) as Hpending.
    { unfold futures, s1. simpl. rewrite Hfut. apply lookup_insert_eq. }
    assert (f ∈ active_tasks s1) as Hin.
    { unfold s1. simpl. apply elem_of_union_r. by apply elem_of_singleton. }
    split; [done|]. split; [done|].
    change (futures (cancel_futures (elements (active_tasks s1)) s1) !! f
            = Some CANCELLED).
    rewrite cancel_futures_futures, decide_True, Hpending; [done|].
    by rewrite elem_of_elements.
Qed.

Lemma priority_tasks_are_untracked_witness :
  let r := manager_run
             [SubmitImagingTaskWithPriority "low" (load_task "b.jpg");
              DispatcherPass;
              SubmitImagingTask (load_task "c.jpg");
              CancelAllTasks]
             (__init__ two_workers) ∅ in
  ((0%nat ∉ active_tasks r.1) ∧ (futures r.1 !! 0%nat ≠ Some CANCELLED))
  ∧ futures r.1 !! 0%nat = Some PENDING
  ∧ futures r.1 !! 1%nat = Some CANCELLED
  ∧ futures (cancel_all_tasks (__init__ two_workers)) !! 5%nat
    = futures (__init__ two_workers) !! 5%nat.
Proof.
  intros r. split; [|split; [|split]].
  - apply (proj1 (proj2 (proj2 priority_tasks_are_untracked)) two_workers).
    by_evaluation.
  - reflexivity.
  - reflexivity.
  - apply (proj1 (proj1 (proj2 priority_tasks_are_untracked) (__init__ two_workers))).
    by_evaluation.
Defined.
End Tracking.


(** * Further properties *)

(** ** The cache is least-recently-used *)

Lemma filter_ne_absent (k : string) (l : list string) :
  k ∉ l → filter (fun k' => k' ≠ k) l = l.
Proof.
  induction l as [|x l IH]; [done|].
  intros H. apply not_elem_of_cons in H as [Hne Hl].
  rewrite filter_cons_True by done. by rewrite IH.
Qed.

Section LeastRecentlyUsed.
Context {V : Type}.
Implicit Types (d : OrderedDict.t V) (k : string) (v : V).

Lemma keys_setitem k v d :
  OrderedDict.keys (OrderedDict.setitem k v d)
  = if decide (k ∈ OrderedDict.keys d) then OrderedDict.keys d
    else OrderedDict.keys d ++ [k].
Proof.
  induction d as [|[k' v'] d IH].
  - destruct (decide (k ∈ OrderedDict.keys [])) as [H|_]; [|done].
    by apply elem_of_nil in H.
  - cbn [OrderedDict.setitem].
    destruct (decide (k = k')) as [->|Hne].
    + destruct (decide (k' ∈ OrderedDict.keys ((k', v') :: d))) as [_|H]; [done|].
      exfalso. apply H. by left.
    + change (OrderedDict.keys ((k', v') :: OrderedDict.setitem k v d))
        with (k' :: OrderedDict.keys (OrderedDict.setitem k v d)).
      rewrite IH.
      change (OrderedDict.keys ((k', v') :: d)) with (k' :: OrderedDict.keys d).
      destruct (decide (k ∈ OrderedDict.keys d)) as [Hin|Hout],
               (decide (k ∈ k' :: OrderedDict.keys d)) as [Hin'|Hout']; try done.
      * exfalso. apply Hout'. by right.
      * apply elem_of_cons in Hin' as [?|?]; done.
Qed.

Lemma keys_delitem k d :
  NoDup (OrderedDict.keys d) →
  OrderedDict.keys (OrderedDict.delitem k d)
  = filter (fun k' => k' ≠ k) (OrderedDict.keys d).
Proof.
  induction d as [|[k' v'] d IH]; [done|].
  change (OrderedDict.keys ((k', v') :: d)) with (k' :: OrderedDict.keys d).
  intros Hnd. apply NoDup_cons in Hnd as [Hk Hnd].
  cbn [OrderedDict.delitem].
  destruct (decide (k = k')) as [->|Hne].
  - rewrite filter_cons_False by (intros H; by apply H).
    by rewrite filter_ne_absent.
  - rewrite filter_cons_True by done.
    change (OrderedDict.keys ((k', v') :: OrderedDict.delitem k d))
      with (k' :: OrderedDict.keys (OrderedDict.delitem k d)).
    by rewrite IH.
Qed.

Lemma getitem_Some_key k v d :
  OrderedDict.getitem k d = Some v → k ∈ OrderedDict.keys d.
Proof.
  induction d as [|[k' v'] d IH]; [done|]. cbn [OrderedDict.getitem].
  destruct (decide (k = k')) as [->|Hne]; [by left|]. intros H. right. by apply IH.
Qed.

Lemma getitem_None_key k d :
  OrderedDict.getitem k d = None ↔ k ∉ OrderedDict.keys d.
Proof.
  induction d as [|[k' v'] d IH].
  - split; [intros _; apply not_elem_of_nil|done].
  - cbn [OrderedDict.getitem].
    change (OrderedDict.keys ((k', v') :: d)) with (k' :: OrderedDict.keys d).
    destruct (decide (k = k')) as [->|Hne].
    + split; [done|]. intros H. exfalso. apply H. by left.
    + rewrite IH. split.
      * intros H H'. apply elem_of_cons in H' as [?|?]; done.
      * intros H H'. apply H. by right.
Qed.

Lemma getitem_app_absent k d d' :
  k ∉ OrderedDict.keys d →
  OrderedDict.getitem k (d ++ d') = OrderedDict.getitem k d'.
Proof.
  induction d as [|[k' v'] d IH]; [done|].
  intros H. apply not_elem_of_cons in H as [Hne H].
  cbn [app OrderedDict.getitem]. rewrite decide_False by done. by apply IH.
Qed.

Lemma getitem_app_present k d d' :
  k ∈ OrderedDict.keys d →
  OrderedDict.getitem k (d ++ d') = OrderedDict.getitem k d.
Proof.
  induction d as [|[k' v'] d IH].
  - intros H. by apply elem_of_nil in H.
  - intros H. cbn [app OrderedDict.getitem].
    destruct (decide (k = k')) as [->|Hne]; [done|].
    apply elem_of_cons in H as [?|H]; [done|]. by apply IH.
Qed.

Lemma getitem_delitem_ne k k' d :
  k' ≠ k → OrderedDict.getitem k' (OrderedDict.delitem k d) = OrderedDict.getitem k' d.
Proof.
  intros Hne. induction d as [|[k0 v0] d IH]; [done|].
  cbn [OrderedDict.delitem OrderedDict.getitem].
  destruct (decide (k = k0)) as [->|Hk].
  - by rewrite decide_False.
  - cbn [OrderedDict.getitem]. by rewrite IH.
Qed.

Lemma getitem_setitem_ne k k' v d :
  k' ≠ k → OrderedDict.getitem k' (OrderedDict.setitem k v d) = OrderedDict.getitem k' d.
Proof.
  intros Hne. induction d as [|[k0 v0] d IH].
  - cbn [OrderedDict.setitem OrderedDict.getitem]. by rewrite decide_False.
  - cbn [OrderedDict.setitem OrderedDict.getitem].
    destruct (decide (k = k0)) as [->|Hk]; cbn [OrderedDict.getitem].
    + by rewrite !decide_False.
    + by rewrite IH.
Qed.

(** [d.move_to_end(k)] for a key of the dictionary. *)
Lemma keys_move_to_end k d :
  NoDup (OrderedDict.keys d) → k ∈ OrderedDict.keys d →
  OrderedDict.keys (OrderedDict.move_to_end k d)
  = filter (fun k' => k' ≠ k) (OrderedDict.keys d) ++ [k].
Proof.
  intros Hnd Hin. unfold OrderedDict.move_to_end.
  destruct (OrderedDict.getitem k d) as [v|] eqn:Hget.
  - unfold OrderedDict.keys at 1. rewrite fmap_app. simpl.
    fold (OrderedDict.keys (OrderedDict.delitem k d)). by rewrite keys_delitem.
  - by apply getitem_None_key in Hget.
Qed.

Lemma getitem_move_to_end k k' d :
  NoDup (OrderedDict.keys d) →
  OrderedDict.getitem k' (OrderedDict.move_to_end k d) = OrderedDict.getitem k' d.
Proof.
  intros Hnd. unfold OrderedDict.move_to_end.
  destruct (OrderedDict.getitem k d) as [v|] eqn:Hget; [|done].
  destruct (decide (k' = k)) as [->|Hne].
  - rewrite getitem_app_absent; [simpl; by rewrite decide_True|].
    rewrite keys_delitem by done. intros H.
    by apply list_elem_of_filter in H as [? _].
  - destruct (decide (k' ∈ OrderedDict.keys (OrderedDict.delitem k d))) as [Hin|Hout].
    + rewrite getitem_app_present by done. by apply getitem_delitem_ne.
    + rewrite getitem_app_absent by done. simpl. rewrite decide_False by done.
      apply getitem_None_key in Hout. by rewrite getitem_delitem_ne in Hout.
Qed.

(** [d[k] = v; d.move_to_end(k)] on the keys, and on lookups. *)
Lemma keys_insert_last k v d :
  NoDup (OrderedDict.keys d) →
  OrderedDict.keys (OrderedDict.move_to_end k (OrderedDict.setitem k v d))
  = filter (fun k' => k' ≠ k) (OrderedDict.keys d) ++ [k].
Proof.
  intros Hnd.
  destruct (decide (k ∈ OrderedDict.keys d)) as [Hin|Hout].
  - rewrite keys_move_to_end.
    + rewrite keys_setitem. by rewrite decide_True.
    + rewrite keys_setitem. by rewrite decide_True.
    + rewrite keys_setitem. by rewrite decide_True.
  - rewrite move_to_end_setitem_fresh by done.
    unfold OrderedDict.keys. rewrite fmap_app. simpl.
    by rewrite (filter_ne_absent k (d.*1)).
Qed.

Lemma NoDup_keys_setitem k v d :
  NoDup (OrderedDict.keys d) → NoDup (OrderedDict.keys (OrderedDict.setitem k v d)).
Proof.
  intros Hnd. rewrite keys_setitem. destruct (decide _) as [Hin|Hout]; [done|].
  apply NoDup_app. split; [done|]. split; [|apply NoDup_singleton].
  intros x Hx Hx'. apply list_elem_of_singleton in Hx' as ->. done.
Qed.

Lemma getitem_insert_last k k' v d :
  NoDup (OrderedDict.keys d) →
  OrderedDict.getitem k' (OrderedDict.move_to_end k (OrderedDict.setitem k v d))
  = if decide (k' = k) then Some v else OrderedDict.getitem k' d.
Proof.
  intros Hnd. rewrite getitem_move_to_end by by apply NoDup_keys_setitem.
  destruct (decide (k' = k)) as [->|Hne].
  - apply getitem_setitem.
  - by apply getitem_setitem_ne.
Qed.
End LeastRecentlyUsed.

Section CacheOrder.
Import ImageLoader.

Lemma getitem_drop {V : Type} (n : nat) (k : string) (d : OrderedDict.t V) :
  NoDup (OrderedDict.keys d) → k ∈ OrderedDict.keys (drop n d) →
  OrderedDict.getitem k (drop n d) = OrderedDict.getitem k d.
Proof.
  intros Hnd Hin. rewrite <- (take_drop n d) at 2.
  rewrite getitem_app_absent; [done|].
  rewrite <- (take_drop n d) in Hnd. unfold OrderedDict.keys in *.
  rewrite fmap_app in Hnd. apply NoDup_app in Hnd as (_ & Hdisj & _).
  intros H. by apply (Hdisj k H).
Qed.

Lemma add_to_cache_keys (file_path : string) (pm : QPixmap) (s : t) :
  isNull pm = false → 1 <= cache_limit s →
  NoDup (OrderedDict.keys (cache s)) →
  OrderedDict.keys (cache (_add_to_cache file_path (Some pm) s))
  = keys_after_insert (cache_limit s) file_path (OrderedDict.keys (cache s)).
Proof.
  intros Hpm Hl Hnd. unfold _add_to_cache. rewrite Hpm. simpl.
  rewrite evict_while_full_drop by done. rewrite keys_insert_last.
  - unfold keys_after_insert, OrderedDict.keys, OrderedDict.len.
    by rewrite fmap_drop, length_fmap.
  - unfold OrderedDict.keys. rewrite fmap_drop.
    apply (sublist_NoDup _ (cache s).*1); [done|apply sublist_drop].
Qed.

Lemma keys_after_insert_NoDup (limit : Z) (key : string) (keys : list string) :
  NoDup keys → NoDup (keys_after_insert limit key keys).
Proof.
  intros Hnd. unfold keys_after_insert. apply NoDup_app. split; [|split].
  - apply NoDup_filter. apply (sublist_NoDup _ keys); [done|apply sublist_drop].
  - intros x Hx Hx'. apply list_elem_of_singleton in Hx' as ->.
    by apply list_elem_of_filter in Hx as [? _].
  - apply NoDup_singleton.
Qed.

Lemma evicted_keys_NoDup (s : t) :
  1 <= cache_limit s → NoDup (OrderedDict.keys (cache s)) →
  NoDup (OrderedDict.keys (evict_while_full (cache_limit s) (cache s))).
Proof.
  intros Hl Hnd. rewrite evict_while_full_drop by done. unfold OrderedDict.keys.
  rewrite fmap_drop. apply (sublist_NoDup _ (cache s).*1); [done|apply sublist_drop].
Qed.

Lemma add_to_cache_getitem (file_path k : string) (pm : QPixmap) (s : t) :
  isNull pm = false → 1 <= cache_limit s →
  NoDup (OrderedDict.keys (cache s)) →
  OrderedDict.getitem k (cache (_add_to_cache file_path (Some pm) s))
  = if decide (k = file_path) then Some pm
    else OrderedDict.getitem k (evict_while_full (cache_limit s) (cache s)).
Proof.
  intros Hpm Hl Hnd. unfold _add_to_cache. rewrite Hpm. simpl.
  apply getitem_insert_last. by apply evicted_keys_NoDup.
Qed.

Lemma add_to_cache_last (file_path : string) (pm : QPixmap) (s : t) :
  isNull pm = false → 1 <= cache_limit s →
  NoDup (OrderedDict.keys (cache s)) →
  last (OrderedDict.keys (cache (_add_to_cache file_path (Some pm) s)))
  = Some file_path.
Proof.
  intros Hpm Hl Hnd. rewrite add_to_cache_keys by done.
  unfold keys_after_insert. by rewrite last_snoc.
Qed.

(** X1: what an insertion does.  On a cache with distinct keys and a limit
    of at least one, [_add_to_cache] of a valid pixmap drops the oldest
    keys beyond [limit - 1], puts the inserted path last (most recently
    used) with the new pixmap, and leaves every surviving entry with its
    pixmap and in its order. *)
Theorem add_to_cache_is_lru (file_path : string) (pm : QPixmap) (s : t) :
  isNull pm = false → 1 <= cache_limit s →
  NoDup (OrderedDict.keys (cache s)) →
  let s' := _add_to_cache file_path (Some pm) s in
  OrderedDict.keys (cache s')
  = keys_after_insert (cache_limit s) file_path (OrderedDict.keys (cache s))
  ∧ NoDup (OrderedDict.keys (cache s'))
  ∧ last (OrderedDict.keys (cache s')) = Some file_path
  ∧ OrderedDict.getitem file_path (cache s') = Some pm
  ∧ (∀ k, k ≠ file_path → k ∈ OrderedDict.keys (cache s') →
          k ∈ OrderedDict.keys (cache s)
          ∧ OrderedDict.getitem k (cache s') = OrderedDict.getitem k (cache s)).
Proof.
  intros Hpm Hl Hnd s'.
  pose proof (add_to_cache_keys file_path pm s Hpm Hl Hnd) as Hkeys. fold s' in Hkeys.
  split; [done|]. split; [rewrite Hkeys; by apply keys_after_insert_NoDup|].
  split; [rewrite Hkeys; unfold keys_after_insert; by rewrite last_snoc|].
  assert (NoDup (OrderedDict.keys (evict_while_full (cache_limit s) (cache s))))
    as Hnd'.
  { rewrite evict_while_full_drop by done. unfold OrderedDict.keys.
    rewrite fmap_drop. apply (sublist_NoDup _ (cache s).*1); [done|apply sublist_drop]. }
  assert (∀ k, OrderedDict.getitem k (cache s')
               = if decide (k = file_path) then Some pm
                 else OrderedDict.getitem k
                        (evict_while_full (cache_limit s) (cache s))) as Hget.
  { intros k. unfold s', _add_to_cache. rewrite Hpm. simpl.
    by apply getitem_insert_last. }
  split; [rewrite Hget; by rewrite decide_True|].
  intros k Hne Hin. rewrite Hget, decide_False by done.
  rewrite Hkeys in Hin. unfold keys_after_insert in Hin.
  apply elem_of_app in Hin as [Hin|Hin];
    [|apply list_elem_of_singleton in Hin; done].
  apply list_elem_of_filter in Hin as [_ Hin].
  rewrite evict_while_full_drop by done. split.
  - by apply subseteq_drop in Hin.
  - apply getitem_drop; [done|]. unfold OrderedDict.keys, OrderedDict.len in *.
    rewrite fmap_drop. by rewrite length_fmap in Hin.
Qed.

Lemma add_to_cache_is_lru_witness :
  let s := loader_holding 3 ["a"; "b"; "c"]%string in
  OrderedDict.keys (cache (_add_to_cache "b" (Some sample_pixmap) s))
  = ["c"; "b"]%string.
Proof.
  intros s.
  rewrite (proj1 (add_to_cache_is_lru "b" sample_pixmap s eq_refl
                    ltac:(vm_compute; discriminate) ltac:(by_evaluation))).
  reflexivity.
Defined.

(** One insertion of another path pushes an entry at most one place
    towards the old end. *)
Lemma keys_after_insert_keeps (limit : Z) (P key : string) (keys front back : list string) :
  1 <= limit → NoDup keys → Z.of_nat (length keys) <= limit →
  key ≠ P → keys = front ++ P :: back →
  Z.of_nat (length back) + 2 <= limit →
  let keys' := keys_after_insert limit key keys in
  Z.of_nat (length keys') <= limit
  ∧ ∃ front' back', keys' = front' ++ P :: back'
                    ∧ (length back' ≤ S (length back))%nat.
Proof.
  intros Hl Hnd Hlen Hne -> Hback keys'. subst keys'. unfold keys_after_insert.
  rewrite length_app in Hlen. cbn [length] in Hlen.
  set (n := Z.to_nat _).
  assert (n = Z.to_nat (Z.of_nat (length front + S (length back)) - limit + 1))
    as Hn' by (unfold n; rewrite length_app; done).
  assert (n ≤ length front)%nat as Hn by lia.
  rewrite drop_app_le by done. rewrite filter_app, filter_cons_True by done.
  split.
  - rewrite !length_app. cbn [length].
    pose proof (length_filter (fun k => k ≠ key) (drop n front)) as H1.
    pose proof (length_filter (fun k => k ≠ key) back) as H2.
    rewrite length_drop in H1. lia.
  - exists (filter (fun k => k ≠ key) (drop n front)),
           (filter (fun k => k ≠ key) back ++ [key]).
    split; [by rewrite <- app_assoc|].
    rewrite length_app. cbn [length].
    pose proof (length_filter (fun k => k ≠ key) back). lia.
Qed.

Lemma insert_all_survives (pixmap_of : string → QPixmap) (P : string)
    (paths : list string) :
  (∀ p, isNull (pixmap_of p) = false) →
  P ∉ paths →
  ∀ (s : t) (front back : list string),
    1 <= cache_limit s →
    NoDup (OrderedDict.keys (cache s)) →
    OrderedDict.len (cache s) <= cache_limit s →
    OrderedDict.keys (cache s) = front ++ P :: back →
    Z.of_nat (length back) + Z.of_nat (length paths) < cache_limit s →
    P ∈ OrderedDict.keys (cache (insert_all pixmap_of paths s)).
Proof.
  intros Hok. induction paths as [|p paths IH]; intros HP s front back Hl Hnd Hlen Hk Hroom.
  - simpl. rewrite Hk. apply elem_of_app. right. by left.
  - apply not_elem_of_cons in HP as [Hne HP].
    change (insert_all pixmap_of (p :: paths) s)
      with (insert_all pixmap_of paths
              (_add_to_cache p (Some (pixmap_of p)) s)).
    set (s1 := _add_to_cache p (Some (pixmap_of p)) s).
    pose proof (add_to_cache_keys p (pixmap_of p) s (Hok p) Hl Hnd) as Hkeys.
    assert (NoDup (OrderedDict.keys
                     (cache (_add_to_cache p (Some (pixmap_of p)) s)))) as Hnd1
      by (rewrite Hkeys; by apply keys_after_insert_NoDup).
    fold s1 in Hkeys, Hnd1. cbn [length] in Hroom.
    destruct (keys_after_insert_keeps (cache_limit s) P p (OrderedDict.keys (cache s))
                front back Hl Hnd) as (Hlen1 & front' & back' & Hk1 & Hb1);
      [unfold OrderedDict.keys, OrderedDict.len in *; rewrite length_fmap; lia
      |done|done|lia|].
    assert (cache_limit s1 = cache_limit s) as Hlim by apply add_to_cache_limit.
    apply (IH HP s1 front' back').
    + lia.
    + done.
    + rewrite Hlim. unfold OrderedDict.len. rewrite <- (length_fmap fst (cache s1)).
      fold (OrderedDict.keys (cache s1)). by rewrite Hkeys.
    + by rewrite Hkeys.
    + rewrite Hlim. lia.
Qed.

(** X2: an entry that is the most recently used one is still cached after
    any [cache_limit - 1] insertions of other paths (repeated or already
    cached ones included). *)
Theorem most_recent_entry_survives (pixmap_of : string → QPixmap) (P : string)
    (paths : list string) (s : t) :
  (∀ p, isNull (pixmap_of p) = false) →
  1 <= cache_limit s →
  NoDup (OrderedDict.keys (cache s)) →
  OrderedDict.len (cache s) <= cache_limit s →
  last (OrderedDict.keys (cache s)) = Some P →
  P ∉ paths →
  Z.of_nat (length paths) < cache_limit s →
  OrderedDict.contains P (cache (insert_all pixmap_of paths s)) = true.
Proof.
  intros Hok Hl Hnd Hlen Hlast HP Hroom.
  apply bool_decide_eq_true.
  apply last_Some in Hlast as [front Hfront].
  apply (insert_all_survives pixmap_of P paths Hok HP s front []);
    try done; simpl; lia.
Qed.

Lemma most_recent_entry_survives_witness :
  OrderedDict.contains "c"
    (cache (insert_all (fun _ => sample_pixmap) ["x"; "a"; "x"; "y"]%string
              (loader_holding 5 ["a"; "b"; "c"]%string))) = true.
Proof.
  apply most_recent_entry_survives.
  - intros p. reflexivity.
  - vm_compute. discriminate.
  - by_evaluation.
  - vm_compute. discriminate.
  - reflexivity.
  - by_evaluation.
  - reflexivity.
Defined.
End CacheOrder.

(** ** Loading an image *)

Section DictItems.
Context {V : Type}.
Implicit Types (d : OrderedDict.t V) (k : string) (v : V).

Lemma setitem_items k v d (x : string * V) :
  x ∈ OrderedDict.setitem k v d → x = (k, v) ∨ x ∈ d.
Proof.
  induction d as [|[k' v'] d IH]; cbn [OrderedDict.setitem].
  - intros H. apply list_elem_of_singleton in H. by left.
  - destruct (decide (k = k')) as [->|Hne]; intros H.
    + apply elem_of_cons in H as [->|H]; [by left|]. right. by right.
    + apply elem_of_cons in H as [->|H]; [right; by left|].
      destruct (IH H) as [?|?]; [by left|]. right. by right.
Qed.

Lemma delitem_items k d (x : string * V) : x ∈ OrderedDict.delitem k d → x ∈ d.
Proof.
  induction d as [|[k' v'] d IH]; cbn [OrderedDict.delitem]; [done|].
  destruct (decide (k = k')) as [->|Hne]; intros H.
  - by right.
  - apply elem_of_cons in H as [->|H]; [by left|]. right. by apply IH.
Qed.

Lemma getitem_Some_item k v d : OrderedDict.getitem k d = Some v → (k, v) ∈ d.
Proof.
  induction d as [|[k' v'] d IH]; cbn [OrderedDict.getitem]; [done|].
  destruct (decide (k = k')) as [->|Hne].
  - intros [= ->]. by left.
  - intros H. right. by apply IH.
Qed.

Lemma move_to_end_items k d (x : string * V) :
  x ∈ OrderedDict.move_to_end k d → x ∈ d.
Proof.
  unfold OrderedDict.move_to_end.
  destruct (OrderedDict.getitem k d) as [v|] eqn:Hget; [|done].
  intros H. apply elem_of_app in H as [H|H].
  - by apply delitem_items in H.
  - apply list_elem_of_singleton in H as ->. by apply getitem_Some_item.
Qed.

Lemma move_to_end_length k d :
  length (OrderedDict.move_to_end k d) = length d.
Proof.
  unfold OrderedDict.move_to_end.
  destruct (OrderedDict.getitem k d) as [v|] eqn:Hget; [|done].
  rewrite length_app. simpl.
  pose proof (getitem_Some_length_delitem k v d Hget). lia.
Qed.

Lemma delete_keys_length (keys : list string) d :
  NoDup keys → keys ⊆ OrderedDict.keys d →
  (length (foldl (fun d key => OrderedDict.delitem key d) d keys)
   + length keys = length d)%nat.
Proof.
  revert d. induction keys as [|k keys IH]; intros d Hnd Hsub; simpl; [lia|].
  apply NoDup_cons in Hnd as [Hk Hnd].
  assert (keys ⊆ OrderedDict.keys (OrderedDict.delitem k d)) as Hsub'.
  { intros x Hx. apply keys_delitem_other.
    - intros ->. done.
    - apply Hsub. by right. }
  pose proof (IH (OrderedDict.delitem k d) Hnd Hsub') as Hrest.
  assert (k ∈ OrderedDict.keys d) as Hin by (apply Hsub; by left).
  destruct (OrderedDict.getitem k d) as [v|] eqn:Hget.
  - pose proof (getitem_Some_length_delitem k v d Hget). lia.
  - by apply getitem_None_key in Hget.
Qed.

Lemma delete_keys_items (keys : list string) d (x : string * V) :
  x ∈ foldl (fun d key => OrderedDict.delitem key d) d keys → x ∈ d.
Proof.
  revert d. induction keys as [|k keys IH]; intros d; simpl; [done|].
  intros H. apply IH in H. by apply delitem_items in H.
Qed.

Lemma delete_keys_keys (keys : list string) d :
  NoDup (OrderedDict.keys d) →
  OrderedDict.keys (foldl (fun d key => OrderedDict.delitem key d) d keys)
  = filter (fun k => k ∉ keys) (OrderedDict.keys d).
Proof.
  revert d. induction keys as [|k keys IH]; intros d Hnd; simpl.
  - symmetry. clear Hnd. induction (OrderedDict.keys d) as [|x l IHl]; [done|].
    rewrite filter_cons_True; [by rewrite IHl|apply not_elem_of_nil].
  - rewrite IH by (rewrite keys_delitem by done; by apply NoDup_filter).
    rewrite keys_delitem by done. rewrite list_filter_filter.
    apply list_filter_iff. intros x. split.
    + intros [H1 H2] H. apply elem_of_cons in H as [?|?]; done.
    + intros H. split.
      * intros Hx. apply H. by right.
      * intros ->. apply H. by left.
Qed.
End DictItems.

Section LoadingFacts.
Import Loading.

Lemma add_to_cache_ok (file_path : string) (pixmap : option QPixmap)
    (s : ImageLoader.t) :
  cache_ok s → cache_ok (ImageLoader._add_to_cache file_path pixmap s).
Proof.
  intros (Hl & Hnd & Hlen & Hall).
  destruct pixmap as [pm|]; [|done].
  destruct (isNull pm) eqn:Hpm; [unfold ImageLoader._add_to_cache; by rewrite Hpm|].
  split; [by rewrite add_to_cache_limit|]. split; [|split].
  - rewrite add_to_cache_keys by done. by apply keys_after_insert_NoDup.
  - rewrite add_to_cache_limit. by apply add_to_cache_len.
  - unfold ImageLoader._add_to_cache. rewrite Hpm. simpl.
    apply Forall_forall. intros x Hx.
    apply move_to_end_items, setitem_items in Hx as [->|Hx]; [done|].
    rewrite evict_while_full_drop in Hx by done. apply subseteq_drop in Hx.
    rewrite Forall_forall in Hall. by apply Hall.
Qed.

Lemma move_to_end_ok (file_path : string) (s : ImageLoader.t) :
  cache_ok s →
  cache_ok (ImageLoader.set_cache
              (OrderedDict.move_to_end file_path (ImageLoader.cache s)) s).
Proof.
  intros (Hl & Hnd & Hlen & Hall). split; [done|]. simpl. split; [|split].
  - destruct (decide (file_path ∈ OrderedDict.keys (ImageLoader.cache s))) as [Hin|Hout].
    + rewrite keys_move_to_end by done. apply NoDup_app. split; [|split].
      * by apply NoDup_filter.
      * intros x Hx Hx'. apply list_elem_of_singleton in Hx' as ->.
        by apply list_elem_of_filter in Hx as [? _].
      * apply NoDup_singleton.
    + apply getitem_None_key in Hout. unfold OrderedDict.move_to_end. by rewrite Hout.
  - unfold OrderedDict.len in *. by rewrite move_to_end_length.
  - apply Forall_forall. intros x Hx. apply move_to_end_items in Hx.
    rewrite Forall_forall in Hall. by apply Hall.
Qed.

(** What [finish] hands back. *)
Lemma finish_spec (file_path : string) (pixmap : QPixmap) (self : t) :
  cache_ok (loader self) →
  let r := (finish file_path pixmap self).1 in
  let self' := (finish file_path pixmap self).2 in
  cache_ok (loader self')
  ∧ recently_decoded self' = recently_decoded self
  ∧ failed self' = failed self
  ∧ (if isNull pixmap
     then r = null_pixmap ∧ self' = self
     else r = pixmap
          ∧ OrderedDict.getitem file_path (ImageLoader.cache (loader self')) = Some pixmap
          ∧ last (OrderedDict.keys (ImageLoader.cache (loader self'))) = Some file_path).
Proof.
  intros Hok. unfold finish.
  destruct (isNull pixmap) eqn:Hpm;
    cbn [negb fst snd loader set_loader recently_decoded failed]; [done|].
  split; [by apply add_to_cache_ok|]. split; [done|]. split; [done|].
  split; [done|].
  destruct Hok as (Hl & Hnd & _). split.
  - rewrite add_to_cache_getitem by done. by rewrite decide_True.
  - by apply add_to_cache_last.
Qed.
End LoadingFacts.

Section DecodingHistory.
Import Loading.

Local Abbreviation by_time := (fun a b : string * Q => (a.2 <= b.2)%Q).

Lemma insert_by_time_perm (item : string * Q) (sorted : list (string * Q)) :
  insert_by_time item sorted ≡ₚ item :: sorted.
Proof.
  induction sorted as [|other rest IH]; cbn [insert_by_time]; [done|].
  destruct (Qle_bool other.2 item.2); [|done].
  rewrite IH. apply Permutation_swap.
Qed.

Lemma sorted_by_time_perm_acc (items acc : list (string * Q)) :
  foldl (fun sorted item => insert_by_time item sorted) acc items ≡ₚ acc ++ items.
Proof.
  revert acc. induction items as [|item items IH]; intros acc; simpl.
  - by rewrite app_nil_r.
  - rewrite IH, insert_by_time_perm. simpl. apply Permutation_middle.
Qed.

Lemma sorted_by_time_perm (items : list (string * Q)) :
  sorted_by_time items ≡ₚ items.
Proof. apply (sorted_by_time_perm_acc items []). Qed.

Lemma insert_by_time_sorted (item : string * Q) (sorted : list (string * Q)) :
  StronglySorted by_time sorted → StronglySorted by_time (insert_by_time item sorted).
Proof.
  induction 1 as [|other rest Hs IH Hall]; cbn [insert_by_time].
  - repeat constructor.
  - destruct (Qle_bool other.2 item.2) eqn:Hle.
    + constructor; [done|]. apply Forall_forall. intros x Hx.
      rewrite insert_by_time_perm in Hx. apply elem_of_cons in Hx as [->|Hx].
      * by apply Qle_bool_iff.
      * rewrite Forall_forall in Hall. by apply Hall.
    + assert (item.2 <= other.2)%Q as Hlt.
      { apply Qlt_le_weak, Qnot_le_lt. intros H. apply Qle_bool_iff in H. congruence. }
      constructor; [by constructor|]. constructor; [done|].
      apply Forall_forall. intros x Hx. rewrite Forall_forall in Hall.
      by apply (Qle_trans _ other.2); [|apply Hall].
Qed.

Lemma sorted_by_time_sorted_acc (items acc : list (string * Q)) :
  StronglySorted by_time acc →
  StronglySorted by_time
    (foldl (fun sorted item => insert_by_time item sorted) acc items).
Proof.
  revert acc. induction items as [|item items IH]; intros acc Hs; simpl; [done|].
  by apply IH, insert_by_time_sorted.
Qed.

Lemma sorted_by_time_sorted (items : list (string * Q)) :
  StronglySorted by_time (sorted_by_time items).
Proof. apply sorted_by_time_sorted_acc. constructor. Qed.

Lemma StronglySorted_take_drop {A : Type} (R : A → A → Prop) (n : nat)
    (l : list A) (a b : A) :
  StronglySorted R l → a ∈ take n l → b ∈ drop n l → R a b.
Proof.
  intros Hs. revert n. induction Hs as [|x l Hs IH Hall]; intros n Ha Hb.
  - rewrite take_nil in Ha. by apply elem_of_nil in Ha.
  - destruct n as [|n]; [by apply elem_of_nil in Ha|].
    cbn [take drop] in Ha, Hb. apply elem_of_cons in Ha as [->|Ha].
    + rewrite Forall_forall in Hall. by apply Hall, (subseteq_drop n l).
    + by apply (IH n).
Qed.

Lemma drop_oldest_eq (max_entries : Z) (kept : OrderedDict.t Q) :
  drop_oldest max_entries kept
  = foldl (fun d key => OrderedDict.delitem key d) kept
          (take (Z.to_nat (OrderedDict.len kept - max_entries))
                (sorted_by_time kept)).*1.
Proof. unfold drop_oldest. cbv zeta. symmetry. apply foldl_fmap. Qed.

Lemma drop_oldest_keys (max_entries : Z) (kept : OrderedDict.t Q) :
  NoDup (OrderedDict.keys kept) →
  OrderedDict.keys (drop_oldest max_entries kept)
  = filter (fun k => k ∉ (take (Z.to_nat (OrderedDict.len kept - max_entries))
                               (sorted_by_time kept)).*1)
           (OrderedDict.keys kept).
Proof.
  intros Hnd. rewrite drop_oldest_eq. by apply delete_keys_keys.
Qed.

Lemma drop_oldest_length (max_entries : Z) (kept : OrderedDict.t Q) :
  NoDup (OrderedDict.keys kept) → 0 <= max_entries →
  max_entries < OrderedDict.len kept →
  OrderedDict.len (drop_oldest max_entries kept) = max_entries.
Proof.
  intros Hnd Hmax Hlen. rewrite drop_oldest_eq.
  set (n := Z.to_nat (OrderedDict.len kept - max_entries)).
  pose proof (sorted_by_time_perm kept) as Hperm.
  assert (NoDup (take n (sorted_by_time kept)).*1) as Hnd'.
  { rewrite fmap_take. apply (sublist_NoDup _ (sorted_by_time kept).*1);
      [|apply sublist_take].
    unfold OrderedDict.keys in Hnd. by rewrite Hperm. }
  assert ((take n (sorted_by_time kept)).*1 ⊆ OrderedDict.keys kept) as Hsub.
  { intros x Hx. rewrite fmap_take in Hx. apply subseteq_take in Hx.
    unfold OrderedDict.keys. by rewrite <- Hperm. }
  pose proof (delete_keys_length _ kept Hnd' Hsub) as Hcount.
  rewrite length_fmap, length_take in Hcount.
  apply Permutation_length in Hperm.
  unfold OrderedDict.len in *. subst n. lia.
Qed.

Lemma drop_oldest_items (max_entries : Z) (kept : OrderedDict.t Q)
    (x : string * Q) :
  x ∈ drop_oldest max_entries kept → x ∈ kept.
Proof.
  rewrite drop_oldest_eq. apply delete_keys_items.
Qed.

Lemma items_keys {V : Type} (d : OrderedDict.t V) (x : string * V) :
  x ∈ d → x.1 ∈ OrderedDict.keys d.
Proof. intros H. unfold OrderedDict.keys. by apply list_elem_of_fmap_2. Qed.

(** What the second stage removes is no newer than what it keeps. *)
Lemma drop_oldest_order (max_entries : Z) (kept : OrderedDict.t Q)
    (gone stays : string * Q) :
  NoDup (OrderedDict.keys kept) →
  gone ∈ kept → gone.1 ∉ OrderedDict.keys (drop_oldest max_entries kept) →
  stays ∈ drop_oldest max_entries kept →
  (gone.2 <= stays.2)%Q.
Proof.
  intros Hnd Hgone Hout Hstays.
  set (n := Z.to_nat (OrderedDict.len kept - max_entries)) in *.
  pose proof (sorted_by_time_perm kept) as Hperm.
  assert (∀ x y : string * Q, x ∈ kept → y ∈ kept → x.1 = y.1 → x = y) as Hfun.
  { intros x y Hx Hy Hxy. unfold OrderedDict.keys in Hnd.
    apply list_elem_of_lookup in Hx as [i Hi], Hy as [j Hj].
    assert (i = j) as ->.
    { apply (NoDup_lookup _ i j x.1 Hnd); rewrite list_lookup_fmap.
      - by rewrite Hi.
      - rewrite Hj. simpl. by rewrite Hxy. }
    congruence. }
  assert (gone ∈ take n (sorted_by_time kept)) as Hg.
  { rewrite drop_oldest_keys in Hout by done.
    destruct (decide (gone.1 ∈ (take n (sorted_by_time kept)).*1)) as [Hin|Hnot].
    - apply list_elem_of_fmap in Hin as (y & Hy1 & Hy).
      assert (y ∈ kept) as Hyk
        by (rewrite <- Hperm; by apply (subseteq_take n)).
      by rewrite (Hfun gone y Hgone Hyk Hy1).
    - exfalso. apply Hout. apply list_elem_of_filter. split; [done|].
      by apply items_keys. }
  assert (stays ∈ drop n (sorted_by_time kept)) as Hs.
  { pose proof (items_keys _ _ Hstays) as Hk.
    rewrite drop_oldest_keys in Hk by done.
    apply list_elem_of_filter in Hk as [Hk _].
    apply drop_oldest_items in Hstays. rewrite <- Hperm in Hstays.
    rewrite <- (take_drop n (sorted_by_time kept)) in Hstays.
    apply elem_of_app in Hstays as [Hin|Hin]; [|done].
    exfalso. apply Hk. by apply list_elem_of_fmap_2. }
  apply (StronglySorted_take_drop by_time n (sorted_by_time kept));
    [apply sorted_by_time_sorted|done|done].
Qed.
Lemma delitem_sublist {V : Type} (k : string) (d : OrderedDict.t V) :
  OrderedDict.delitem k d `sublist_of` d.
Proof.
  induction d as [|[k' v'] d IH]; cbn [OrderedDict.delitem]; [done|].
  destruct (decide (k = k')); [by apply sublist_cons|by apply sublist_skip].
Qed.

Lemma drop_oldest_sublist (max_entries : Z) (kept : OrderedDict.t Q) :
  drop_oldest max_entries kept `sublist_of` kept.
Proof.
  rewrite drop_oldest_eq.
  generalize ((take (Z.to_nat (OrderedDict.len kept - max_entries))
                    (sorted_by_time kept)).*1).
  intros keys. revert kept. induction keys as [|k keys IH]; intros kept; simpl; [done|].
  etrans; [apply IH|apply delitem_sublist].
Qed.

Lemma keys_sublist {V : Type} (d d' : OrderedDict.t V) :
  d `sublist_of` d' → NoDup (OrderedDict.keys d') → NoDup (OrderedDict.keys d).
Proof.
  intros Hsub Hnd. apply (sublist_NoDup _ (OrderedDict.keys d')); [done|].
  unfold OrderedDict.keys. by apply fmap_sublist.
Qed.

Lemma key_item {V : Type} (d : OrderedDict.t V) (x y : string * V) :
  NoDup (OrderedDict.keys d) → x ∈ d → y ∈ d → x.1 = y.1 → x = y.
Proof.
  intros Hnd Hx Hy Hxy. unfold OrderedDict.keys in Hnd.
  apply list_elem_of_lookup in Hx as [i Hi], Hy as [j Hj].
  assert (i = j) as ->.
  { apply (NoDup_lookup _ i j x.1 Hnd); rewrite list_lookup_fmap.
    - by rewrite Hi.
    - rewrite Hj. simpl. by rewrite Hxy. }
  congruence.
Qed.

(** The three ways [_clean_old_decoding_history] ends. *)
Lemma clean_cases (current_time : Q) (max_entries : Z) (self : t) :
  let kept :=
    filter (fun item =>
              Qle_bool (current_time - decoding_cooldown self * 2)%Q item.2 = true)
           (recently_decoded self) in
  let self' := _clean_old_decoding_history current_time max_entries self in
  loader self' = loader self ∧ failed self' = failed self
  ∧ decoding_cooldown self' = decoding_cooldown self
  ∧ _raw_load_strategy self' = _raw_load_strategy self
  ∧ ((OrderedDict.len (recently_decoded self) <= max_entries
      ∧ recently_decoded self' = recently_decoded self)
     ∨ (OrderedDict.len kept <= max_entries ∧ recently_decoded self' = kept)
     ∨ (max_entries < OrderedDict.len kept
        ∧ recently_decoded self' = drop_oldest max_entries kept)).
Proof.
  intros kept self'. subst self'. unfold _clean_old_decoding_history.
  destruct (Z.leb_spec (OrderedDict.len (recently_decoded self)) max_entries) as [Hle|Hgt].
  - repeat (split; [done|]). by left.
  - cbv zeta. fold kept. cbn [loader failed decoding_cooldown _raw_load_strategy
                               recently_decoded].
    repeat (split; [done|]). right.
    destruct (Z.gtb_spec (OrderedDict.len kept) max_entries) as [Hk|Hk].
    + right. split; [lia|done].
    + by left.
Qed.

(** An entry that [_clean_old_decoding_history] removes is older than
    twice the cooldown, or no newer than any entry that stays while the
    history is left with exactly [max_entries] entries. *)
Lemma clean_removed (current_time : Q) (max_entries : Z) (self : t)
    (gone : string * Q) :
  NoDup (OrderedDict.keys (recently_decoded self)) → 0 <= max_entries →
  let self' := _clean_old_decoding_history current_time max_entries self in
  gone ∈ recently_decoded self →
  gone.1 ∉ OrderedDict.keys (recently_decoded self') →
  (gone.2 < current_time - decoding_cooldown self * 2)%Q
  ∨ (OrderedDict.len (recently_decoded self') = max_entries
     ∧ ∀ stays, stays ∈ recently_decoded self' → (gone.2 <= stays.2)%Q).
Proof.
  intros Hnd Hmax self' Hin Hout.
  destruct (clean_cases current_time max_entries self)
    as (_ & _ & _ & _ & Hcases). fold self' in Hcases.
  set (kept := filter (fun item =>
                Qle_bool (current_time - decoding_cooldown self * 2)%Q item.2 = true)
                (recently_decoded self)) in *.
  destruct Hcases as [[_ Heq]|Hcases].
  { exfalso. apply Hout. rewrite Heq. by apply items_keys. }
  destruct (Qle_bool (current_time - decoding_cooldown self * 2)%Q gone.2) eqn:Hold.
  2:{ left. apply Qnot_le_lt. intros H. apply Qle_bool_iff in H. congruence. }
  assert (gone ∈ kept) as Hk by (by apply list_elem_of_filter).
  assert (NoDup (OrderedDict.keys kept)) as Hndk
    by (apply (keys_sublist kept (recently_decoded self)); [apply sublist_filter|done]).
  destruct Hcases as [[_ Heq]|[Hlen Heq]].
  { exfalso. apply Hout. rewrite Heq. by apply items_keys. }
  right. rewrite Heq in *. split; [by apply drop_oldest_length|].
  intros stays Hstays. by apply (drop_oldest_order max_entries kept).
Qed.

Lemma clean_length (current_time : Q) (max_entries : Z) (self : t) :
  NoDup (OrderedDict.keys (recently_decoded self)) → 0 <= max_entries →
  OrderedDict.len
    (recently_decoded (_clean_old_decoding_history current_time max_entries self))
  <= max_entries.
Proof.
  intros Hnd Hmax.
  destruct (clean_cases current_time max_entries self)
    as (_ & _ & _ & _ & [[Hlen Heq]|[[Hlen Heq]|[Hlen Heq]]]); rewrite Heq; try done.
  rewrite drop_oldest_length; [done| |done|done].
  apply (keys_sublist _ (recently_decoded self)); [apply sublist_filter|done].
Qed.

Lemma clean_sublist (current_time : Q) (max_entries : Z) (self : t) :
  recently_decoded (_clean_old_decoding_history current_time max_entries self)
  `sublist_of` recently_decoded self.
Proof.
  destruct (clean_cases current_time max_entries self)
    as (_ & _ & _ & _ & [[Hlen Heq]|[[Hlen Heq]|[Hlen Heq]]]); rewrite Heq.
  - done.
  - apply sublist_filter.
  - etrans; [apply drop_oldest_sublist|apply sublist_filter].
Qed.

(** The attempt just recorded survives the cleaning when the clock has
    moved since every other attempt. *)
Lemma clean_keeps_newest (current_time : Q) (max_entries : Z) (self : t)
    (name : string) :
  NoDup (OrderedDict.keys (recently_decoded self)) → 1 <= max_entries →
  (0 <= decoding_cooldown self)%Q →
  OrderedDict.getitem name (recently_decoded self) = Some current_time →
  (∀ other, other ∈ recently_decoded self → other.1 ≠ name →
            (other.2 < current_time)%Q) →
  OrderedDict.getitem name
    (recently_decoded (_clean_old_decoding_history current_time max_entries self))
  = Some current_time.
Proof.
  intros Hnd Hmax Hcd Hget Hnewest.
  set (self' := _clean_old_decoding_history current_time max_entries self).
  pose proof (getitem_Some_item _ _ _ Hget) as Hin.
  pose proof (clean_sublist current_time max_entries self) as Hsub. fold self' in Hsub.
  assert (NoDup (OrderedDict.keys (recently_decoded self'))) as Hnd'
    by by apply (keys_sublist _ (recently_decoded self)).
  destruct (OrderedDict.getitem name (recently_decoded self')) as [t'|] eqn:Hget'.
  - apply getitem_Some_item in Hget'.
    pose proof (elem_of_sublist _ _ _ Hget' Hsub) as Hin'.
    pose proof (key_item _ (name, t') (name, current_time) Hnd Hin' Hin eq_refl).
    congruence.
  - exfalso. apply getitem_None_key in Hget'.
    destruct (clean_removed current_time max_entries self (name, current_time)
                Hnd ltac:(lia) Hin Hget') as [Hold|[Hlen Hall]].
    + simpl in Hold. lra.
    + fold self' in Hlen, Hall.
      destruct (recently_decoded self') as [|stays rest] eqn:Hrd.
      { unfold OrderedDict.len in Hlen. simpl in Hlen. lia. }
      assert (stays ∈ recently_decoded self) as Hs.
      { apply (elem_of_sublist (stays :: rest)); [by left|done]. }
      assert (stays.1 ≠ name) as Hne.
      { intros Hname. apply Hget'. rewrite <- Hname.
        apply (items_keys (stays :: rest)). by left. }
      pose proof (Hnewest stays Hs Hne) as Hlt.
      pose proof (Hall stays ltac:(by left)) as Hle. simpl in Hle. lra.
Qed.

(** X3: the decoding history stays bounded and loses its oldest entries
    first.  For a history with distinct names, after
    [_clean_old_decoding_history] at most [max_entries] entries are left,
    they are entries of the history before, in their order, and an entry
    that went was older than twice the cooldown or no newer than any entry
    that stayed. *)
Theorem clean_old_decoding_history_bounds (current_time : Q) (max_entries : Z)
    (self : t) :
  NoDup (OrderedDict.keys (recently_decoded self)) → 0 <= max_entries →
  let self' := _clean_old_decoding_history current_time max_entries self in
  OrderedDict.len (recently_decoded self') <= max_entries
  ∧ recently_decoded self' `sublist_of` recently_decoded self
  ∧ loader self' = loader self
  ∧ (∀ gone, gone ∈ recently_decoded self →
       gone.1 ∉ OrderedDict.keys (recently_decoded self') →
       (gone.2 < current_time - decoding_cooldown self * 2)%Q
       ∨ ∀ stays, stays ∈ recently_decoded self' → (gone.2 <= stays.2)%Q).
Proof.
  intros Hnd Hmax self'. split; [by apply clean_length|].
  split; [apply clean_sublist|]. split; [apply clean_cases|].
  intros gone Hin Hout.
  destruct (clean_removed current_time max_entries self gone Hnd Hmax Hin Hout)
    as [?|[_ ?]]; [by left|by right].
Qed.

(** With room for two entries and a cooldown of 30 s, at time 100 the
    entry of time 10 is too old and the entry of time 50 is the oldest of
    the three that are left. *)
Lemma clean_old_decoding_history_bounds_witness :
  let self :=
    mk (ImageLoader.__init__ 8 0)
       [("a.arw", 90%Q); ("b.arw", 10%Q); ("c.arw", 50%Q); ("d.arw", 70%Q)]%string
       30 "decode" [] in
  recently_decoded (_clean_old_decoding_history 100 2 self)
  = [("a.arw", 90%Q); ("d.arw", 70%Q)]%string
  ∧ OrderedDict.len (recently_decoded (_clean_old_decoding_history 100 2 self)) <= 2.
Proof.
  intros self. split; [reflexivity|].
  apply (clean_old_decoding_history_bounds 100 2 self); [by_evaluation|lia].
Defined.
End DecodingHistory.

Section LoadImage.
Import Loading.

Lemma clean_loader (current_time : Q) (max_entries : Z) (self : t) :
  loader (_clean_old_decoding_history current_time max_entries self) = loader self.
Proof. apply clean_cases. Qed.

Lemma finish_null (file_path : string) (self : t) :
  finish file_path null_pixmap self = (null_pixmap, self).
Proof. done. Qed.


Lemma finish_post (file_path : string) (pixmap : QPixmap) (self0 self : t) :
  cache_ok (loader self0) → loader self = loader self0 →
  load_post file_path self0 (finish file_path pixmap self).
Proof.
  intros Hok Hl. rewrite <- Hl in Hok. unfold load_post. rewrite <- Hl.
  destruct (finish_spec file_path pixmap self Hok) as (Hok' & _ & _ & Hres).
  unfold finish in *. destruct (isNull pixmap) eqn:Hpm; cbn [negb fst snd] in *.
  - split; [done|]. split; [done|]. by cbn [isNull null_pixmap].
  - split; [done|]. split; [cbn [loader set_loader]; apply add_to_cache_limit|].
    rewrite Hpm. left. by destruct Hres as (_ & ? & ?).
Qed.

Lemma null_post (file_path : string) (self0 self : t) :
  cache_ok (loader self0) → loader self = loader self0 →
  load_post file_path self0 (null_pixmap, self).
Proof.
  intros Hok Hl. unfold load_post. cbn [fst snd isNull null_pixmap].
  rewrite Hl. done.
Qed.

(** X4: loading keeps the cache well formed and returns what it cached.
    Whatever the decoders do, and whatever the two readings of the running
    flag are, [load_image_with_orientation] on a well-formed cache leaves a
    well-formed cache under the same limit; a null result is [QPixmap()]
    and the image cache is untouched; a non-null result is the pixmap now
    cached for the path as the most recently used entry, or else the
    cooldown placeholder with the loader's state unchanged. *)
Theorem load_keeps_cache_well_formed (codecs : Codecs)
    (running running_later : bool) (current_time : Q) (file_path : string)
    (self : t) :
  cache_ok (loader self) →
  load_post file_path self
    (load_image_with_orientation codecs running running_later current_time
       file_path self).
Proof.
  intros Hok. unfold load_image_with_orientation.
  destruct running; cbn [negb]; [|by apply null_post].
  destruct (OrderedDict.getitem file_path (ImageLoader.cache (loader self)))
    as [cached|] eqn:Hhit.
  { unfold load_post. cbn [fst snd loader set_loader].
    split; [by apply move_to_end_ok|]. split; [done|].
    assert (isNull cached = false) as ->.
    { destruct Hok as (_ & _ & _ & Hall). rewrite Forall_forall in Hall.
      apply (Hall (file_path, cached)). by apply getitem_Some_item. }
    left. cbn [ImageLoader.cache ImageLoader.set_cache].
    destruct Hok as (_ & Hnd & _). split.
    - by rewrite getitem_move_to_end.
    - rewrite keys_move_to_end; [by rewrite last_snoc|done|].
      by apply (getitem_Some_key _ cached). }
  destruct (is_raw codecs file_path).
  - destruct (bool_decide (_raw_load_strategy self = "preview"%string));
      [by apply finish_post|].
    destruct (bool_decide (_raw_load_strategy self = "decode"%string));
      [|by apply finish_post].
    cbv zeta.
    destruct (match OrderedDict.getitem (file_name codecs file_path)
                      (recently_decoded self) with
              | Some last_decode_time =>
                  negb (Qle_bool (decoding_cooldown self)
                                 (current_time - last_decode_time)%Q)
              | None => false
              end).
    { unfold load_post. cbn [fst snd isNull placeholder].
      split; [done|]. split; [done|]. by right. }
    destruct running_later; cbn [negb]; [|by apply null_post].
    destruct (raw_decode codecs file_path) as [|pixmap].
    + apply finish_post; [done|]. by rewrite clean_loader.
    + destruct (isNull pixmap); cbn [negb];
        (apply finish_post; [done|]; by rewrite clean_loader).
  - destruct running_later; cbn [negb]; [|by apply null_post].
    destruct (image_decode codecs file_path) as [|pixmap]; [|by apply finish_post].
    destruct (qpixmap_open codecs file_path) as [|pixmap];
      [by apply null_post|by apply finish_post].
Qed.

Lemma load_keeps_cache_well_formed_witness :
  let codecs :=
    {| is_raw := fun _ => false;
       file_name := fun p => p;
       raw_preview := fun _ => None;
       raw_decode := fun _ => DecodeRaises;
       image_decode := fun _ => DecodeGives sample_pixmap;
       qpixmap_open := fun _ => DecodeRaises |} in
  let self := set_loader (loader_holding 3 ["a"; "b"; "c"]%string) (__init__ 8 0) in
  load_post "d" self (load_image_with_orientation codecs true true 1 "d" self).
Proof.
  intros codecs self. apply load_keeps_cache_well_formed.
  unfold cache_ok. split; [vm_compute; discriminate|].
  split; [by_evaluation|]. split; [vm_compute; discriminate|].
  repeat constructor.
Defined.
(** A RAW file whose attempt is on record and still inside the cooldown
    is answered with the placeholder. *)
Lemma load_on_cooldown (codecs : Codecs) (running_later : bool)
    (current_time last_decode_time : Q) (file_path : string) (self : t) :
  _raw_load_strategy self = "decode"%string →
  is_raw codecs file_path = true →
  OrderedDict.getitem file_path (ImageLoader.cache (loader self)) = None →
  OrderedDict.getitem (file_name codecs file_path) (recently_decoded self)
  = Some last_decode_time →
  (current_time - last_decode_time < decoding_cooldown self)%Q →
  load_image_with_orientation codecs true running_later current_time file_path self
  = (placeholder, self).
Proof.
  intros Hstrategy Hraw Hmiss Hrec Hcool. unfold load_image_with_orientation.
  cbn [negb]. rewrite Hmiss, Hraw, Hstrategy, Hrec.
  rewrite bool_decide_eq_false_2 by done. rewrite bool_decide_eq_true_2 by done.
  cbv zeta.
  destruct (Qle_bool (decoding_cooldown self) (current_time - last_decode_time)%Q)
    eqn:Hle; [|done].
  apply Qle_bool_iff in Hle. lra.
Qed.

(** A load that came back null under the decode strategy has left its
    attempt on record: while the manager is running, a second load inside
    the cooldown is answered with the placeholder. *)
Lemma retry_within_cooldown (codecs codecs' : Codecs)
    (later later' : bool) (t0 t1 : Q) (file_path : string) (self : t) :
  _raw_load_strategy self = "decode"%string →
  is_raw codecs file_path = true → is_raw codecs' file_path = true →
  file_name codecs' file_path = file_name codecs file_path →
  OrderedDict.getitem file_path (ImageLoader.cache (loader self)) = None →
  NoDup (OrderedDict.keys (recently_decoded self)) →
  (0 <= decoding_cooldown self)%Q →
  (∀ other, other ∈ recently_decoded self → (other.2 < t0)%Q) →
  (t1 - t0 < decoding_cooldown self)%Q →
  let out := load_image_with_orientation codecs true later t0 file_path self in
  isNull out.1 = true →
  load_image_with_orientation codecs' true later' t1 file_path out.2
  = (placeholder, out.2).
Proof.
  intros Hstrategy Hraw Hraw' Hname Hmiss Hnd Hcd Hnewest Hcool out.
  set (name := file_name codecs file_path) in *.
  set (s1 := mk (loader self)
                (OrderedDict.setitem name t0 (recently_decoded self))
                (decoding_cooldown self) (_raw_load_strategy self) (failed self)).
  assert (∀ s2, loader s2 = loader self →
                recently_decoded s2 = recently_decoded s1 →
                decoding_cooldown s2 = decoding_cooldown self →
                _raw_load_strategy s2 = _raw_load_strategy self →
                load_image_with_orientation codecs' true later' t1 file_path
                  (_clean_old_decoding_history t0 50 s2)
                = (placeholder, _clean_old_decoding_history t0 50 s2)) as Hcleaned.
  { intros s2 Hl Hrd Hc Hs.
    destruct (clean_cases t0 50 s2) as (Hl' & _ & Hc' & Hs' & _).
    apply (load_on_cooldown codecs' later' t1 t0).
    - by rewrite Hs', Hs.
    - done.
    - by rewrite Hl', Hl.
    - rewrite Hname. fold name. apply clean_keeps_newest.
      + rewrite Hrd. by apply NoDup_keys_setitem.
      + lia.
      + by rewrite Hc.
      + rewrite Hrd. apply getitem_setitem.
      + intros other Hin Hne. rewrite Hrd in Hin.
        apply setitem_items in Hin as [->|Hin]; [done|]. by apply Hnewest.
    - by rewrite Hc', Hc. }
  assert (load_image_with_orientation codecs' true later' t1 file_path s1
          = (placeholder, s1)) as Hrecorded.
  { apply (load_on_cooldown codecs' later' t1 t0); try done.
    rewrite Hname. apply getitem_setitem. }
  subst out. unfold load_image_with_orientation at 1 3 4.
  cbn [negb]. rewrite Hmiss, Hraw, Hstrategy.
  rewrite bool_decide_eq_false_2 by done. rewrite bool_decide_eq_true_2 by done.
  cbv zeta. fold name.
  destruct (match OrderedDict.getitem name (recently_decoded self) with
            | Some last_decode_time =>
                negb (Qle_bool (decoding_cooldown self) (t0 - last_decode_time)%Q)
            | None => false
            end); [done|].
  rewrite <- Hstrategy. fold s1.
  destruct later; cbn [negb fst snd]; [|intros _; exact Hrecorded].
  destruct (raw_decode codecs file_path) as [|pixmap].
  - rewrite finish_null. cbn [fst snd]. intros _. by apply Hcleaned.
  - destruct (isNull pixmap) eqn:Hpm; cbn [negb].
    + rewrite finish_null. cbn [fst snd]. intros _. by apply Hcleaned.
    + unfold finish. rewrite Hpm. cbn [negb fst]. congruence.
Qed.

(** X5: a failed RAW decode is not retried during the cooldown.  Under the
    decode strategy, when a load of an uncached RAW file at time [t0]
    comes back null (the decoder raised, gave a null pixmap, or the
    manager stopped during the load), a second load of that file less than
    the cooldown later does not call the decoder, signals no failure and
    changes nothing, whatever the decoders would return: it returns the
    placeholder when the manager is running at that call, and [QPixmap()]
    when it is not.  (A manager that has stopped stays stopped, so after a
    load abandoned because the manager stopped the second answer is
    [QPixmap()].)  The clock must have moved since the attempts on record,
    so that cleaning the history cannot drop the new record. *)
Theorem failed_decode_is_not_retried (codecs codecs' : Codecs)
    (later running' later' : bool) (t0 t1 : Q) (file_path : string) (self : t) :
  _raw_load_strategy self = "decode"%string →
  is_raw codecs file_path = true → is_raw codecs' file_path = true →
  file_name codecs' file_path = file_name codecs file_path →
  OrderedDict.getitem file_path (ImageLoader.cache (loader self)) = None →
  NoDup (OrderedDict.keys (recently_decoded self)) →
  (0 <= decoding_cooldown self)%Q →
  (∀ other, other ∈ recently_decoded self → (other.2 < t0)%Q) →
  (t1 - t0 < decoding_cooldown self)%Q →
  let out := load_image_with_orientation codecs true later t0 file_path self in
  isNull out.1 = true →
  load_image_with_orientation codecs' running' later' t1 file_path out.2
  = (if running' then placeholder else null_pixmap, out.2)
  ∧ (later = false →
     out.1 = null_pixmap ∧ failed out.2 = failed self
     ∧ loader out.2 = loader self).
Proof.
  intros Hstrategy Hraw Hraw' Hname Hmiss Hnd Hcd Hnewest Hcool out Hnull.
  split.
  - destruct running'.
    + by apply (retry_within_cooldown codecs codecs' later later' t0 t1).
    + reflexivity.
  - intros ->. subst out. unfold load_image_with_orientation.
    cbn [negb]. rewrite Hmiss, Hraw, Hstrategy.
    rewrite bool_decide_eq_false_2 by done. rewrite bool_decide_eq_true_2 by done.
    cbv zeta.
    destruct (match OrderedDict.getitem (file_name codecs file_path)
                      (recently_decoded self) with
              | Some last_decode_time =>
                  negb (Qle_bool (decoding_cooldown self) (t0 - last_decode_time)%Q)
              | None => false
              end) eqn:Hrecent; [|done].
    exfalso. unfold load_image_with_orientation in Hnull.
    cbn [negb] in Hnull. rewrite Hmiss, Hraw, Hstrategy in Hnull.
    rewrite bool_decide_eq_false_2 in Hnull by done.
    rewrite bool_decide_eq_true_2 in Hnull by done.
    cbv zeta in Hnull. by rewrite Hrecent in Hnull.
Qed.

Lemma failed_decode_is_not_retried_witness :
  let codecs :=
    {| is_raw := fun _ => true;
       file_name := fun p => p;
       raw_preview := fun _ => None;
       raw_decode := fun _ => DecodeRaises;
       image_decode := fun _ => DecodeRaises;
       qpixmap_open := fun _ => DecodeRaises |} in
  let self := set_raw_load_strategy "decode" (__init__ 8 0) in
  let out := load_image_with_orientation codecs true true 100 "a.arw" self in
  out.1 = null_pixmap ∧ failed out.2 = ["a.arw"%string]
  ∧ load_image_with_orientation codecs true true 129 "a.arw" out.2
    = (placeholder, out.2).
Proof.
  intros codecs self out. split; [reflexivity|]. split; [reflexivity|].
  apply (failed_decode_is_not_retried codecs codecs true true true 100 129
           "a.arw" self); try reflexivity.
  - constructor.
  - vm_compute. discriminate.
  - intros other H. by apply elem_of_nil in H.
Defined.
(** X6: a cache hit only reorders.  When the path is cached, the load
    returns the cached pixmap and makes it the most recently used entry;
    the other keys keep their order, every key keeps its pixmap, nothing
    is evicted, the decoding history and the failure signals are as
    before, and neither the decoders nor the clock have any influence. *)
Theorem cache_hit_only_reorders (codecs codecs' : Codecs) (later later' : bool)
    (now now' : Q) (file_path : string) (cached : QPixmap) (self : t) :
  NoDup (OrderedDict.keys (ImageLoader.cache (loader self))) →
  OrderedDict.getitem file_path (ImageLoader.cache (loader self)) = Some cached →
  let out := load_image_with_orientation codecs true later now file_path self in
  out.1 = cached
  ∧ OrderedDict.keys (ImageLoader.cache (loader out.2))
    = filter (fun k => k ≠ file_path)
             (OrderedDict.keys (ImageLoader.cache (loader self))) ++ [file_path]
  ∧ (∀ k, OrderedDict.getitem k (ImageLoader.cache (loader out.2))
          = OrderedDict.getitem k (ImageLoader.cache (loader self)))
  ∧ recently_decoded out.2 = recently_decoded self
  ∧ failed out.2 = failed self
  ∧ load_image_with_orientation codecs' true later' now' file_path self = out.
Proof.
  intros Hnd Hhit out. subst out. unfold load_image_with_orientation.
  cbn [negb]. rewrite Hhit.
  cbn [fst snd loader set_loader recently_decoded failed
       ImageLoader.cache ImageLoader.set_cache].
  split; [done|]. split.
  { apply keys_move_to_end; [done|]. by apply (getitem_Some_key _ cached). }
  split; [|done]. intros k. by apply getitem_move_to_end.
Qed.

Lemma cache_hit_only_reorders_witness :
  let codecs :=
    {| is_raw := fun _ => true;
       file_name := fun p => p;
       raw_preview := fun _ => None;
       raw_decode := fun _ => DecodeRaises;
       image_decode := fun _ => DecodeRaises;
       qpixmap_open := fun _ => DecodeRaises |} in
  let self := set_loader (loader_holding 3 ["a"; "b"; "c"]%string) (__init__ 8 0) in
  let out := load_image_with_orientation codecs true true 5 "a" self in
  out.1 = sample_pixmap
  ∧ OrderedDict.keys (ImageLoader.cache (loader out.2)) = ["b"; "c"; "a"]%string.
Proof.
  intros codecs self out. subst out.
  destruct (cache_hit_only_reorders codecs codecs true true 5 5 "a" sample_pixmap self
              ltac:(by_evaluation) eq_refl) as (Hres & Hkeys & _).
  split; [exact Hres|]. rewrite Hkeys. reflexivity.
Defined.
End LoadImage.

(** ** Trimming the cache under memory pressure *)

Section MemoryWatchFacts.
Import MemoryWatch.

Lemma delete_keys_sublist {V : Type} (keys : list string) (d : OrderedDict.t V) :
  foldl (fun d key => OrderedDict.delitem key d) d keys `sublist_of` d.
Proof.
  revert d. induction keys as [|k keys IH]; intros d; simpl; [done|].
  etrans; [apply IH|apply delitem_sublist].
Qed.

Lemma delete_first_keys {V : Type} (n : nat) (d : OrderedDict.t V) :
  NoDup (OrderedDict.keys d) →
  foldl (fun d key => OrderedDict.delitem key d) d (take n (OrderedDict.keys d))
  = drop n d.
Proof.
  revert n. induction d as [|[k v] d IH]; intros n Hnd.
  - by destruct n.
  - destruct n as [|n]; [done|].
    change (OrderedDict.keys ((k, v) :: d)) with (k :: OrderedDict.keys d) in *.
    apply NoDup_cons in Hnd as [_ Hnd].
    cbn [take foldl drop OrderedDict.delitem]. rewrite decide_True by done.
    by apply IH.
Qed.

Lemma getitem_sublist {V : Type} (k : string) (d d' : OrderedDict.t V) :
  d' `sublist_of` d → NoDup (OrderedDict.keys d) → k ∈ OrderedDict.keys d' →
  OrderedDict.getitem k d' = OrderedDict.getitem k d.
Proof.
  intros Hsub Hnd Hin.
  destruct (OrderedDict.getitem k d') as [v|] eqn:Hget;
    [|by apply getitem_None_key in Hget].
  apply getitem_Some_item in Hget.
  pose proof (elem_of_sublist _ _ _ Hget Hsub) as Hd.
  destruct (OrderedDict.getitem k d) as [v'|] eqn:Hget'.
  - apply getitem_Some_item in Hget'.
    pose proof (key_item d (k, v) (k, v') Hnd Hd Hget' eq_refl). congruence.
  - apply getitem_None_key in Hget'. exfalso. apply Hget'.
    by apply (items_keys d (k, v)).
Qed.

(** The loop of [perform_emergency_cleanup] takes the oldest keys other
    than the displayed one, and at least one of them. *)
Lemma keys_to_remove_take (current : option string) (limit keep_count : Z)
    (keys : list string) :
  keys_to_remove current limit keep_count keys
  = take (Z.to_nat (Z.max 1 (limit - keep_count)))
         (filter (fun key => Some key ≠ current) keys).
Proof.
  revert keep_count. induction keys as [|key keys IH]; intros keep_count.
  - by rewrite filter_nil, take_nil.
  - cbn [keys_to_remove]. destruct (decide (Some key = current)) as [Heq|Hne].
    + rewrite filter_cons_False by (intros H; by apply H). apply IH.
    + rewrite filter_cons_True by done.
      destruct (Z.geb_spec (keep_count + 1) limit) as [Hge|Hlt].
      * replace (Z.to_nat (Z.max 1 (limit - keep_count))) with 1%nat by lia.
        by rewrite firstn_cons, take_0.
      * rewrite IH.
        replace (Z.to_nat (Z.max 1 (limit - keep_count)))
          with (S (Z.to_nat (Z.max 1 (limit - (keep_count + 1))))) by lia.
        by rewrite firstn_cons.
Qed.

Lemma others_length (current : option string) (keys : list string) :
  NoDup keys →
  (length keys <= S (length (filter (fun key => Some key ≠ current) keys)))%nat.
Proof.
  induction 1 as [|key keys Hout Hnd IH]; [simpl; lia|].
  destruct (decide (Some key = current)) as [Heq|Hne].
  - rewrite filter_cons_False by (intros H; by apply H).
    assert (filter (fun key => Some key ≠ current) keys = keys) as ->; [|simpl; lia].
    clear IH Hnd. induction keys as [|k keys IH]; [done|].
    apply not_elem_of_cons in Hout as [Hk Hout].
    rewrite filter_cons_True by congruence. by rewrite IH.
  - rewrite filter_cons_True by done. simpl. lia.
Qed.

(** X7: the emergency cleanup spares the displayed image and keeps the ten
    most recent other than what it must remove.  On a cache with distinct
    keys, [perform_emergency_cleanup] deletes the oldest entries other
    than the displayed path: the entries left are entries of the cache
    before, in their order and with their pixmaps; the displayed path, if
    cached, is still cached; a cache of more than ten entries is left with
    exactly ten; and a cache of at most ten entries still loses its oldest
    entry that is not displayed. *)
Theorem emergency_cleanup_spares_displayed (image_files : list string)
    (current_image_index : Z) (loader : ImageLoader.t) :
  NoDup (OrderedDict.keys (ImageLoader.cache loader)) →
  let cache := ImageLoader.cache loader in
  let cache' :=
    ImageLoader.cache
      (perform_emergency_cleanup image_files current_image_index loader) in
  let current := current_path image_files current_image_index in
  let others := filter (fun key => Some key ≠ current) (OrderedDict.keys cache) in
  cache' `sublist_of` cache
  ∧ OrderedDict.keys cache'
    = filter (fun key =>
                key ∉ take (Z.to_nat (Z.max 1 (OrderedDict.len cache - 10))) others)
             (OrderedDict.keys cache)
  ∧ (∀ p, current = Some p → p ∈ OrderedDict.keys cache →
          p ∈ OrderedDict.keys cache'
          ∧ OrderedDict.getitem p cache' = OrderedDict.getitem p cache)
  ∧ (10 < OrderedDict.len cache → OrderedDict.len cache' = 10)
  ∧ (OrderedDict.len cache <= 10 → others ≠ [] →
     OrderedDict.len cache' = OrderedDict.len cache - 1).
Proof.
  intros Hnd cache cache' current others.
  set (m := Z.to_nat (Z.max 1 (OrderedDict.len cache - 10))).
  assert (cache' = foldl (fun c key => OrderedDict.delitem key c) cache
                         (take m others)) as Hcache'.
  { subst cache' m. unfold perform_emergency_cleanup. cbv zeta.
    cbn [ImageLoader.cache ImageLoader.set_cache]. fold cache current.
    rewrite keys_to_remove_take. fold others. do 2 f_equal. lia. }
  assert (NoDup (take m others)) as Hnd'.
  { apply (sublist_NoDup _ (OrderedDict.keys cache)); [done|].
    etrans; [apply sublist_take|apply sublist_filter]. }
  assert (take m others ⊆ OrderedDict.keys cache) as Hsub.
  { intros x Hx. apply subseteq_take in Hx.
    by apply list_elem_of_filter in Hx as [_ ?]. }
  assert (OrderedDict.keys cache'
          = filter (fun key => key ∉ take m others) (OrderedDict.keys cache)) as Hkeys
    by (rewrite Hcache'; by apply delete_keys_keys).
  pose proof (delete_keys_length (take m others) cache Hnd' Hsub) as Hcount.
  rewrite <- Hcache', length_take in Hcount.
  pose proof (others_length current (OrderedDict.keys cache) Hnd) as Hothers.
  fold others in Hothers.
  assert (cache' `sublist_of` cache) as Hsl
    by (rewrite Hcache'; apply delete_keys_sublist).
  split; [done|]. split; [done|]. split; [|split].
  - intros p Hp Hin.
    assert (p ∈ OrderedDict.keys cache') as Hin'.
    { rewrite Hkeys. apply list_elem_of_filter. split; [|done].
      intros Hx. apply subseteq_take in Hx.
      apply list_elem_of_filter in Hx as [Hne _]. by apply Hne. }
    split; [done|]. by apply getitem_sublist.
  - intros Hbig. unfold OrderedDict.len, OrderedDict.keys in *.
    rewrite length_fmap in Hothers. subst m. lia.
  - intros Hsmall Hsome. unfold OrderedDict.len in *.
    assert (length others ≠ 0)%nat by (by destruct others).
    subst m. lia.
Qed.

Lemma emergency_cleanup_spares_displayed_witness :
  let loader := loader_holding 120 (numbered_paths 12) in
  let files := numbered_paths 12 in
  OrderedDict.len
    (ImageLoader.cache (perform_emergency_cleanup files 0 loader)) = 10
  ∧ OrderedDict.contains "img0.jpg"
      (ImageLoader.cache (perform_emergency_cleanup files 0 loader)) = true.
Proof.
  intros loader files.
  destruct (emergency_cleanup_spares_displayed files 0 loader ltac:(by_evaluation))
    as (_ & _ & _ & Hten & _).
  split; [apply Hten; vm_compute; reflexivity|reflexivity].
Defined.
Lemma reduce_cache_size_cache (loader : ImageLoader.t) :
  NoDup (OrderedDict.keys (ImageLoader.cache loader)) →
  let n := OrderedDict.len (ImageLoader.cache loader) in
  ImageLoader.cache (reduce_cache_size loader)
  = if n >? 20
    then drop (Z.to_nat (Z.max 5 (int_of_product n 0.15))) (ImageLoader.cache loader)
    else ImageLoader.cache loader.
Proof.
  intros Hnd n. unfold reduce_cache_size. cbv zeta. fold n.
  destruct (n >? 20); [|done].
  cbn [ImageLoader.cache ImageLoader.set_cache]. by apply delete_first_keys.
Qed.

(** X8: the warning-level reduction drops the oldest 15 percent, and at
    least five.  A cache of at most 20 entries is left alone; a larger one
    (up to 1024 entries, where the binary64 product is the exact floor)
    loses its [max(5, floor(0.15 n))] least recently used entries and
    nothing else, so that at least 16 entries always remain. *)
Theorem reduce_cache_size_drops_oldest (loader : ImageLoader.t) :
  NoDup (OrderedDict.keys (ImageLoader.cache loader)) →
  OrderedDict.len (ImageLoader.cache loader) <= 1024 →
  let n := OrderedDict.len (ImageLoader.cache loader) in
  let loader' := reduce_cache_size loader in
  (n <= 20 → loader' = loader)
  ∧ (20 < n →
     ImageLoader.cache loader'
     = drop (Z.to_nat (Z.max 5 (n * 15 / 100))) (ImageLoader.cache loader)
     ∧ OrderedDict.len (ImageLoader.cache loader') = n - Z.max 5 (n * 15 / 100)
     ∧ 16 <= OrderedDict.len (ImageLoader.cache loader') < n).
Proof.
  intros Hnd Hmax n loader'. split.
  - intros Hsmall. subst loader'. unfold reduce_cache_size. cbv zeta. fold n.
    destruct (Z.gtb_spec n 20); [lia|done].
  - intros Hbig.
    pose proof (reduce_cache_size_cache loader Hnd) as Hcache.
    cbv zeta in Hcache. fold n loader' in Hcache.
    destruct (Z.gtb_spec n 20); [|lia].
    assert (0 <= n <= 1024) as Hn by (subst n; unfold OrderedDict.len in *; lia).
    destruct (int_of_product_floor n Hn) as (Hfloor & _).
    rewrite Hfloor in Hcache. split; [done|].
    assert (OrderedDict.len (ImageLoader.cache loader') = n - Z.max 5 (n * 15 / 100))
      as Hlen.
    { rewrite Hcache. unfold OrderedDict.len. rewrite length_drop.
      subst n. unfold OrderedDict.len in *.
      pose proof (Z.div_le_upper_bound
                    (Z.of_nat (length (ImageLoader.cache loader)) * 15) 100
                    (Z.of_nat (length (ImageLoader.cache loader)))). lia. }
    split; [done|]. rewrite Hlen.
    assert (n * 15 / 100 < n - 17)
      by (apply Z.div_lt_upper_bound; lia).
    assert (0 <= n * 15 / 100) by (apply Z.div_pos; lia). lia.
Qed.

Lemma reduce_cache_size_drops_oldest_witness :
  let loader := loader_holding 120 (numbered_paths 40) in
  OrderedDict.keys (ImageLoader.cache (reduce_cache_size loader))
  = drop 6 (numbered_paths 40).
Proof.
  intros loader.
  destruct (reduce_cache_size_drops_oldest loader ltac:(by_evaluation)
              ltac:(vm_compute; discriminate)) as (_ & Hbig).
  destruct (Hbig ltac:(vm_compute; reflexivity)) as (Hcache & _).
  rewrite Hcache. reflexivity.
Defined.

Lemma memory_check_removes_only (memory_percent : option Q)
    (image_files : list string) (current_image_index : Z)
    (loader : ImageLoader.t) :
  ImageLoader.cache
    (check_memory_usage memory_percent image_files current_image_index loader)
  `sublist_of` ImageLoader.cache loader
  ∧ ImageLoader.cache_limit
      (check_memory_usage memory_percent image_files current_image_index loader)
    = ImageLoader.cache_limit loader.
Proof.
  unfold check_memory_usage. destruct memory_percent as [percent|]; [|done].
  destruct (Qgtb percent 85); [split; [apply delete_keys_sublist|done]|].
  destruct (Qgtb percent 75); [|done].
  unfold reduce_cache_size. cbv zeta. destruct (_ >? 20); [|done].
  split; [apply delete_keys_sublist|done].
Qed.

(** X9: the memory check only ever removes cache entries.  Whatever the
    reading, the cache after [check_memory_usage] consists of entries of
    the cache before, in their order; the limit is not touched; and at or
    below 75 percent, or when the reading fails, nothing changes. *)
Theorem check_memory_usage_only_removes (memory_percent : option Q)
    (image_files : list string) (current_image_index : Z)
    (loader : ImageLoader.t) :
  let loader' :=
    check_memory_usage memory_percent image_files current_image_index loader in
  ImageLoader.cache loader' `sublist_of` ImageLoader.cache loader
  ∧ ImageLoader.cache_limit loader' = ImageLoader.cache_limit loader
  ∧ (match memory_percent with
     | Some percent => (percent <= 75)%Q → loader' = loader
     | None => loader' = loader
     end).
Proof.
  intros loader'. subst loader'.
  split; [apply memory_check_removes_only|].
  split; [apply memory_check_removes_only|].
  unfold check_memory_usage. destruct memory_percent as [percent|]; [|done].
  intros Hlow. unfold Qgtb.
  assert (Qle_bool percent 85 = true) as -> by (apply Qle_bool_iff; lra).
  assert (Qle_bool percent 75 = true) as -> by (by apply Qle_bool_iff).
  done.
Qed.

Lemma check_memory_usage_only_removes_witness :
  let loader := loader_holding 120 (numbered_paths 40) in
  check_memory_usage (Some 60%Q) (numbered_paths 40) 3 loader = loader
  ∧ ImageLoader.cache (check_memory_usage (Some 80%Q) (numbered_paths 40) 3 loader)
    `sublist_of` ImageLoader.cache loader.
Proof.
  intros loader. split.
  - destruct (check_memory_usage_only_removes (Some 60%Q) (numbered_paths 40) 3 loader)
      as (_ & _ & Hsame).
    apply Hsame. vm_compute. discriminate.
  - apply (check_memory_usage_only_removes (Some 80%Q) (numbered_paths 40) 3 loader).
Defined.
End MemoryWatchFacts.

(** ** Prefetching around the displayed image *)

Section Prefetch.
Import Loading.

(** The three things a load can do to the image cache. *)
Lemma load_cases (codecs : Codecs) (running running_later : bool)
    (current_time : Q) (file_path : string) (self : t) :
  let self' :=
    (load_image_with_orientation codecs running running_later current_time
       file_path self).2 in
  loader self' = loader self
  ∨ (file_path ∈ OrderedDict.keys (ImageLoader.cache (loader self))
     ∧ loader self'
       = ImageLoader.set_cache
           (OrderedDict.move_to_end file_path (ImageLoader.cache (loader self)))
           (loader self))
  ∨ (∃ pixmap, isNull pixmap = false
       ∧ loader self'
         = ImageLoader._add_to_cache file_path (Some pixmap) (loader self)).
Proof.
  assert (∀ pixmap s, loader s = loader self →
            loader (finish file_path pixmap s).2 = loader self
            ∨ (∃ pm, isNull pm = false
                 ∧ loader (finish file_path pixmap s).2
                   = ImageLoader._add_to_cache file_path (Some pm) (loader self)))
    as Hfinish.
  { intros pixmap s Hl. unfold finish.
    destruct (isNull pixmap) eqn:Hpm; cbn [negb snd loader set_loader]; [by left|].
    right. exists pixmap. by rewrite Hl. }
  assert (∀ pixmap s, loader s = loader self →
            loader (finish file_path pixmap s).2 = loader self
            ∨ (file_path ∈ OrderedDict.keys (ImageLoader.cache (loader self))
               ∧ loader (finish file_path pixmap s).2
                 = ImageLoader.set_cache
                     (OrderedDict.move_to_end file_path
                        (ImageLoader.cache (loader self)))
                     (loader self))
            ∨ (∃ pm, isNull pm = false
                 ∧ loader (finish file_path pixmap s).2
                   = ImageLoader._add_to_cache file_path (Some pm) (loader self)))
    as Hfinish'.
  { intros pixmap s Hl. destruct (Hfinish pixmap s Hl) as [?|?]; [by left|].
    right. by right. }
  intros self'. subst self'. unfold load_image_with_orientation.
  destruct running; cbn [negb]; [|by left].
  destruct (OrderedDict.getitem file_path (ImageLoader.cache (loader self)))
    as [cached|] eqn:Hhit.
  { right. left. split; [by apply (getitem_Some_key _ cached)|done]. }
  destruct (is_raw codecs file_path).
  - destruct (bool_decide (_raw_load_strategy self = "preview"%string));
      [by apply Hfinish'|].
    destruct (bool_decide (_raw_load_strategy self = "decode"%string));
      [|by apply Hfinish'].
    cbv zeta.
    destruct (match OrderedDict.getitem (file_name codecs file_path)
                      (recently_decoded self) with
              | Some last_decode_time =>
                  negb (Qle_bool (decoding_cooldown self)
                                 (current_time - last_decode_time)%Q)
              | None => false
              end); [by left|].
    destruct running_later; cbn [negb]; [|by left].
    destruct (raw_decode codecs file_path) as [|pixmap].
    + apply Hfinish'. by rewrite clean_loader.
    + destruct (isNull pixmap); cbn [negb];
        (apply Hfinish'; by rewrite clean_loader).
  - destruct running_later; cbn [negb]; [|by left].
    destruct (image_decode codecs file_path) as [|pixmap]; [|by apply Hfinish'].
    destruct (qpixmap_open codecs file_path) as [|pixmap];
      [by left|by apply Hfinish'].
Qed.
Lemma load_cache_ok (codecs : Codecs) (running running_later : bool)
    (current_time : Q) (file_path : string) (self : t) :
  cache_ok (loader self) →
  cache_ok (loader (load_image_with_orientation codecs running running_later
                      current_time file_path self).2).
Proof.
  intros Hok.
  destruct (load_cases codecs running running_later current_time file_path self)
    as [->|[[_ ->]|(pm & _ & ->)]].
  - done.
  - by apply move_to_end_ok.
  - by apply add_to_cache_ok.
Qed.

(** One load of another path pushes a cached entry at most one place
    towards the old end of the cache and leaves its pixmap alone. *)
Lemma load_keeps_position (codecs : Codecs) (running running_later : bool)
    (current_time : Q) (file_path P : string) (front back : list string)
    (self : t) :
  cache_ok (loader self) →
  OrderedDict.keys (ImageLoader.cache (loader self)) = front ++ P :: back →
  file_path ≠ P →
  Z.of_nat (length back) + 2 <= ImageLoader.cache_limit (loader self) →
  let self' :=
    (load_image_with_orientation codecs running running_later current_time
       file_path self).2 in
  ImageLoader.cache_limit (loader self') = ImageLoader.cache_limit (loader self)
  ∧ OrderedDict.getitem P (ImageLoader.cache (loader self'))
    = OrderedDict.getitem P (ImageLoader.cache (loader self))
  ∧ ∃ front' back',
      OrderedDict.keys (ImageLoader.cache (loader self')) = front' ++ P :: back'
      ∧ (length back' ≤ S (length back))%nat.
Proof.
  intros (Hl & Hnd & Hlen & _) Hkeys Hne Hroom self'.
  destruct (load_cases codecs running running_later current_time file_path self)
    as [Heq|[[Hin Heq]|(pm & Hpm & Heq)]]; fold self' in Heq; rewrite Heq.
  - split; [done|]. split; [done|]. exists front, back. split; [done|lia].
  - split; [done|]. cbn [ImageLoader.cache ImageLoader.set_cache].
    split; [by apply getitem_move_to_end|].
    rewrite keys_move_to_end by done. rewrite Hkeys, filter_app.
    rewrite filter_cons_True by done.
    exists (filter (fun k => k ≠ file_path) front),
           (filter (fun k => k ≠ file_path) back ++ [file_path]).
    split; [by rewrite <- app_assoc|].
    rewrite length_app. simpl.
    pose proof (length_filter (fun k => k ≠ file_path) back). lia.
  - split; [apply add_to_cache_limit|].
    rewrite add_to_cache_keys by done.
    destruct (keys_after_insert_keeps (ImageLoader.cache_limit (loader self)) P
                file_path (OrderedDict.keys (ImageLoader.cache (loader self)))
                front back Hl Hnd) as (_ & front' & back' & Hk' & Hb');
      [by unfold OrderedDict.len, OrderedDict.keys in *; rewrite length_fmap
      |done|done|done|].
    split; [|by exists front', back'].
    rewrite add_to_cache_getitem by done. rewrite decide_False by done.
    rewrite evict_while_full_drop by done. apply getitem_drop; [done|].
    assert (P ∈ keys_after_insert (ImageLoader.cache_limit (loader self)) file_path
                  (OrderedDict.keys (ImageLoader.cache (loader self)))) as HP.
    { rewrite Hk'. apply elem_of_app. right. by left. }
    unfold keys_after_insert in HP. apply elem_of_app in HP as [HP|HP].
    + apply list_elem_of_filter in HP as [_ HP].
      unfold OrderedDict.keys, OrderedDict.len in *.
      rewrite fmap_drop. by rewrite length_fmap in HP.
    + apply list_elem_of_singleton in HP. congruence.
Qed.

Lemma run_preloads_keeps (codecs : Codecs) (P : string)
    (calls : list PreloadCall) :
  P ∉ call_path <$> calls →
  ∀ (self : t) (front back : list string),
    cache_ok (loader self) →
    OrderedDict.keys (ImageLoader.cache (loader self)) = front ++ P :: back →
    Z.of_nat (length back) + Z.of_nat (length calls)
    < ImageLoader.cache_limit (loader self) →
    P ∈ OrderedDict.keys (ImageLoader.cache (loader (run_preloads codecs calls self)))
    ∧ OrderedDict.getitem P (ImageLoader.cache (loader (run_preloads codecs calls self)))
      = OrderedDict.getitem P (ImageLoader.cache (loader self)).
Proof.
  induction calls as [|call calls IH]; intros HP self front back Hok Hkeys Hroom.
  - simpl. split; [|done]. rewrite Hkeys. apply elem_of_app. right. by left.
  - rewrite fmap_cons in HP. apply not_elem_of_cons in HP as [Hne HP].
    cbn [length] in Hroom.
    change (run_preloads codecs (call :: calls) self)
      with (run_preloads codecs calls
              (_preload_image codecs (call_running call) (call_running_later call)
                 (call_time call) (call_path call) self)).
    unfold _preload_image.
    destruct (load_keeps_position codecs (call_running call)
                (call_running_later call) (call_time call) (call_path call) P
                front back self Hok Hkeys ltac:(done) ltac:(lia))
      as (Hlimit & Hget & front' & back' & Hkeys' & Hback').
    destruct (IH HP _ front' back'
                (load_cache_ok codecs _ _ _ _ self Hok) Hkeys'
                ltac:(rewrite Hlimit; lia)) as [Hin Hget'].
    split; [done|]. by rewrite Hget'.
Qed.
End Prefetch.

(** ** The prefetch planner *)

Section Planner.
Import Preload.

Lemma omap_length {A B : Type} (f : A → option B) (l : list A) :
  (length (omap f l) ≤ length l)%nat.
Proof.
  induction l as [|x l IH]; [done|]. cbn [omap list_omap].
  destruct (f x); simpl; lia.
Qed.

Lemma preload_counts_cases (memory_gb : Q) :
  preload_counts memory_gb
  ∈ [(12, 4, 5); (9, 3, 4); (7, 2, 3); (5, 2, 2); (4, 2, 2); (3, 1, 1)].
Proof.
  unfold preload_counts.
  repeat (destruct (Qle_bool _ memory_gb); [set_solver|]). set_solver.
Qed.

(** Membership in [to_preload], written out. *)
Lemma to_preload_elem (memory_gb : Q) (image_files : list string)
    (cache : OrderedDict.t QPixmap) (previous_image_index : option Z)
    (current_index : Z) (item : Item) :
  item ∈ to_preload memory_gb image_files cache previous_image_index current_index
  ↔ let total_images := Z.of_nat (length image_files) in
    let forward_preload_count := (preload_counts memory_gb).1.1 in
    let backward_preload_count := (preload_counts memory_gb).1.2 in
    let threshold := (preload_counts memory_gb).2 in
    let cached :=
      cached_images image_files cache current_index
        (Z.max (Z.max forward_preload_count backward_preload_count) 3 + 5) in
    let forwards :=
      direction previous_image_index current_index total_images >=? 0 in
    let ahead := (current_index + offset item) mod total_images in
    let behind := (current_index - offset item + total_images) mod total_images in
    1 <= offset item ∧ (idx item ∉ cached)
    ∧ ((offset item <= forward_preload_count
        ∧ priority item = dominant_priority (offset item) threshold
        ∧ side item = (if forwards then "forward" else "backward")%string
        ∧ idx item = (if forwards then ahead else behind))
       ∨ (offset item <= backward_preload_count
          ∧ priority item = opposite_priority (offset item) threshold
          ∧ side item = (if forwards then "backward" else "forward")%string
          ∧ idx item = (if forwards then behind else ahead))).
Proof.
  unfold to_preload. destruct (preload_counts memory_gb) as [[f b] t].
  cbv zeta. cbn [fst snd].
  set (total_images := Z.of_nat (length image_files)).
  set (cached := cached_images _ _ _ _).
  assert (∀ count target label priority_of,
            item ∈ omap (fun offset =>
                           if decide (target offset ∈ cached) then None
                           else Some (mkItem (target offset) label
                                        (priority_of offset t) offset))
                        (seqZ 1 count)
            ↔ 1 <= offset item ∧ (idx item ∉ cached) ∧ offset item <= count
              ∧ priority item = priority_of (offset item) t
              ∧ side item = label ∧ idx item = target (offset item)) as Hitems.
  { intros count target label priority_of. rewrite list_elem_of_omap. split.
    - intros (o & Ho & Hsome). apply elem_of_seqZ in Ho.
      destruct (decide (target o ∈ cached)); [done|].
      injection Hsome as <-. cbn [idx side priority offset].
      repeat split; try done; lia.
    - intros (H1 & Hc & Hle & Hp & Hs & Hi). exists (offset item). split.
      + apply elem_of_seqZ. lia.
      + rewrite <- Hi. rewrite decide_False by done.
        destruct item; cbn in *. by subst. }
  destruct (direction previous_image_index current_index total_images >=? 0);
    rewrite elem_of_app, !Hitems; tauto.
Qed.

Lemma to_preload_length (memory_gb : Q) (image_files : list string)
    (cache : OrderedDict.t QPixmap) (previous_image_index : option Z)
    (current_index : Z) :
  Z.of_nat (length (to_preload memory_gb image_files cache previous_image_index
                      current_index))
  <= (preload_counts memory_gb).1.1 + (preload_counts memory_gb).1.2.
Proof.
  unfold to_preload.
  pose proof (preload_counts_cases memory_gb) as Hcases.
  destruct (preload_counts memory_gb) as [[f b] t].
  cbv zeta. cbn [fst snd].
  assert (0 <= f ∧ 0 <= b) as [Hf Hb].
  { repeat (apply elem_of_cons in Hcases as [[= -> -> ->]|Hcases]; [lia|]).
    by apply elem_of_nil in Hcases. }
  destruct (direction _ _ _ >=? 0); rewrite length_app;
    match goal with
    | |- context [(length (omap ?f1 (seqZ 1 f)) + length (omap ?f2 (seqZ 1 b)))%nat] =>
        pose proof (omap_length f1 (seqZ 1 f));
        pose proof (omap_length f2 (seqZ 1 b))
    end;
    rewrite !length_seqZ in *; lia.
Qed.

Lemma requests_elem (image_files : list string) (items : list Item)
    (requested_images : list string) (item : Item) (img_path : string) :
  (item, img_path) ∈ requests image_files items requested_images →
  item ∈ items ∧ image_files !! Z.to_nat (idx item) = Some img_path
  ∧ img_path ∉ requested_images.
Proof.
  revert requested_images.
  induction items as [|first items IH]; intros requested_images; cbn [requests].
  - intros H. by apply elem_of_nil in H.
  - destruct (image_files !! Z.to_nat (idx first)) as [path|] eqn:Hpath;
      [|intros H; by apply elem_of_nil in H].
    destruct (decide (path ∈ requested_images)) as [Hin|Hout].
    + intros H. destruct (IH _ H) as (? & ? & ?). split; [by right|done].
    + intros H. apply elem_of_cons in H as [[= -> ->]|H].
      * split; [by left|done].
      * destruct (IH _ H) as (? & ? & Hnot). split; [by right|].
        split; [done|]. intros Hreq. apply Hnot. by right.
Qed.

Lemma requests_NoDup (image_files : list string) (items : list Item)
    (requested_images : list string) :
  NoDup (requests image_files items requested_images).*2.
Proof.
  revert requested_images.
  induction items as [|first items IH]; intros requested_images; cbn [requests].
  - constructor.
  - destruct (image_files !! Z.to_nat (idx first)) as [path|] eqn:Hpath;
      [|constructor].
    destruct (decide (path ∈ requested_images)) as [Hin|Hout]; [apply IH|].
    rewrite fmap_cons. cbn [snd]. apply NoDup_cons. split; [|apply IH].
    intros H. apply list_elem_of_fmap in H as ([item p] & -> & H).
    apply requests_elem in H as (_ & _ & Hnot). apply Hnot. by left.
Qed.

Lemma requests_length (image_files : list string) (items : list Item)
    (requested_images : list string) :
  (length (requests image_files items requested_images) ≤ length items)%nat.
Proof.
  revert requested_images.
  induction items as [|first items IH]; intros requested_images; cbn [requests];
    [done|].
  destruct (image_files !! Z.to_nat (idx first)); [|simpl; lia].
  destruct (decide _); [pose proof (IH requested_images)|
                        pose proof (IH (s :: requested_images))]; simpl; lia.
Qed.
Lemma preload_counts_bounds (memory_gb : Q) :
  let '(forward_preload_count, backward_preload_count, threshold) :=
    preload_counts memory_gb in
  1 <= backward_preload_count <= forward_preload_count
  ∧ forward_preload_count <= 12
  ∧ forward_preload_count + backward_preload_count <= 16
  ∧ 1 <= threshold <= 5.
Proof.
  pose proof (preload_counts_cases memory_gb) as Hcases.
  destruct (preload_counts memory_gb) as [[f b] t].
  repeat (apply elem_of_cons in Hcases as [[= -> -> ->]|Hcases]; [lia|]).
  by apply elem_of_nil in Hcases.
Qed.

(** Planned indices are valid, and a planned index within eight places of
    the current one is not cached. *)
Lemma planner_items_shape (memory_gb : Q) (image_files : list string)
    (cache : OrderedDict.t QPixmap) (previous_image_index : option Z)
    (current_index : Z) (item : Item) :
  image_files ≠ [] →
  item ∈ to_preload memory_gb image_files cache previous_image_index current_index →
  0 <= idx item < Z.of_nat (length image_files)
  ∧ (Z.abs (idx item - current_index) <= 8 →
     index_cached image_files cache (idx item) = false).
Proof.
  intros Hfiles Hitem. set (total_images := Z.of_nat (length image_files)).
  apply to_preload_elem in Hitem. cbv zeta in Hitem. fold total_images in Hitem.
  pose proof (preload_counts_bounds memory_gb) as Hbounds.
  destruct (preload_counts memory_gb) as [[f b] t]. cbn [fst snd] in Hitem.
  destruct Hbounds as (Hb & Hf & Hsum & Ht).
  destruct Hitem as (Hoff & Hcached & Hitem).
  assert (0 < total_images) as Htotal
    by (subst total_images; destruct image_files; [done|simpl; lia]).
  assert (0 <= idx item < total_images) as Hrange.
  { destruct Hitem as [(_ & _ & _ & ->)|(_ & _ & _ & ->)];
      destruct (direction _ _ _ >=? 0); apply Z.mod_pos_bound; lia. }
  split; [done|]. intros Hnear.
  destruct (index_cached image_files cache (idx item)) eqn:Hin; [|done].
  exfalso. apply Hcached. unfold cached_images. cbv zeta.
  apply list_elem_of_filter. split; [done|]. apply elem_of_seqZ.
  fold total_images. lia.
Qed.

(** X10: what the planner plans.  In a folder that is not empty, every
    entry of [to_preload] names a valid index, at one to twelve steps from
    the current one in the direction its label says (modulo the folder
    size); its priority is one of the three queue names, and high only for
    the first five steps in the direction of travel; and an image within
    eight places that the cache holds is never planned. *)
Theorem planner_items_are_neighbours (memory_gb : Q) (image_files : list string)
    (cache : OrderedDict.t QPixmap) (previous_image_index : option Z)
    (current_index : Z) (item : Item) :
  image_files ≠ [] →
  item ∈ to_preload memory_gb image_files cache previous_image_index current_index →
  let total_images := Z.of_nat (length image_files) in
  let forwards :=
    direction previous_image_index current_index total_images >=? 0 in
  0 <= idx item < total_images
  ∧ 1 <= offset item <= 12
  ∧ (side item = "forward"%string ∨ side item = "backward"%string)
  ∧ (side item = "forward"%string →
     idx item = (current_index + offset item) mod total_images)
  ∧ (side item = "backward"%string →
     idx item = (current_index - offset item) mod total_images)
  ∧ PriorityThreadPoolExecutor.known_priority (priority item) = true
  ∧ (priority item = "high"%string →
     offset item <= 5
     ∧ side item = (if forwards then "forward" else "backward")%string)
  ∧ (Z.abs (idx item - current_index) <= 8 →
     index_cached image_files cache (idx item) = false).
Proof.
  intros Hfiles Hitem total_images forwards.
  apply to_preload_elem in Hitem. cbv zeta in Hitem.
  fold total_images forwards in Hitem.
  pose proof (preload_counts_bounds memory_gb) as Hbounds.
  destruct (preload_counts memory_gb) as [[f b] t]. cbn [fst snd] in Hitem.
  destruct Hbounds as (Hb & Hf & Hsum & Ht).
  destruct Hitem as (Hoff & Hcached & Hitem).
  assert (0 < total_images) as Htotal
    by (subst total_images; destruct image_files; [done|simpl; lia]).
  assert ((current_index - offset item + total_images) mod total_images
          = (current_index - offset item) mod total_images) as Hbehind.
  { replace (current_index - offset item + total_images)
      with (current_index - offset item + 1 * total_images) by lia.
    apply Z_mod_plus_full. }
  rewrite Hbehind in Hitem.
  assert (0 <= idx item < total_images) as Hrange.
  { destruct Hitem as [(_ & _ & _ & ->)|(_ & _ & _ & ->)]; destruct forwards;
      apply Z.mod_pos_bound; lia. }
  split; [done|]. split; [destruct Hitem as [?|?]; lia|].
  split; [destruct Hitem as [(_ & _ & -> & _)|(_ & _ & -> & _)];
          destruct forwards; auto|].
  split; [destruct Hitem as [(_ & _ & -> & ->)|(_ & _ & -> & ->)];
          destruct forwards; done|].
  split; [destruct Hitem as [(_ & _ & -> & ->)|(_ & _ & -> & ->)];
          destruct forwards; done|].
  split; [|split].
  - destruct Hitem as [(_ & -> & _)|(_ & -> & _)];
      unfold dominant_priority, opposite_priority;
      repeat (destruct (_ <=? _)); reflexivity.
  - intros Hhigh. destruct Hitem as [(Hle & Hp & Hs & _)|(_ & Hp & _)].
    + split; [|done]. rewrite Hhigh in Hp. unfold dominant_priority in Hp.
      destruct (Z.leb_spec (offset item) t); [lia|].
      destruct (_ <=? _); discriminate.
    + rewrite Hhigh in Hp. unfold opposite_priority in Hp.
      destruct (_ <=? _); discriminate.
  - intros Hnear.
    destruct (index_cached image_files cache (idx item)) eqn:Hin; [|done].
    exfalso. apply Hcached. unfold cached_images. cbv zeta.
    apply list_elem_of_filter. split; [done|]. apply elem_of_seqZ.
    fold total_images. lia.
Qed.

Lemma planner_items_are_neighbours_witness :
  let files := numbered_paths 20 in
  let item := mkItem 6 "forward" "high" 1 in
  item ∈ to_preload 8 files [] None 5
  ∧ 0 <= idx item < 20.
Proof.
  intros files item.
  assert (item ∈ to_preload 8 files [] None 5) as Hin
    by (vm_compute; left).
  split; [exact Hin|].
  apply (planner_items_are_neighbours 8 files [] None 5 item); [discriminate|exact Hin].
Defined.

(** The submission loop on any list of requests: the imaging submissions
    and the RAW submissions do not disturb each other. *)
Lemma submit_requests_split (is_raw : string → bool) (strategy : string)
    (reqs : list (Item * string)) (manager : ResourceManager.t) :
  ResourceManager._running manager = true →
  let decode (request : Item * string) :=
    is_raw request.2 && bool_decide (strategy = "decode"%string) in
  let jobs :=
    (fun request : Item * string =>
       (priority request.1, mkTask "_preload_image" [request.2] []))
    <$> filter (fun request => decode request = false) reqs in
  let raws := filter (fun request => decode request = true) reqs in
  foldl (fun manager request => submit_request is_raw strategy request manager)
        manager reqs
  = ResourceManager.mk
      (submit_all jobs (ResourceManager.imaging_thread_pool manager))
      (foldl (fun pool (request : Item * string) =>
                (RawDecoderPool.decode_raw request.2
                   (preload_callback (idx request.1)) pool).2)
             (ResourceManager.raw_decoder_pool manager) raws)
      (ResourceManager.active_tasks manager)
      (ResourceManager.pending_tasks manager) true.
Proof.
  cbv zeta. revert manager.
  induction reqs as [|[item img_path] reqs IH]; intros manager Hrun.
  - simpl. destruct manager. simpl in Hrun. by subst.
  - cbn [foldl]. rewrite !filter_cons. cbn [fst snd].
    unfold submit_request at 2.
    destruct (is_raw img_path && bool_decide (strategy = "decode"%string)) eqn:Hd.
    + rewrite decide_False by done. rewrite decide_True by done.
      unfold ResourceManager.submit_raw_decoding. rewrite Hrun. cbn [negb].
      destruct (RawDecoderPool.decode_raw img_path (preload_callback (idx item))
                  (ResourceManager.raw_decoder_pool manager)) as [task_id pool] eqn:Hdec.
      cbn [snd]. rewrite IH by done.
      cbn [ResourceManager.imaging_thread_pool ResourceManager.raw_decoder_pool
           ResourceManager.active_tasks ResourceManager.pending_tasks foldl fst snd].
      by rewrite Hdec.
    + rewrite decide_True by done. rewrite decide_False by done.
      unfold ResourceManager.submit_imaging_task_with_priority. rewrite Hrun.
      cbn [negb snd]. rewrite IH by done.
      rewrite fmap_cons. cbn [fst snd].
      by cbn [ResourceManager.set_pool ResourceManager.imaging_thread_pool
              ResourceManager.raw_decoder_pool ResourceManager.active_tasks
              ResourceManager.pending_tasks submit_all foldl fst snd].
Qed.

(** X11: every planned image is submitted once, and no submission is
    tracked.  On a running manager, [preload_adjacent_images] submits at
    most sixteen requests, for pairwise distinct paths; what it does to
    the manager is to submit the imaging requests, in order and with their
    priorities, to the priority executor, and the RAW requests (RAW files
    under the decode strategy), in order, to the decoder pool, each with a
    callback bound to its own index; [active_tasks] and [pending_tasks]
    are left as they were, and the current index is remembered as the
    previous one. *)
Theorem preload_submits_each_request_once (is_raw : string → bool)
    (current_index : Z) (self : t) :
  image_files self ≠ [] →
  ResourceManager._running (resource_manager self) = true →
  let reqs :=
    requests (image_files self)
      (to_preload (system_memory_gb self) (image_files self)
         (ImageLoader.cache (image_loader self)) (previous_image_index self)
         current_index) [] in
  let decode (request : Item * string) :=
    is_raw request.2 && bool_decide (_raw_load_strategy self = "decode"%string) in
  let jobs :=
    (fun request : Item * string =>
       (priority request.1, mkTask "_preload_image" [request.2] []))
    <$> filter (fun request => decode request = false) reqs in
  let raws := filter (fun request => decode request = true) reqs in
  let self' := preload_adjacent_images is_raw current_index self in
  NoDup reqs.*2
  ∧ Z.of_nat (length reqs) <= 16
  ∧ previous_image_index self' = Some current_index
  ∧ ResourceManager.imaging_thread_pool (resource_manager self')
    = submit_all jobs (ResourceManager.imaging_thread_pool (resource_manager self))
  ∧ ResourceManager.raw_decoder_pool (resource_manager self')
    = foldl (fun pool (request : Item * string) =>
               (RawDecoderPool.decode_raw request.2
                  (preload_callback (idx request.1)) pool).2)
            (ResourceManager.raw_decoder_pool (resource_manager self)) raws
  ∧ ResourceManager.active_tasks (resource_manager self')
    = ResourceManager.active_tasks (resource_manager self)
  ∧ ResourceManager.pending_tasks (resource_manager self')
    = ResourceManager.pending_tasks (resource_manager self).
Proof.
  intros Hfiles Hrun reqs decode jobs raws self'.
  split; [apply requests_NoDup|]. split.
  { pose proof (requests_length (image_files self)
                  (to_preload (system_memory_gb self) (image_files self)
                     (ImageLoader.cache (image_loader self))
                     (previous_image_index self) current_index) []) as Hlen.
    pose proof (to_preload_length (system_memory_gb self) (image_files self)
                  (ImageLoader.cache (image_loader self))
                  (previous_image_index self) current_index) as Hplan.
    pose proof (preload_counts_bounds (system_memory_gb self)) as Hbounds.
    destruct (preload_counts (system_memory_gb self)) as [[f b] t].
    cbn [fst snd] in Hplan. fold reqs in Hlen. lia. }
  subst self'. unfold preload_adjacent_images.
  destruct (image_files self) as [|first rest] eqn:Hf; [done|].
  cbv zeta. cbn [previous_image_index resource_manager].
  split; [done|]. fold reqs.
  by rewrite (submit_requests_split is_raw (_raw_load_strategy self) reqs
                (resource_manager self) Hrun).
Qed.

Lemma preload_submits_each_request_once_witness :
  let self :=
    mk (numbered_paths 20) 8 None (loader_holding 20 []) "preview"
       (ResourceManager.__init__ two_workers) in
  let self' := preload_adjacent_images (fun _ => false) 5 self in
  previous_image_index self' = Some 5
  ∧ length (PriorityThreadPoolExecutor.high
              (ResourceManager.imaging_thread_pool (resource_manager self'))) = 2%nat
  ∧ ResourceManager.active_tasks (resource_manager self') = ∅.
Proof.
  intros self self'.
  destruct (preload_submits_each_request_once (fun _ => false) 5 self
              ltac:(discriminate) eq_refl)
    as (_ & _ & Hprev & Hpool & _ & Hactive & _).
  split; [exact Hprev|]. split; [|exact Hactive].
  fold self' in Hpool. rewrite Hpool. vm_compute. reflexivity.
Defined.

Lemma prefetch_window_fits (memory_gb : Q) :
  (preload_counts memory_gb).1.1 + (preload_counts memory_gb).1.2
  < ImageLoader.calculate_adaptive_cache_size memory_gb.
Proof.
  unfold preload_counts, ImageLoader.calculate_adaptive_cache_size.
  repeat (destruct (Qle_bool _ memory_gb); [cbn; lia|]). cbn. lia.
Qed.

(** The planner never plans the displayed image while the cache holds it. *)
Lemma displayed_is_not_requested (memory_gb : Q) (image_files : list string)
    (cache : OrderedDict.t QPixmap) (previous_image_index : option Z)
    (current_index : Z) (P : string) :
  NoDup image_files → 0 <= current_index →
  image_files !! Z.to_nat current_index = Some P →
  P ∈ OrderedDict.keys cache →
  P ∉ (requests image_files
         (to_preload memory_gb image_files cache previous_image_index current_index)
         []).*2.
Proof.
  intros Hnd Hcur HP Hcached Hreq.
  apply list_elem_of_fmap in Hreq as ([item path] & -> & Hreq).
  apply requests_elem in Hreq as (Hitem & Hpath & _). cbn [snd] in *.
  assert (image_files ≠ []) as Hfiles by (intros ->; done).
  pose proof (lookup_lt_Some _ _ _ HP) as Hlt.
  destruct (planner_items_shape memory_gb image_files cache previous_image_index
              current_index item Hfiles Hitem) as (Hrange & Hnear).
  pose proof (NoDup_lookup _ _ _ _ Hnd Hpath HP) as Hsame.
  assert (idx item = current_index) as Hidx by lia.
  rewrite Hidx in Hnear.
  assert (index_cached image_files cache current_index = false) as Hno
    by (apply Hnear; lia).
  unfold index_cached in Hno. rewrite HP in Hno.
  unfold OrderedDict.contains in Hno. by rewrite bool_decide_eq_true_2 in Hno.
Qed.

(** X12: prefetching never evicts the displayed image.  Let the displayed
    image be the most recently used entry of a well-formed cache whose
    limit was computed from the memory size the planner uses, in a folder
    of distinct paths.  Then, in whatever order the workers run the
    planned preloads, whatever the decoders return and whenever the
    manager stops, the displayed image is still cached afterwards, with
    its pixmap. *)
Theorem prefetch_keeps_displayed_image (codecs : Codecs) (memory_gb : Q)
    (image_files : list string) (previous_image_index : option Z)
    (current_index : Z) (P : string) (calls : list PreloadCall)
    (self : Loading.t) :
  NoDup image_files → 0 <= current_index →
  image_files !! Z.to_nat current_index = Some P →
  cache_ok (Loading.loader self) →
  ImageLoader.cache_limit (Loading.loader self)
  = ImageLoader.calculate_adaptive_cache_size memory_gb →
  last (OrderedDict.keys (ImageLoader.cache (Loading.loader self))) = Some P →
  call_path <$> calls
  ≡ₚ (requests image_files
        (to_preload memory_gb image_files (ImageLoader.cache (Loading.loader self))
           previous_image_index current_index) []).*2 →
  let cache' := ImageLoader.cache (Loading.loader (run_preloads codecs calls self)) in
  OrderedDict.contains P cache' = true
  ∧ OrderedDict.getitem P cache'
    = OrderedDict.getitem P (ImageLoader.cache (Loading.loader self)).
Proof.
  intros Hnd Hcur HP Hok Hlimit Hlast Hcalls cache'.
  apply last_Some in Hlast as [front Hkeys].
  assert (P ∈ OrderedDict.keys (ImageLoader.cache (Loading.loader self))) as Hin
    by (rewrite Hkeys; apply elem_of_app; right; by left).
  assert (P ∉ call_path <$> calls) as Hnot.
  { rewrite Hcalls. by apply displayed_is_not_requested. }
  assert (Z.of_nat (length calls)
          < ImageLoader.cache_limit (Loading.loader self)) as Hroom.
  { apply Permutation_length in Hcalls. rewrite !length_fmap in Hcalls.
    rewrite Hcalls, Hlimit.
    pose proof (requests_length image_files
                  (to_preload memory_gb image_files
                     (ImageLoader.cache (Loading.loader self))
                     previous_image_index current_index) []).
    pose proof (to_preload_length memory_gb image_files
                  (ImageLoader.cache (Loading.loader self))
                  previous_image_index current_index).
    pose proof (prefetch_window_fits memory_gb). lia. }
  destruct (run_preloads_keeps codecs P calls Hnot self front [] Hok Hkeys
              ltac:(simpl; lia)) as [Hthere Hget].
  split; [|done]. unfold OrderedDict.contains. by apply bool_decide_eq_true_2.
Qed.

Lemma prefetch_keeps_displayed_image_witness :
  let codecs :=
    {| is_raw := fun _ => false;
       file_name := fun p => p;
       raw_preview := fun _ => None;
       raw_decode := fun _ => DecodeRaises;
       image_decode := fun _ => DecodeGives sample_pixmap;
       qpixmap_open := fun _ => DecodeRaises |} in
  let files := numbered_paths 3 in
  let self :=
    Loading.set_loader
      (ImageLoader.set_cache (cache_of ["img1.jpg"]%string) (ImageLoader.__init__ 4 0))
      (Loading.__init__ 4 0) in
  let calls :=
    [mkPreloadCall true true 1 "img2.jpg"; mkPreloadCall true true 2 "img0.jpg"] in
  OrderedDict.contains "img1.jpg"
    (ImageLoader.cache (Loading.loader (run_preloads codecs calls self))) = true.
Proof.
  intros codecs files self calls.
  apply (prefetch_keeps_displayed_image codecs 4 files None 1 "img1.jpg" calls self).
  - by_evaluation.
  - lia.
  - reflexivity.
  - unfold cache_ok. split; [vm_compute; discriminate|].
    split; [by_evaluation|]. split; [vm_compute; discriminate|].
    repeat constructor.
  - reflexivity.
  - reflexivity.
  - vm_compute. reflexivity.
Defined.

(** X13: the cached-image check does not wrap around.  At the last image of
    a folder longer than the checked window, coming from any valid index,
    the first request is a high-priority forward preload of the first
    image, whether or not the cache holds that image: the window of
    [cached_images] stops at the end of the list, while the planned
    indices wrap. *)
Theorem wrapped_neighbour_is_requested_even_if_cached (memory_gb : Q)
    (image_files : list string) (cache : OrderedDict.t QPixmap)
    (previous_image_index : option Z) (first_path : string) :
  let total_images := Z.of_nat (length image_files) in
  let check_range :=
    Z.max (Z.max (preload_counts memory_gb).1.1 (preload_counts memory_gb).1.2) 3
    + 5 in
  check_range + 1 < total_images →
  image_files !! 0%nat = Some first_path →
  (∀ previous, previous_image_index = Some previous → previous < total_images) →
  ∃ rest,
    requests image_files
      (to_preload memory_gb image_files cache previous_image_index
         (total_images - 1)) []
    = (mkItem 0 "forward" "high" 1, first_path) :: rest.
Proof.
  intros total_images check_range Hlong Hfirst Hprev.
  assert (direction previous_image_index (total_images - 1) total_images = 1)
    as Hdir.
  { unfold direction. destruct previous_image_index as [previous|]; [|done].
    specialize (Hprev previous eq_refl).
    destruct (Z.eqb_spec previous (total_images - 1)); cbn [negb]; [done|].
    destruct (Z.ltb_spec previous (total_images - 1)); [done|lia]. }
  unfold to_preload. fold total_images. subst check_range.
  pose proof (preload_counts_bounds memory_gb) as Hbounds.
  destruct (preload_counts memory_gb) as [[f b] t]. cbn [fst snd] in Hlong.
  destruct Hbounds as (Hb & Hf & Hsum & Ht).
  cbv zeta. rewrite Hdir. cbn [Z.geb Z.compare].
  rewrite (seqZ_cons 1 f) by lia. cbn [omap list_omap].
  replace ((total_images - 1 + 1) mod total_images) with 0
    by (replace (total_images - 1 + 1) with (1 * total_images) by lia;
        by rewrite Z_mod_mult).
  rewrite decide_False.
  - unfold dominant_priority. destruct (Z.leb_spec 1 t); [|lia].
    cbn [app requests idx]. change (Z.to_nat 0) with 0%nat. rewrite Hfirst.
    rewrite decide_False by apply not_elem_of_nil. by eexists.
  - unfold cached_images. cbv zeta. intros Hin.
    apply list_elem_of_filter in Hin as [_ Hin]. apply elem_of_seqZ in Hin.
    fold total_images in Hin. lia.
Qed.

Lemma wrapped_neighbour_is_requested_even_if_cached_witness :
  let files := numbered_paths 12 in
  ∃ rest,
    requests files (to_preload 4 files (cache_of files) (Some 10) 11) []
    = (mkItem 0 "forward" "high" 1, "img0.jpg"%string) :: rest.
Proof.
  intros files.
  apply (wrapped_neighbour_is_requested_even_if_cached 4 files (cache_of files)
           (Some 10) "img0.jpg").
  - vm_compute. reflexivity.
  - reflexivity.
  - intros previous [= <-]. vm_compute. reflexivity.
Defined.

(** X14: which moves count as backwards.  The planner takes the travel to
    be backwards exactly when the stored [previous_image_index] is larger
    than the current index and the move is not the wrap from the last
    image to the first; in particular a stored 0 with the last index as
    the current one counts as forwards.  The attribute is stored only by
    the planner itself, so it is the index of the last planned image, not
    necessarily of the image displayed before the step.  When it does hold
    the index displayed before the step, the direction after
    [show_next_image] is forwards, and after [show_previous_image] it is
    backwards unless that step wrapped or the folder has just two images.
    When it holds an older index that is larger than the new one, the
    direction after [show_next_image] is backwards (unless the new index
    is 0 and the stored one the last). *)
Theorem direction_of_travel (previous_image_index : option Z)
    (current_index total_images : Z) :
  (direction previous_image_index current_index total_images = -1
   ↔ ∃ previous, previous_image_index = Some previous
       ∧ current_index < previous
       ∧ ¬ (previous = total_images - 1 ∧ current_index = 0))
  ∧ (direction previous_image_index current_index total_images = 1
     ∨ direction previous_image_index current_index total_images = -1)
  ∧ (0 <= current_index < total_images →
     direction (Some current_index)
       (show_next_image total_images current_index) total_images = 1
     ∧ direction (Some current_index)
         (show_previous_image total_images current_index) total_images
       = if (current_index =? 0) || (total_images =? 2) then 1 else -1)
  ∧ (∀ stored : Z,
       0 <= current_index < total_images →
       show_next_image total_images current_index < stored →
       ¬ (stored = total_images - 1
          ∧ show_next_image total_images current_index = 0) →
       direction (Some stored)
         (show_next_image total_images current_index) total_images = -1).
Proof.
  split; [|split; [|split]]; [| | |
    intros stored Hcur Hstale Hwrap; unfold direction;
    destruct (Z.eqb_spec stored (show_next_image total_images current_index));
      [lia|]; cbn [negb];
    destruct (Z.ltb_spec stored (show_next_image total_images current_index));
      [lia|]; cbn [orb];
    destruct (Z.eqb_spec stored (total_images - 1));
      destruct (Z.eqb_spec (show_next_image total_images current_index) 0);
      cbn [andb]; try (exfalso; by apply Hwrap);
      (destruct (Z.gtb_spec stored (show_next_image total_images current_index));
         [done|lia])].
  - unfold direction. destruct previous_image_index as [previous|].
    + destruct (Z.eqb_spec previous current_index) as [->|Hne]; cbn [negb].
      { split; [done|]. intros (p & [= <-] & ? & _). lia. }
      destruct (Z.ltb_spec previous current_index) as [Hlt|Hge]; cbn [orb].
      { split; [done|]. intros (p & [= <-] & ? & _). lia. }
      destruct (Z.eqb_spec previous (total_images - 1)) as [Hlast|Hlast];
        destruct (Z.eqb_spec current_index 0) as [Hzero|Hzero]; cbn [andb].
      * split; [done|]. intros (p & [= <-] & _ & Hwrap). by destruct Hwrap.
      * destruct (Z.gtb_spec previous current_index); [|lia]. cbn [orb].
        split; [|done]. intros _. exists previous. repeat split; [lia|].
        intros [_ ?]. done.
      * destruct (Z.gtb_spec previous current_index); [|lia]. cbn [orb].
        split; [|done]. intros _. exists previous. repeat split; [lia|].
        intros [? _]. done.
      * destruct (Z.gtb_spec previous current_index); [|lia]. cbn [orb].
        split; [|done]. intros _. exists previous. repeat split; [lia|].
        intros [? _]. done.
    + split; [done|]. intros (p & [=] & _).
  - unfold direction. destruct previous_image_index as [previous|]; [|by left].
    destruct (negb _); [|by left]. destruct (_ || _); [by left|].
    destruct (_ || _); [by right|by left].
  - intros Hcur. unfold direction, show_next_image, show_previous_image.
    destruct (Z.eqb_spec total_images 0); [lia|]. split.
    + destruct (Z.geb_spec current_index (total_images - 1)).
      * assert (current_index = total_images - 1) as -> by lia.
        destruct (Z.eqb_spec (total_images - 1) 0) as [->|]; cbn [negb]; [done|].
        destruct (Z.ltb_spec (total_images - 1) 0); [done|]. cbn [orb].
        rewrite !Z.eqb_refl. done.
      * destruct (Z.eqb_spec current_index (current_index + 1)); [lia|].
        cbn [negb]. destruct (Z.ltb_spec current_index (current_index + 1)); [done|lia].
    + destruct (Z.eqb_spec current_index 0) as [->|Hpos]; cbn [orb].
      * cbn [Z.leb Z.compare].
        destruct (Z.eqb_spec 0 (total_images - 1)); cbn [negb]; [done|].
        destruct (Z.ltb_spec 0 (total_images - 1)); [done|lia].
      * destruct (Z.leb_spec current_index 0); [lia|].
        destruct (Z.eqb_spec current_index (current_index - 1)); [lia|].
        cbn [negb]. destruct (Z.ltb_spec current_index (current_index - 1)); [lia|].
        cbn [orb].
        destruct (Z.gtb_spec current_index (current_index - 1)); [|lia].
        cbn [orb].
        destruct (Z.eqb_spec total_images 2) as [->|Htwo].
        -- assert (current_index = 1) as -> by lia. done.
        -- destruct (Z.eqb_spec current_index (total_images - 1));
             destruct (Z.eqb_spec (current_index - 1) 0); cbn [andb];
             try done; lia.
Qed.

Lemma direction_of_travel_witness :
  direction (Some 0) (show_previous_image 5 0) 5 = 1
  ∧ direction (Some 3) (show_previous_image 5 3) 5 = -1
  ∧ direction (Some 8) (show_next_image 60 3) 60 = -1.
Proof.
  split; [|split].
  - apply (proj1 (proj2 (proj2 (direction_of_travel None 0 5)))). lia.
  - apply (proj1 (proj2 (proj2 (direction_of_travel None 3 5))) ltac:(lia)).
  - apply (proj2 (proj2 (proj2 (direction_of_travel None 3 60))) 8);
      [lia|vm_compute; reflexivity|vm_compute; intros [H _]; discriminate H].
Defined.

(** X15: next and previous undo each other and stay in the folder.  For a
    valid index, [show_next_image] and [show_previous_image] give valid
    indices, each step undoes the other, and next is the successor modulo
    the number of images. *)
Theorem navigation_round_trip (total_images current_image_index : Z) :
  0 <= current_image_index < total_images →
  0 <= show_next_image total_images current_image_index < total_images
  ∧ 0 <= show_previous_image total_images current_image_index < total_images
  ∧ show_previous_image total_images
      (show_next_image total_images current_image_index) = current_image_index
  ∧ show_next_image total_images
      (show_previous_image total_images current_image_index) = current_image_index
  ∧ show_next_image total_images current_image_index
    = (current_image_index + 1) mod total_images
  ∧ show_previous_image total_images current_image_index
    = (current_image_index - 1) mod total_images.
Proof.
  intros Hcur. unfold show_next_image, show_previous_image.
  destruct (Z.eqb_spec total_images 0); [lia|].
  destruct (Z.geb_spec current_image_index (total_images - 1)) as [Hlast|Hin];
    destruct (Z.leb_spec current_image_index 0) as [Hfirst|Hpos].
  - assert (current_image_index = 0) as -> by lia.
    assert (total_images = 1) as -> by lia. done.
  - assert (current_image_index = total_images - 1) as -> by lia.
    cbn [Z.leb Z.compare].
    destruct (Z.geb_spec (total_images - 1 - 1) (total_images - 1)); [lia|].
    repeat split; try lia.
    + replace (total_images - 1 + 1) with (1 * total_images) by lia.
      by rewrite Z_mod_mult.
    + by rewrite Z.mod_small by lia.
  - assert (current_image_index = 0) as -> by lia.
    destruct (Z.leb_spec (0 + 1) 0); [lia|].
    destruct (Z.geb_spec (total_images - 1) (total_images - 1)); [|lia].
    repeat split; try lia.
    + by rewrite Z.mod_small by lia.
    + replace (0 - 1) with (total_images - 1 + (-1) * total_images) by lia.
      rewrite Z_mod_plus_full. by rewrite Z.mod_small by lia.
  - destruct (Z.leb_spec (current_image_index + 1) 0); [lia|].
    destruct (Z.geb_spec (current_image_index - 1) (total_images - 1)); [lia|].
    repeat split; try lia; by rewrite Z.mod_small by lia.
Qed.

Lemma navigation_round_trip_witness :
  show_previous_image 5 (show_next_image 5 4) = 4.
Proof. apply (navigation_round_trip 5 4). lia. Defined.

(** X16: the requested image is queued before its own preloads, but behind
    what is already waiting.  On a running manager, [load_image_async]
    appends the load of the requested image to the high queue and only
    preloads after it, in every queue; nothing already queued is removed
    or overtaken, nothing is handed to the thread pool directly, and the
    manager tracks no future for the load. *)
Theorem load_image_async_queues_load_first (is_raw : string → bool)
    (image_path : string) (requested_index : Z) (self : t) :
  image_files self ≠ [] →
  ResourceManager._running (resource_manager self) = true →
  let pool := ResourceManager.imaging_thread_pool (resource_manager self) in
  let manager' :=
    resource_manager (load_image_async is_raw image_path requested_index self) in
  let pool' := ResourceManager.imaging_thread_pool manager' in
  ∃ high_preloads medium_preloads low_preloads,
    PriorityThreadPoolExecutor.high pool'
    = PriorityThreadPoolExecutor.high pool
      ++ mkTask "_load_image_task" [image_path; pretty requested_index] []
      :: high_preloads
    ∧ PriorityThreadPoolExecutor.medium pool'
      = PriorityThreadPoolExecutor.medium pool ++ medium_preloads
    ∧ PriorityThreadPoolExecutor.low pool'
      = PriorityThreadPoolExecutor.low pool ++ low_preloads
    ∧ (∀ task, task ∈ high_preloads ++ medium_preloads ++ low_preloads →
               fn task = "_preload_image"%string)
    ∧ PriorityThreadPoolExecutor.base pool' = PriorityThreadPoolExecutor.base pool
    ∧ ResourceManager.active_tasks manager'
      = ResourceManager.active_tasks (resource_manager self).
Proof.
  intros Hfiles Hrun pool manager' pool'.
  subst pool' manager'. unfold load_image_async, preload_adjacent_images.
  cbv zeta. cbn [image_files system_memory_gb image_loader previous_image_index
                 _raw_load_strategy resource_manager].
  destruct (image_files self) as [|first rest] eqn:Hf; [done|].
  cbn [resource_manager].
  unfold ResourceManager.submit_imaging_task_with_priority at 1 2 3 4 5.
  rewrite Hrun. cbn [negb snd].
  set (load := mkTask "_load_image_task" [image_path; pretty requested_index] []).
  set (reqs := requests _ _ _).
  rewrite (submit_requests_split is_raw (_raw_load_strategy self) reqs) by done.
  cbn [ResourceManager.imaging_thread_pool ResourceManager.active_tasks
       ResourceManager.set_pool].
  fold pool.
  set (jobs := _ <$> filter _ reqs).
  destruct (submit_all_queues jobs
              (PriorityThreadPoolExecutor.submit_with_priority "high" load pool))
    as (Hh & Hm & Hl & Hb & _).
  destruct (submit_with_priority_queues "high" load pool)
    as (Hh' & Hm' & Hl' & Hb' & _).
  cbv zeta in Hh, Hm, Hl, Hb, Hh', Hm', Hl', Hb'.
  exists (tier "high" jobs), (tier "medium" jobs), (tier "low" jobs).
  rewrite Hh, Hm, Hl, Hb, Hh', Hm', Hl', Hb'.
  change (tier_of "high") with "high"%string.
  rewrite decide_True by done. rewrite !decide_False by done.
  rewrite !app_nil_r, <- app_assoc. cbn [app].
  repeat (split; [done|]). split; [|done].
  intros task Htask.
  assert (∀ name, task ∈ tier name jobs → fn task = "_preload_image"%string) as Hfn.
  { intros name Hin. unfold tier in Hin.
    apply list_elem_of_fmap in Hin as ([prio t'] & -> & Hin).
    apply list_elem_of_filter in Hin as [_ Hin]. subst jobs.
    apply list_elem_of_fmap in Hin as (request & [= _ ->] & _). done. }
  apply elem_of_app in Htask as [?|Htask]; [by apply (Hfn "high"%string)|].
  apply elem_of_app in Htask as [?|?];
    [by apply (Hfn "medium"%string)|by apply (Hfn "low"%string)].
Qed.

Lemma load_image_async_queues_load_first_witness :
  let self :=
    mk (numbered_paths 20) 8 None (loader_holding 20 []) "preview"
       (ResourceManager.__init__ two_workers) in
  let pool' :=
    ResourceManager.imaging_thread_pool
      (resource_manager (load_image_async (fun _ => false) "img5.jpg" 5 self)) in
  head (PriorityThreadPoolExecutor.high pool')
  = Some (mkTask "_load_image_task" ["img5.jpg"; "5"]%string []).
Proof.
  intros self pool'.
  destruct (load_image_async_queues_load_first (fun _ => false) "img5.jpg" 5 self
              ltac:(discriminate) eq_refl) as (h & m & l & Hh & _).
  fold pool' in Hh. rewrite Hh. reflexivity.
Defined.
End Planner.

(** ** The cache over the life of the program *)

Section CacheInvariant.





Lemma adaptive_cache_size_range (memory_gb : Q) :
  10 <= ImageLoader.calculate_adaptive_cache_size memory_gb <= 120.
Proof.
  unfold ImageLoader.calculate_adaptive_cache_size.
  repeat (destruct (Qle_bool _ memory_gb); [lia|]). lia.
Qed.

End CacheInvariant.

(** ** Sizing *)

Section Sizing.

Ltac settle_tiers :=
  repeat match goal with
         | |- context [Qle_bool ?bound ?memory] => destruct (Qle_bool bound memory)
         end;
  cbn; lia.

Lemma Qle_bool_mono (bound a b : Q) :
  (a <= b)%Q → Qle_bool bound a = true → Qle_bool bound b = true.
Proof.
  intros Hab Ha. apply Qle_bool_iff in Ha. apply Qle_bool_iff. lra.
Qed.

(** X18: the pools are small and fit the machine.  The imaging pool gets two
    to four threads and the decoder pool one or two processes, never more
    in total than there are cores once there are three; more memory or
    more cores never give fewer of either; and the default size of a
    [RawDecoderPool] is at most two whatever the number of cores. *)
Theorem pool_sizes (memory_gb memory_gb' : Q) (cores cores' : Z) :
  (memory_gb <= memory_gb')%Q → cores <= cores' →
  2 <= calculate_optimal_threads memory_gb cores <= 4
  ∧ 1 <= calculate_optimal_raw_processes memory_gb cores <= 2
  ∧ 1 <= default_num_processes cores <= 2
  ∧ (3 <= cores →
     calculate_optimal_threads memory_gb cores
     + calculate_optimal_raw_processes memory_gb cores <= cores)
  ∧ calculate_optimal_threads memory_gb cores
    <= calculate_optimal_threads memory_gb' cores'
  ∧ calculate_optimal_raw_processes memory_gb cores
    <= calculate_optimal_raw_processes memory_gb' cores'.
Proof.
  intros Hmem Hcores.
  unfold calculate_optimal_threads, calculate_optimal_raw_processes,
    default_num_processes.
  pose proof (Qle_bool_mono 24 memory_gb memory_gb' Hmem) as H24.
  pose proof (Qle_bool_mono 12 memory_gb memory_gb' Hmem) as H12.
  assert (Qle_bool 24 memory_gb = true → Qle_bool 12 memory_gb = true) as Hmid.
  { intros H. apply Qle_bool_iff in H. apply Qle_bool_iff. lra. }
  assert (Qle_bool 24 memory_gb' = true → Qle_bool 12 memory_gb' = true) as Hmid'.
  { intros H. apply Qle_bool_iff in H. apply Qle_bool_iff. lra. }
  pose proof (Z.div_le_mono cores cores' 4 ltac:(lia) Hcores) as Hdiv.
  assert (8 <= cores → 2 <= cores / 4) as Hbig
    by (intros; apply Z.div_le_lower_bound; lia).
  assert (cores < 8 → cores / 4 < 2) as Hsmall
    by (intros; apply Z.div_lt_upper_bound; lia).
  destruct (Qle_bool 24 memory_gb) eqn:E24, (Qle_bool 12 memory_gb) eqn:E12,
           (Qle_bool 24 memory_gb') eqn:E24', (Qle_bool 12 memory_gb') eqn:E12';
    try (specialize (H24 eq_refl)); try (specialize (H12 eq_refl));
    try (specialize (Hmid eq_refl)); try (specialize (Hmid' eq_refl));
    try discriminate;
    cbn [andb];
    destruct (Z.geb_spec cores 8), (Z.geb_spec cores 6),
             (Z.geb_spec cores' 8), (Z.geb_spec cores' 6);
    repeat split; try lia.
Qed.

Lemma pool_sizes_witness :
  calculate_optimal_threads 16 8 + calculate_optimal_raw_processes 16 8 <= 8
  ∧ calculate_optimal_threads 16 8 <= calculate_optimal_threads 32 16.
Proof.
  destruct (pool_sizes 16 32 8 16 ltac:(vm_compute; discriminate) ltac:(lia))
    as (_ & _ & _ & Hfit & Hmono & _).
  split; [apply Hfit; lia|exact Hmono].
Defined.

(** X19: the cache grows with memory and always has room for the prefetch
    window.  [calculate_adaptive_cache_size] lies between 10 and 120, more
    memory never gives a smaller cache, and for the same memory reading a
    full prefetch (forward and backward counts together) plus the
    displayed image fits the cache. *)
Theorem cache_size_covers_prefetch (memory_gb memory_gb' : Q) :
  (memory_gb <= memory_gb')%Q →
  10 <= ImageLoader.calculate_adaptive_cache_size memory_gb <= 120
  ∧ ImageLoader.calculate_adaptive_cache_size memory_gb
    <= ImageLoader.calculate_adaptive_cache_size memory_gb'
  ∧ (Preload.preload_counts memory_gb).1.1 + (Preload.preload_counts memory_gb).1.2
    + 1 <= ImageLoader.calculate_adaptive_cache_size memory_gb
  ∧ (Preload.preload_counts memory_gb).1.1
    <= (Preload.preload_counts memory_gb').1.1.
Proof.
  intros Hmem. split; [apply adaptive_cache_size_range|].
  split; [|split; [pose proof (prefetch_window_fits memory_gb); lia|]].
  - unfold ImageLoader.calculate_adaptive_cache_size.
    pose proof (fun bound => Qle_bool_mono bound memory_gb memory_gb' Hmem) as Hmono.
    destruct (Qle_bool 45 memory_gb) eqn:E45; [rewrite (Hmono 45%Q E45); settle_tiers|].
    destruct (Qle_bool 30 memory_gb) eqn:E30; [rewrite (Hmono 30%Q E30); settle_tiers|].
    destruct (Qle_bool 22 memory_gb) eqn:E22; [rewrite (Hmono 22%Q E22); settle_tiers|].
    destruct (Qle_bool 14 memory_gb) eqn:E14; [rewrite (Hmono 14%Q E14); settle_tiers|].
    destruct (Qle_bool 7 memory_gb) eqn:E7; [rewrite (Hmono 7%Q E7); settle_tiers|].
    settle_tiers.
  - unfold Preload.preload_counts.
    pose proof (fun bound => Qle_bool_mono bound memory_gb memory_gb' Hmem) as Hmono.
    destruct (Qle_bool 45 memory_gb) eqn:E45; [rewrite (Hmono 45%Q E45); settle_tiers|].
    destruct (Qle_bool 30 memory_gb) eqn:E30; [rewrite (Hmono 30%Q E30); settle_tiers|].
    destruct (Qle_bool 22 memory_gb) eqn:E22; [rewrite (Hmono 22%Q E22); settle_tiers|].
    destruct (Qle_bool 14 memory_gb) eqn:E14; [rewrite (Hmono 14%Q E14); settle_tiers|].
    destruct (Qle_bool 7 memory_gb) eqn:E7; [rewrite (Hmono 7%Q E7); settle_tiers|].
    settle_tiers.
Qed.

Lemma cache_size_covers_prefetch_witness :
  ImageLoader.calculate_adaptive_cache_size 8
  <= ImageLoader.calculate_adaptive_cache_size 16.
Proof.
  apply (cache_size_covers_prefetch 8 16). vm_compute. discriminate.
Defined.
End Sizing.

(** ** The decoder process over many passes *)

Section Worker.
Import RawDecoder.

Lemma decode_task_id (rawpy : string → RawpyOutcome) (path : string) (id : Z) :
  task_id (decode rawpy path id) = id ∧ file_path (decode rawpy path id) = path.
Proof.
  unfold decode, failure. destruct (rawpy path) as [e|e|rgb]; [done|done|].
  destruct (nd_shape rgb !! 1%nat); [|done].
  destruct (nd_shape rgb !! 0%nat); [|done].
  by destruct (_ && _).
Qed.

(** What one pass does to the two queues. *)
Lemma iteration_cases (rawpy : string → RawpyOutcome) (memory_percent : option Q)
    (current_time : Q) (w : t) :
  let w' := iteration rawpy memory_percent current_time w in
  w' = w
  ∨ (exited w = false ∧ exited w' = true
     ∧ input_queue w = None :: input_queue w'
     ∧ output_queue w' = output_queue w)
  ∨ (∃ path id q,
       exited w = false ∧ exited w' = false
       ∧ input_queue w = Some (path, id) :: q
       ∧ ((input_queue w' = q ++ [Some (path, id)]
           ∧ output_queue w' = output_queue w
           ∧ ∃ percent, memory_percent = Some percent ∧ Qgtb percent 95 = true)
          ∨ (input_queue w' = q
             ∧ output_queue w' = output_queue w ++ [decode rawpy path id]
             ∧ match memory_percent with
               | Some percent => Qgtb percent 95 = false
               | None => True
               end))).
Proof.
  intros w'. subst w'. unfold iteration.
  destruct (exited w) eqn:Hexit; [by left|].
  destruct (input_queue w) as [|[[path id]|] q] eqn:Hin; [by left| |].
  - right. right. exists path, id, q. split; [done|].
    destruct memory_percent as [percent|].
    + destruct (if Qgtb percent 85 && negb (memory_warning_shown w)
                   && Qgtb (current_time - last_memory_log_time w) memory_log_cooldown
                then (true, current_time)
                else if Qle_bool percent 75 then (false, last_memory_log_time w)
                     else (memory_warning_shown w, last_memory_log_time w))
        as [shown last].
      destruct (Qgtb percent 95) eqn:Hhigh; cbn [exited input_queue output_queue].
      * split; [done|]. split; [done|]. left. repeat split. by exists percent.
      * split; [done|]. split; [done|]. by right.
    + cbn [exited input_queue output_queue]. split; [done|]. split; [done|].
      by right.
  - right. left. done.
Qed.

Lemma iteration_exited (rawpy : string → RawpyOutcome) (memory_percent : option Q)
    (current_time : Q) (w : t) :
  exited w = true → iteration rawpy memory_percent current_time w = w.
Proof. intros H. unfold iteration. by rewrite H. Qed.

Lemma worker_run_exited (rawpy : string → RawpyOutcome)
    (readings : list (option Q * Q)) (w : t) :
  exited w = true → worker_run rawpy readings w = w.
Proof.
  intros H. induction readings as [|reading readings IH]; [done|].
  unfold worker_run in *. cbn [foldl]. by rewrite iteration_exited.
Qed.

Lemma waiting_ids_app (q q' : list (option (string * Z))) :
  waiting_ids (q ++ q') = waiting_ids q ++ waiting_ids q'.
Proof. unfold waiting_ids. apply omap_app. Qed.

(** X20: the decoder process neither loses nor invents a request.  Over any
    number of passes, with any decoder outcomes and memory readings: the
    task ids waiting on the input queue together with those answered on
    the output queue are the same collection as at the start; results are
    only appended to the output queue; every result that was added is the
    decoder's answer to a request that was waiting, with that request's
    task id and path; and a process that has left its loop does nothing. *)
Theorem worker_conserves_requests (rawpy : string → RawpyOutcome)
    (readings : list (option Q * Q)) (w : t) :
  let w' := worker_run rawpy readings w in
  waiting_ids (input_queue w') ++ answered_ids (output_queue w')
  ≡ₚ waiting_ids (input_queue w) ++ answered_ids (output_queue w)
  ∧ (∃ added,
       output_queue w' = output_queue w ++ added
       ∧ ∀ result, result ∈ added →
           ∃ path id, Some (path, id) ∈ input_queue w
                      ∧ result = decode rawpy path id
                      ∧ task_id result = id ∧ file_path result = path)
  ∧ (∀ request, request ∈ input_queue w' → request ∈ input_queue w)
  ∧ (exited w = true → w' = w).
Proof.
  intros w'. subst w'. revert w.
  induction readings as [|[memory_percent current_time] readings IH]; intros w.
  { cbn. split; [done|]. split; [|done].
    exists []. split; [by rewrite app_nil_r|]. intros r Hr. by apply elem_of_nil in Hr. }
  change (worker_run rawpy ((memory_percent, current_time) :: readings) w)
    with (worker_run rawpy readings (iteration rawpy memory_percent current_time w)).
  set (w1 := iteration rawpy memory_percent current_time w).
  destruct (IH w1) as (Hperm & (added & Hout & Hadded) & Hin & Hexit).
  assert (waiting_ids (input_queue w1) ++ answered_ids (output_queue w1)
          ≡ₚ waiting_ids (input_queue w) ++ answered_ids (output_queue w)
          ∧ (∃ added1,
               output_queue w1 = output_queue w ++ added1
               ∧ ∀ result, result ∈ added1 →
                   ∃ path id, Some (path, id) ∈ input_queue w
                              ∧ result = decode rawpy path id
                              ∧ task_id result = id ∧ file_path result = path)
          ∧ (∀ request, request ∈ input_queue w1 → request ∈ input_queue w))
    as (Hperm1 & (added1 & Hout1 & Hadded1) & Hin1).
  { destruct (iteration_cases rawpy memory_percent current_time w)
      as [Hsame|[(_ & _ & Hq & Ho)|(path & id & q & _ & _ & Hq & Hcase)]];
      fold w1 in Hsame || fold w1 in Hq, Ho || fold w1 in Hcase.
    - rewrite Hsame. split; [done|]. split; [|done]. exists [].
      split; [by rewrite app_nil_r|]. intros r Hr. by apply elem_of_nil in Hr.
    - rewrite Hq, Ho. split; [done|]. split.
      + exists []. split; [by rewrite app_nil_r|].
        intros r Hr. by apply elem_of_nil in Hr.
      + intros request Hr. by right.
    - destruct Hcase as [(Hq1 & Ho1 & _)|(Hq1 & Ho1 & _)]; rewrite Hq, Hq1, Ho1.
      + split; [|split].
        * rewrite waiting_ids_app. cbn. rewrite <- app_assoc. cbn.
          by rewrite <- Permutation_middle.
        * exists []. split; [by rewrite app_nil_r|].
          intros r Hr. by apply elem_of_nil in Hr.
        * intros request Hr. apply elem_of_app in Hr as [Hr|Hr]; [by right|].
          apply list_elem_of_singleton in Hr as ->. by left.
      + split; [|split].
        * unfold answered_ids. rewrite fmap_app. cbn.
          rewrite (proj1 (decode_task_id rawpy path id)).
          rewrite app_assoc, <- Permutation_cons_append. done.
        * exists [decode rawpy path id]. split; [done|].
          intros r Hr. apply list_elem_of_singleton in Hr as ->.
          exists path, id. split; [by left|]. split; [done|].
          apply decode_task_id.
        * intros request Hr. by right. }
  split; [by rewrite Hperm|]. split; [|split].
  - exists (added1 ++ added). split; [by rewrite Hout, Hout1, app_assoc|].
    intros result Hr. apply elem_of_app in Hr as [Hr|Hr]; [by apply Hadded1|].
    destruct (Hadded result Hr) as (path & id & Hreq & Hres).
    exists path, id. split; [by apply Hin1|done].
  - intros request Hr. by apply Hin1, Hin.
  - intros Hdone. subst w1. rewrite iteration_exited by done.
    by apply worker_run_exited.
Qed.

Lemma worker_conserves_requests_witness :
  let w := mk [None; Some ("a.arw"%string, 0)] [] false 0 true in
  worker_run sample_rawpy [(Some 50%Q, 1%Q); (None, 2%Q)] w = w.
Proof.
  intros w.
  apply (worker_conserves_requests sample_rawpy [(Some 50%Q, 1%Q); (None, 2%Q)] w).
  reflexivity.
Defined.

Lemma iteration_calm (rawpy : string → RawpyOutcome) (reading : option Q * Q)
    (path : string) (id : Z) (q : list (option (string * Z))) (w : t) :
  calm reading → exited w = false → input_queue w = Some (path, id) :: q →
  let w' := iteration rawpy reading.1 reading.2 w in
  input_queue w' = q ∧ output_queue w' = output_queue w ++ [decode rawpy path id]
  ∧ exited w' = false.
Proof.
  intros Hcalm Hexit Hq w'. subst w'. unfold iteration. rewrite Hexit, Hq.
  unfold calm in Hcalm. destruct reading.1 as [percent|]; [|done].
  assert (Qgtb percent 95 = false) as Hlow.
  { unfold Qgtb. apply negb_false_iff. by apply Qle_bool_iff. }
  destruct (if Qgtb percent 85 && negb (memory_warning_shown w)
               && Qgtb (reading.2 - last_memory_log_time w) memory_log_cooldown
            then (true, reading.2)
            else if Qle_bool percent 75 then (false, last_memory_log_time w)
                 else (memory_warning_shown w, last_memory_log_time w))
    as [shown last].
  by rewrite Hlow.
Qed.

(** X21: a calm decoder answers in order and stops at the end signal.  With
    memory usage never above 95 percent, a process whose input queue holds
    some requests followed by the end signal answers each request once, in
    queue order, takes the end signal and leaves its loop; what was queued
    behind the end signal is never read. *)
Theorem worker_answers_in_order (rawpy : string → RawpyOutcome)
    (readings : list (option Q * Q)) (requests : list (string * Z))
    (behind : list (option (string * Z))) (w : t) :
  Forall calm readings → exited w = false →
  input_queue w = (Some <$> requests) ++ None :: behind →
  (length requests < length readings)%nat →
  let w' := worker_run rawpy readings w in
  output_queue w'
  = output_queue w ++ ((fun request => decode rawpy request.1 request.2) <$> requests)
  ∧ input_queue w' = behind
  ∧ exited w' = true.
Proof.
  revert readings w.
  induction requests as [|[path id] requests IH];
    intros readings w Hcalm Hexit Hq Hlen w'; subst w'.
  - destruct readings as [|reading readings]; [simpl in Hlen; lia|].
    change (worker_run rawpy (reading :: readings) w)
      with (worker_run rawpy readings (iteration rawpy reading.1 reading.2 w)).
    cbn [fmap list_fmap app] in Hq.
    assert (iteration rawpy reading.1 reading.2 w
            = mk behind (output_queue w) (memory_warning_shown w)
                 (last_memory_log_time w) true) as ->.
    { unfold iteration. by rewrite Hexit, Hq. }
    rewrite worker_run_exited by done. cbn. by rewrite app_nil_r.
  - destruct readings as [|reading readings]; [simpl in Hlen; lia|].
    change (worker_run rawpy (reading :: readings) w)
      with (worker_run rawpy readings (iteration rawpy reading.1 reading.2 w)).
    apply Forall_cons in Hcalm as [Hfirst Hcalm].
    rewrite fmap_cons in Hq. cbn [app] in Hq.
    destruct (iteration_calm rawpy reading path id _ w Hfirst Hexit Hq)
      as (Hq1 & Ho1 & Hex1).
    destruct (IH readings _ Hcalm Hex1 Hq1 ltac:(simpl in Hlen; lia))
      as (Ho & Hi & He).
    split; [|done]. rewrite Ho, Ho1, fmap_cons. cbn [fst snd].
    by rewrite <- app_assoc.
Qed.

Lemma worker_answers_in_order_witness :
  let w := mk [Some ("a.cr2"%string, 0); Some ("x.raw"%string, 1); None] [] false 0 false in
  let w' := worker_run sample_rawpy [(Some 50%Q, 1%Q); (None, 2%Q); (Some 90%Q, 3%Q)] w in
  task_id <$> output_queue w' = [0; 1] ∧ success <$> output_queue w' = [true; false]
  ∧ exited w' = true.
Proof.
  intros w w'.
  destruct (worker_answers_in_order sample_rawpy
              [(Some 50%Q, 1%Q); (None, 2%Q); (Some 90%Q, 3%Q)]
              [("a.cr2"%string, 0); ("x.raw"%string, 1)] [] w) as (Ho & _ & He).
  - repeat constructor; vm_compute; discriminate.
  - reflexivity.
  - reflexivity.
  - simpl. lia.
  - fold w' in Ho, He. rewrite Ho. done.
Defined.

Lemma iteration_critical (rawpy : string → RawpyOutcome) (reading : option Q * Q)
    (path : string) (id : Z) (q : list (option (string * Z))) (w : t) :
  critical reading → exited w = false → input_queue w = Some (path, id) :: q →
  let w' := iteration rawpy reading.1 reading.2 w in
  input_queue w' = q ++ [Some (path, id)] ∧ output_queue w' = output_queue w
  ∧ exited w' = false.
Proof.
  intros Hcrit Hexit Hq w'. subst w'. unfold iteration. rewrite Hexit, Hq.
  unfold critical in Hcrit. destruct reading.1 as [percent|]; [|done].
  assert (Qgtb percent 95 = true) as Hhigh.
  { unfold Qgtb. apply negb_true_iff.
    destruct (Qle_bool percent 95) eqn:H; [|done].
    apply Qle_bool_iff in H. lra. }
  destruct (if Qgtb percent 85 && negb (memory_warning_shown w)
               && Qgtb (reading.2 - last_memory_log_time w) memory_log_cooldown
            then (true, reading.2)
            else if Qle_bool percent 75 then (false, last_memory_log_time w)
                 else (memory_warning_shown w, last_memory_log_time w))
    as [shown last].
  by rewrite Hhigh.
Qed.

Lemma iteration_end_signal (rawpy : string → RawpyOutcome)
    (memory_percent : option Q) (current_time : Q)
    (q : list (option (string * Z))) (w : t) :
  exited w = false → input_queue w = None :: q →
  let w' := iteration rawpy memory_percent current_time w in
  input_queue w' = q ∧ output_queue w' = output_queue w ∧ exited w' = true.
Proof. intros Hexit Hq w'. subst w'. unfold iteration. by rewrite Hexit, Hq. Qed.

(** Above 95 percent the output queue stays as it is, whatever the input
    queue holds. *)
Lemma pressure_output (rawpy : string → RawpyOutcome)
    (readings : list (option Q * Q)) :
  ∀ w : t, Forall critical readings →
           output_queue (worker_run rawpy readings w) = output_queue w.
Proof.
  induction readings as [|reading readings IH]; intros w Hcrit; [done|].
  apply Forall_cons in Hcrit as [Hfirst Hcrit].
  change (worker_run rawpy (reading :: readings) w)
    with (worker_run rawpy readings (iteration rawpy reading.1 reading.2 w)).
  rewrite IH by done.
  destruct (exited w) eqn:Hexit; [by rewrite iteration_exited|].
  destruct (input_queue w) as [|[[path id]|] q] eqn:Hq.
  - unfold iteration. by rewrite Hexit, Hq.
  - by destruct (iteration_critical rawpy reading path id q w Hfirst Hexit Hq)
      as (_ & ? & _).
  - by destruct (iteration_end_signal rawpy reading.1 reading.2 q w Hexit Hq)
      as (_ & ? & _).
Qed.

(** With no end signal in the queue the process stays in its loop and the
    queue keeps its requests. *)
Lemma pressure_keeps_requests (rawpy : string → RawpyOutcome)
    (readings : list (option Q * Q)) :
  ∀ (requests : list (string * Z)) (w : t),
    Forall critical readings → exited w = false →
    input_queue w = Some <$> requests →
    let w' := worker_run rawpy readings w in
    (∃ requests', input_queue w' = Some <$> requests' ∧ requests' ≡ₚ requests)
    ∧ exited w' = false.
Proof.
  induction readings as [|reading readings IH];
    intros requests w Hcrit Hexit Hq w'; subst w'.
  - cbn. split; [|done]. by exists requests.
  - apply Forall_cons in Hcrit as [Hfirst Hcrit].
    change (worker_run rawpy (reading :: readings) w)
      with (worker_run rawpy readings (iteration rawpy reading.1 reading.2 w)).
    destruct requests as [|[path id] rest].
    + assert (iteration rawpy reading.1 reading.2 w = w) as ->
        by (unfold iteration; by rewrite Hexit, Hq).
      by apply (IH []).
    + rewrite fmap_cons in Hq.
      destruct (iteration_critical rawpy reading path id _ w Hfirst Hexit Hq)
        as (Hq1 & _ & He1).
      destruct (IH (rest ++ [(path, id)]) _ Hcrit He1)
        as ((requests' & Hq' & Hperm) & He).
      { rewrite Hq1. by rewrite fmap_app. }
      split; [|done]. exists requests'. split; [done|]. rewrite Hperm.
      by rewrite <- Permutation_cons_append.
Qed.

(** With the end signal behind some requests, the requests are put back
    behind it one by one, then the signal is taken. *)
Lemma pressure_strands_requests (rawpy : string → RawpyOutcome)
    (front : list (string * Z)) :
  ∀ (readings : list (option Q * Q)) (behind : list (option (string * Z))) (w : t),
    Forall critical readings → exited w = false →
    input_queue w = (Some <$> front) ++ None :: behind →
    (length front < length readings)%nat →
    let w' := worker_run rawpy readings w in
    exited w' = true ∧ input_queue w' = behind ++ (Some <$> front).
Proof.
  induction front as [|[path id] front IH];
    intros readings behind w Hcrit Hexit Hq Hlen w'; subst w'.
  - destruct readings as [|reading readings]; [simpl in Hlen; lia|].
    change (worker_run rawpy (reading :: readings) w)
      with (worker_run rawpy readings (iteration rawpy reading.1 reading.2 w)).
    cbn [fmap list_fmap app] in Hq.
    destruct (iteration_end_signal rawpy reading.1 reading.2 behind w Hexit Hq)
      as (Hq1 & _ & He1).
    rewrite worker_run_exited by done. by rewrite app_nil_r.
  - destruct readings as [|reading readings]; [simpl in Hlen; lia|].
    apply Forall_cons in Hcrit as [Hfirst Hcrit].
    change (worker_run rawpy (reading :: readings) w)
      with (worker_run rawpy readings (iteration rawpy reading.1 reading.2 w)).
    rewrite fmap_cons in Hq. cbn [app] in Hq.
    destruct (iteration_critical rawpy reading path id _ w Hfirst Hexit Hq)
      as (Hq1 & _ & He1).
    rewrite <- app_assoc in Hq1. cbn [app] in Hq1.
    destruct (IH readings (behind ++ [Some (path, id)]) _ Hcrit He1 Hq1
                ltac:(simpl in Hlen; lia)) as (He & Hq').
    split; [done|]. rewrite Hq', fmap_cons, <- app_assoc. done.
Qed.

(** X22: above 95 percent nothing is decoded.  While every reading is above
    95 percent the process answers nothing: the output queue stays as it
    was, whatever the input queue holds and however many passes are made.
    If the input queue holds requests only (no end signal, as before the
    pool is shut down), the process never leaves its loop: each pass takes
    the request at the head and puts it back at the end, and the queue
    keeps exactly its requests.  If the end signal waits behind some
    requests (as after [shutdown]), the process puts those requests back
    behind it, takes the signal and leaves its loop: the requests are left
    on the queue, unanswered. *)
Theorem worker_defers_under_pressure (rawpy : string → RawpyOutcome)
    (readings : list (option Q * Q)) (w : t) :
  Forall critical readings → exited w = false →
  let w' := worker_run rawpy readings w in
  output_queue w' = output_queue w
  ∧ (∀ requests, input_queue w = Some <$> requests →
       (∃ requests', input_queue w' = Some <$> requests' ∧ requests' ≡ₚ requests)
       ∧ exited w' = false)
  ∧ (∀ front behind,
       input_queue w = (Some <$> front) ++ None :: behind →
       (length front < length readings)%nat →
       exited w' = true ∧ input_queue w' = behind ++ (Some <$> front)).
Proof.
  intros Hcrit Hexit w'. split; [by apply pressure_output|]. split.
  - intros requests Hq. by apply pressure_keeps_requests.
  - intros front behind Hq Hlen. by apply pressure_strands_requests.
Qed.

Lemma worker_defers_under_pressure_witness :
  let w := mk [Some ("a.cr2"%string, 0); Some ("b.nef"%string, 1)] [] false 0 false in
  let stopping := mk [Some ("a.cr2"%string, 0); None] [] false 0 false in
  let readings := [(Some 97%Q, 1%Q); (Some 97%Q, 2%Q)] in
  (output_queue (worker_run sample_rawpy readings w) = []
   ∧ exited (worker_run sample_rawpy readings w) = false)
  ∧ (output_queue (worker_run sample_rawpy readings stopping) = []
     ∧ exited (worker_run sample_rawpy readings stopping) = true
     ∧ input_queue (worker_run sample_rawpy readings stopping)
       = [Some ("a.cr2"%string, 0)]).
Proof.
  intros w stopping readings.
  assert (Forall critical readings) as Hcrit by (repeat constructor).
  split.
  - destruct (worker_defers_under_pressure sample_rawpy readings w Hcrit eq_refl)
      as (Ho & Hkeep & _).
    split; [exact Ho|].
    apply (Hkeep [("a.cr2"%string, 0); ("b.nef"%string, 1)] eq_refl).
  - destruct (worker_defers_under_pressure sample_rawpy readings stopping Hcrit
                eq_refl) as (Ho & _ & Hstrand).
    split; [exact Ho|].
    apply (Hstrand [("a.cr2"%string, 0)] [] eq_refl). simpl. lia.
Defined.
End Worker.

(** ** Polling the decoder pool *)

Section Polling.
Import RawDecoderPool.

(** What the loop of [process_results] does: it takes a prefix of the
    output queue, invokes callbacks that were registered, and removes the
    invoked ones from the map. *)
Lemma process_loop_spec (max_results : Z) (out : list DecodeResult) :
  ∀ (processed : Z) (tasks : gmap Z Callback) (called : list (Z * string)),
    ∃ taken new,
      let '(n, out', tasks', called') :=
        process_loop max_results processed out tasks called in
      out = taken ++ out'
      ∧ called' = called ++ new
      ∧ tasks' ⊆ tasks
      ∧ (∀ c, c ∈ new → is_Some (tasks !! c.1))
      ∧ processed <= n
      ∧ n - processed <= Z.of_nat (length taken) <= n - processed + 1
      ∧ n <= Z.max processed max_results
      ∧ (processed < max_results → out ≠ [] → taken ≠ [])
      ∧ ((∀ id cb result, tasks !! id = Some cb → cb_raises cb result = false) →
         Z.of_nat (length taken) = n - processed
         ∧ n - processed
           = Z.min (Z.max 0 (max_results - processed)) (Z.of_nat (length out))).
Proof.
  induction out as [|result out IH]; intros processed tasks called.
  - exists [], []. cbn [process_loop].
    assert ((if processed <? max_results
             then (processed, @nil DecodeResult, tasks, called)
             else (processed, [], tasks, called))
            = (processed, [], tasks, called)) as -> by by destruct (_ <? _).
    rewrite !app_nil_r.
    split; [done|]. split; [done|]. split; [done|].
    split; [intros c Hc; by apply elem_of_nil in Hc|].
    split; [lia|]. split; [simpl; lia|]. split; [lia|]. split; [done|].
    intros _. simpl. lia.
  - cbn [process_loop]. destruct (Z.ltb_spec processed max_results) as [Hlt|Hge].
    2:{ exists [], []. rewrite !app_nil_r.
        split; [done|]. split; [done|]. split; [done|].
        split; [intros c Hc; by apply elem_of_nil in Hc|].
        split; [lia|]. split; [simpl; lia|]. split; [lia|]. split; [lia|].
        intros _. simpl. lia. }
    destruct (tasks !! task_id result) as [callback|] eqn:Hid.
    + destruct (cb_raises callback result) eqn:Hraise.
      * exists [result], [(task_id result, cb_name callback)].
        split; [done|]. split; [done|]. split; [apply delete_subseteq|].
        split.
        { intros c Hc. apply list_elem_of_singleton in Hc as ->. by exists callback. }
        split; [lia|]. split; [simpl; lia|]. split; [lia|]. split; [done|].
        intros Hquiet. specialize (Hquiet _ _ result Hid). congruence.
      * destruct (IH (processed + 1) (delete (task_id result) tasks)
                    (called ++ [(task_id result, cb_name callback)]))
          as (taken & new & Hspec).
        exists (result :: taken), ((task_id result, cb_name callback) :: new).
        destruct (process_loop _ _ _ _ _) as [[[n out'] tasks'] called'].
        destruct Hspec as (Hout & Hcalled & Hsub & Hnew & Hn & Hlen & Hmax
                           & _ & Hquiet).
        split; [by rewrite Hout|]. split; [by rewrite Hcalled, <- app_assoc|].
        split; [etrans; [exact Hsub|apply delete_subseteq]|].
        split.
        { intros c Hc. apply elem_of_cons in Hc as [->|Hc]; [by exists callback|].
          destruct (Hnew c Hc) as [cb Hcb].
          apply lookup_delete_Some in Hcb as [_ Hcb]. by exists cb. }
        split; [lia|]. split; [simpl; lia|].
        split; [lia|]. split; [done|].
        intros Hq. destruct Hquiet as [Hq1 Hq2].
        { intros id cb r Hcb. apply lookup_delete_Some in Hcb as [_ Hcb].
          by apply (Hq id cb r). }
        simpl. lia.
    + destruct (IH (processed + 1) tasks called) as (taken & new & Hspec).
      exists (result :: taken), new.
      destruct (process_loop _ _ _ _ _) as [[[n out'] tasks'] called'].
      destruct Hspec as (Hout & Hcalled & Hsub & Hnew & Hn & Hlen & Hmax
                         & _ & Hquiet).
      split; [by rewrite Hout|]. split; [done|]. split; [done|]. split; [done|].
      split; [lia|]. split; [simpl; lia|].
      split; [lia|]. split; [done|].
      intros Hq. destruct (Hquiet Hq) as [Hq1 Hq2]. simpl. lia.
Qed.

(** X23: a poll takes results from the head of the queue and loses none.  On
    a running pool, [process_results] removes a prefix of the output
    queue and leaves the rest in order; it returns at most [max_results];
    the prefix is as long as the number returned, or one longer when a
    callback raised (that result is consumed uncounted and the poll
    ends); callbacks are only removed from the map, and only registered
    ones are invoked; with a budget of at least one a waiting result is
    always taken; and when no registered callback raises, the poll takes
    exactly [min(max_results, len(queue))] results. *)
Theorem poll_takes_a_prefix (max_results : Z) (s : t) :
  _running s = true → 0 <= max_results →
  let n := (process_results max_results s).1 in
  let s' := (process_results max_results s).2 in
  ∃ taken new,
    output_queue s = taken ++ output_queue s'
    ∧ called s' = called s ++ new
    ∧ (∀ c, c ∈ new → is_Some (tasks s !! c.1))
    ∧ tasks s' ⊆ tasks s
    ∧ input_queue s' = input_queue s ∧ next_task_id s' = next_task_id s
    ∧ 0 <= n <= max_results
    ∧ n <= Z.of_nat (length taken) <= n + 1
    ∧ (1 <= max_results → output_queue s ≠ [] → taken ≠ [])
    ∧ ((∀ id cb result, tasks s !! id = Some cb → cb_raises cb result = false) →
       n = Z.min max_results (Z.of_nat (length (output_queue s)))
       ∧ Z.of_nat (length taken) = n).
Proof.
  intros Hrun Hmax n s'. subst n s'. unfold process_results. rewrite Hrun.
  cbn [negb].
  destruct (process_loop_spec max_results (output_queue s) 0 (tasks s) (called s))
    as (taken & new & Hspec).
  destruct (process_loop max_results 0 (output_queue s) (tasks s) (called s))
    as [[[n out'] tasks'] called'].
  destruct Hspec as (Hout & Hcalled & Hsub & Hnew & Hn & Hlen & Hle & Hprog & Hquiet).
  exists taken, new. cbn [fst snd output_queue called tasks input_queue next_task_id].
  split; [done|]. split; [done|].
  split; [done|].
  split; [done|]. split; [done|]. split; [done|].
  split; [lia|]. split; [lia|]. split; [intros; apply Hprog; [lia|done]|].
  intros Hq. destruct (Hquiet Hq). lia.
Qed.

Lemma poll_takes_a_prefix_witness :
  let s := with_queues [] [orphan_result; orphan_result; orphan_result]
             (__init__ two_workers) in
  (process_results 2 s).1 = 2
  ∧ output_queue (process_results 2 s).2 = [orphan_result].
Proof.
  intros s.
  destruct (poll_takes_a_prefix 2 s eq_refl ltac:(lia))
    as (taken & new & Hout & _ & _ & _ & _ & _ & _ & _ & _ & Hquiet).
  destruct Hquiet as [Hn _].
  { intros id cb result H. change (tasks s) with (∅ : gmap Z Callback) in H.
    by rewrite lookup_empty in H. }
  split; [rewrite Hn; reflexivity|reflexivity].
Defined.

(** After [cancel_all_tasks], with [N] the next task id at that moment:
    every registered id is at least [N], and so is every id whose callback
    has been invoked since. *)
Lemma after_cancel_inv (N : Z) (before : list (Z * string)) (steps : list PoolStep) :
  ∀ s : t,
    N <= next_task_id s →
    (∀ id cb, tasks s !! id = Some cb → N <= id) →
    (∃ new, called s = before ++ new ∧ Forall (fun c => N <= c.1) new) →
    let s' := (pool_run steps s).2 in
    ∃ new, called s' = before ++ new ∧ Forall (fun c => N <= c.1) new.
Proof.
  induction steps as [|step steps IH]; intros s Hnext Htasks Hcalled; [done|].
  cbn [pool_run].
  destruct (pool_step step s) as [returned s1] eqn:Hstep.
  assert (N <= next_task_id s1
          ∧ (∀ id cb, tasks s1 !! id = Some cb → N <= id)
          ∧ ∃ new, called s1 = before ++ new ∧ Forall (fun c => N <= c.1) new)
    as (Hnext1 & Htasks1 & Hcalled1).
  { destruct step; cbn [pool_step] in Hstep.
    - unfold decode_raw in Hstep. destruct (_running s); cbn [negb] in Hstep;
        injection Hstep as <- <-; [|done].
      cbn [next_task_id tasks called]. split; [lia|]. split; [|done].
      intros id cb Hid. apply lookup_insert_Some in Hid as [[<- _]|[_ Hid]]; [lia|].
      by apply (Htasks id cb).
    - injection Hstep as <- <-. unfold process_results.
      destruct (_running s); cbn [negb]; [|done].
      destruct (process_loop_spec max_results (output_queue s) 0 (tasks s) (called s))
        as (taken & new & Hspec).
      destruct (process_loop max_results 0 (output_queue s) (tasks s) (called s))
        as [[[n out'] tasks'] called'].
      destruct Hspec as (_ & Hc & Hsub & Hnew & _).
      cbn [snd next_task_id tasks called]. split; [done|]. split.
      + intros id cb Hid. apply (Htasks id cb).
        by apply (lookup_weaken tasks' (tasks s)).
      + destruct Hcalled as (new0 & Hc0 & Hall0).
        exists (new0 ++ new). split; [by rewrite Hc, Hc0, app_assoc|].
        apply Forall_app. split; [done|]. apply Forall_forall. intros c Hin.
        destruct (Hnew c Hin) as [cb Hcb]. by apply (Htasks c.1 cb).
    - injection Hstep as <- <-. unfold shutdown.
      destruct (_running s); cbn [negb]; [|done].
      cbn [next_task_id tasks called]. split; [done|]. split; [|done].
      intros id cb Hid. by rewrite lookup_empty in Hid.
    - injection Hstep as <- <-. cbn [next_task_id tasks called].
      split; [done|]. split; [|done].
      intros id cb Hid. by rewrite lookup_empty in Hid.
    - injection Hstep as <- <-. done.
    - injection Hstep as <- <-. done. }
  specialize (IH s1 Hnext1 Htasks1 Hcalled1).
  by destruct (pool_run steps s1) as [ids s2].
Qed.

(** X24: a cancelled request never calls back.  Whatever a pool has done
    since [__init__], once [cancel_all_tasks] has cleared it no callback
    is ever invoked for a task id handed out before: not when results of
    cancelled requests arrive late on the output queue, not when new
    requests are registered, whatever else happens afterwards.  Task ids
    are not reused, so a late result cannot reach a callback registered
    after the cancel either. *)
Theorem cancelled_requests_never_call_back (workers : list Process)
    (before after : list PoolStep) :
  let ids := (pool_run before (__init__ workers)).1 in
  let s := (pool_run before (__init__ workers)).2 in
  let s' := (pool_run (CancelAll :: after) s).2 in
  ∃ new,
    called s' = called s ++ new
    ∧ (∀ id, id ∈ ids → id ∉ new.*1)
    ∧ Forall (fun c => next_task_id s <= c.1) new.
Proof.
  intros ids s s'.
  assert (pending_inv (next_task_id (__init__ workers)) (tasks (__init__ workers))
            (called (__init__ workers))) as Hinit.
  { split; [|split]; simpl.
    - intros id cb H. by rewrite lookup_empty in H.
    - intros id H. by apply elem_of_nil in H.
    - constructor. }
  destruct (pool_run_inv before _ Hinit) as (_ & _ & Hids & _).
  fold ids s in Hids.
  subst s'. cbn [pool_run pool_step].
  set (s0 := mk [] [] (processes s) (next_task_id s) ∅ (_running s) (called s)
                (process_log s)).
  destruct (after_cancel_inv (next_task_id s) (called s) after s0) as (new & Hc & Hall).
  - simpl. lia.
  - intros id cb H. subst s0. cbn [tasks] in H. by rewrite lookup_empty in H.
  - exists []. split; [by rewrite app_nil_r|constructor].
  - destruct (pool_run after s0) as [ids' s2]. cbn [snd] in *.
    exists new. split; [done|]. split; [|done].
    intros id Hid Hin. rewrite Forall_forall in Hids. rewrite Forall_forall in Hall.
    apply list_elem_of_fmap in Hin as (c & -> & Hc').
    specialize (Hids _ Hid). specialize (Hall _ Hc'). simpl in Hall. lia.
Qed.
End Polling.

(** ** Fairness of the priority queues *)

Section Starvation.
Import PriorityThreadPoolExecutor.

Lemma submit_with_priority_live (priority : string) (task : Task) (p : t) :
  live p → live (submit_with_priority priority task p).
Proof.
  intros (Hs & Ha & Hb).
  destruct (submit_with_priority_queues priority task p)
    as (_ & _ & _ & Hb' & Hs' & Ha').
  cbv zeta in Hb', Hs', Ha'. unfold live. by rewrite Hb', Hs', Ha'.
Qed.

(** X25: lower tiers wait for as long as high tasks keep coming.  When a
    high-priority task arrives before every pass of the queue processor,
    each pass hands over the oldest high task; the medium and low queues
    are not touched, however long their tasks have been waiting and
    however many passes are made. *)
Theorem high_arrivals_starve_lower_tiers (arrivals : list Task) (p : t) :
  live p →
  let p' :=
    foldl (fun p task => process_iteration (submit_with_priority "high" task p))
          p arrivals in
  medium p' = medium p ∧ low p' = low p
  ∧ handed_over p' = handed_over p ++ take (length arrivals) (high p ++ arrivals)
  ∧ high p' = drop (length arrivals) (high p ++ arrivals)
  ∧ live p'.
Proof.
  revert p. induction arrivals as [|task arrivals IH]; intros p Hlive.
  - cbn. by rewrite !app_nil_r.
  - cbn [foldl length].
    set (p0 := submit_with_priority "high" task p).
    pose proof (submit_with_priority_live "high" task p Hlive) as Hlive0.
    destruct (submit_with_priority_queues "high" task p)
      as (Hh0 & Hm0 & Hl0 & Hb0 & _).
    cbv zeta in Hh0, Hm0, Hl0, Hb0. fold p0 in Hlive0, Hh0, Hm0, Hl0, Hb0.
    change (tier_of "high") with "high"%string in *.
    rewrite decide_True in Hh0 by done.
    rewrite decide_False, app_nil_r in Hm0 by done.
    rewrite decide_False, app_nil_r in Hl0 by done.
    set (p1 := process_iteration p0).
    assert (∃ first rest,
              high p ++ [task] = first :: rest
              ∧ live p1 ∧ handed_over p1 = handed_over p ++ [first]
              ∧ high p1 = rest ∧ medium p1 = medium p ∧ low p1 = low p)
      as (first & rest & Hq & Hlive1 & Hho1 & Hh1 & Hm1 & Hl1).
    { subst p1. unfold process_iteration. rewrite Hh0.
      destruct (high p ++ [task]) as [|first rest] eqn:Hq.
      { apply (f_equal length) in Hq. rewrite length_app in Hq. simpl in Hq. lia. }
      exists first, rest. split; [done|].
      destruct (hand_over_live first rest (medium p0) (low p0) p0 Hlive0)
        as (Hlive1 & Hho & Hh1 & Hm1 & Hl1).
      cbv zeta in Hlive1, Hho, Hh1, Hm1, Hl1.
      split; [done|]. split.
      { rewrite Hho. unfold handed_over. by rewrite Hb0. }
      split; [done|]. split; [by rewrite Hm1|by rewrite Hl1]. }
    destruct (IH p1 Hlive1) as (Hm & Hl & Hho & Hh & Hl').
    cbv zeta in Hm, Hl, Hho, Hh, Hl'.
    replace (high p ++ task :: arrivals) with (first :: rest ++ arrivals)
      by (rewrite (app_comm_cons rest), <- Hq, <- app_assoc; done).
    cbn [take drop].
    rewrite Hm, Hl, Hho, Hh, Hm1, Hl1, Hho1, Hh1, <- app_assoc. done.
Qed.

Lemma high_arrivals_starve_lower_tiers_witness :
  let p := submit_all [("low", load_task "old")]%string __init__ in
  let p' :=
    foldl (fun p task => process_iteration (submit_with_priority "high" task p))
          p [load_task "a"; load_task "b"; load_task "c"] in
  low p' = [load_task "old"]
  ∧ handed_over p' = [load_task "a"; load_task "b"; load_task "c"].
Proof.
  intros p p'.
  destruct (high_arrivals_starve_lower_tiers
              [load_task "a"; load_task "b"; load_task "c"] p)
    as (_ & Hl & Hho & _).
  - repeat split.
  - fold p' in Hl, Hho. by rewrite Hl, Hho.
Defined.
End Starvation.
